(** * The remote invocation engine of the Modal client

    A shallow embedding of [modal/functions.py]: the result decoder
    ([_process_result]), the input encoder ([_create_input]), the single-call
    life cycle ([Invocation]), the futures API ([_Function.submit]) and the
    parallel map engine ([map_invocation]); with it the constructor and the
    call entry points of [_Function], the object ids of [modal/object.py],
    the line buffer of [modal/_output.py] and the mount information of
    [modal/_package_utils.py].

    Conventions.
    - Python values are an abstract type [PyObj]; the codec, the blob
      side-channel, the size limit and the default retry policy live in
      other modules and are the fields of the class [Runtime].
    - The control plane is a script: the [World] holds the replies the
      server is going to give to each RPC, the readings [time.time()] is
      going to return, and a log of the calls made so far.  The retries of
      [retry_transient_errors] happen inside the wrapper: a reply of the
      script is what the wrapper ends with.  A call whose script is used up
      never returns ([Pending]).
    - Wall-clock readings and timeouts are rationals.
    - A coroutine is a function of the world.  A generator is modelled by
      the list of what it yields and the way it ends.
    - The three generators merged in [map_invocation] are a state machine
      driven by a schedule: an event runs one task up to its next
      suspension point, or hands the item a task is suspended on to the
      outer loop.  The shared counters are fields of one state, so every
      interleaving of the tasks is a schedule. *)

From Stdlib Require Import QArith Qminmax Lqa.
From stdpp Require Import gmap strings list.
Close Scope Q_scope.

Definition bytes := list Byte.byte.

(** ** Wire records (modal_proto.api_pb2) *)

Inductive GenericStatus := GENERIC_STATUS_SUCCESS | GENERIC_STATUS_FAILURE.

(** The generator status of a result.  A result that does not come from a
    generator leaves the field unset, and an unset enum field reads as its
    first value, the only one that is false in [assert not result.gen_status]. *)
Inductive GeneratorStatus :=
| GENERATOR_STATUS_UNSPECIFIED
| GENERATOR_STATUS_INCOMPLETE
| GENERATOR_STATUS_COMPLETE.
Inductive StatusCode := UNAVAILABLE | DEADLINE_EXCEEDED | RESOURCE_EXHAUSTED | INVALID_ARGUMENT.

#[global] Instance GenericStatus_eq_dec : EqDecision GenericStatus.
Proof. solve_decision. Defined.
#[global] Instance GeneratorStatus_eq_dec : EqDecision GeneratorStatus.
Proof. solve_decision. Defined.
#[global] Instance StatusCode_eq_dec : EqDecision StatusCode.
Proof. solve_decision. Defined.

(** The [data_oneof] group of GenericResult.  When no member is set,
    reading [result.data] gives the empty byte string. *)
Inductive data_oneof :=
| data_unset
| data (b : bytes)
| data_blob_id (id : string).

Record GenericResult := {
  status : GenericStatus;
  gen_status : GeneratorStatus;
  result_data : data_oneof;
  exception : string;
  traceback : string;
}.

(** FunctionInput: the constructor call sets the keyword it is given and
    leaves the other field unset. *)
Record FunctionInput := {
  args : option bytes;
  args_blob_id : option string;
}.

Record FunctionPutInputsItem := {
  input : FunctionInput;
  idx : option nat;
}.

Record FunctionGetOutputsItem := {
  item_idx : nat;
  result : GenericResult;
}.

Definition has_inline_bytes (i : FunctionInput) : bool := bool_decide (is_Some (args i)).
Definition has_blob_id (i : FunctionInput) : bool := bool_decide (is_Some (args_blob_id i)).

(** ** Exceptions and outcomes *)

Inductive exn (O : Type) :=
| InvalidError (msg : string)
| RemoteError (msg : string)
| ExecutionError (msg : string)
| TimeoutError
| AssertionError
| IndexError
| Propagated (exc : O)      (* [raise exc] of a decoded remote exception *)
| Foreign (str : string).   (* raised by a collaborator; [str] is its str() *)
Arguments InvalidError {O} msg.
Arguments RemoteError {O} msg.
Arguments ExecutionError {O} msg.
Arguments TimeoutError {O}.
Arguments AssertionError {O}.
Arguments IndexError {O}.
Arguments Propagated {O} exc.
Arguments Foreign {O} str.

(** What a collaborator outside this module does: return or raise. *)
Inductive fallible (A : Type) :=
| Returns (a : A)
| Throws (str : string).
Arguments Returns {A} a.
Arguments Throws {A} str.

(** What a coroutine of this module does: return, raise, or wait for ever. *)
Inductive outcome (O A : Type) :=
| Done (a : A)
| Raise (e : exn O)
| Pending.
Arguments Done {O A} a.
Arguments Raise {O A} e.
Arguments Pending {O A}.

Definition bind_outcome {O A B} (m : outcome O A) (k : A → outcome O B) : outcome O B :=
  match m with
  | Done a => k a
  | Raise e => Raise e
  | Pending => Pending
  end.

Definition lift {O A} (f : fallible A) : outcome O A :=
  match f with
  | Returns a => Done a
  | Throws s => Raise (Foreign s)
  end.

(** ** Retry policy handed to [retry_transient_errors] *)

Record RetryPolicy := {
  max_retries : option nat;            (* None: unlimited *)
  base_delay : Q;
  additional_status_codes : list StatusCode;
}.

(** ** Collaborators *)

Class Runtime := {
  PyObj : Type;
  (** the client handle; only its identity matters here *)
  Client : Type;
  (** [serialize((args, kwargs))] *)
  serialize : PyObj → PyObj → bytes;
  (** [deserialize(data, client)]; [Throws s] is an Exception with str() [s] *)
  deserialize : bytes → fallible PyObj;
  (** [isinstance(exc, BaseException)] *)
  isinstance_BaseException : PyObj → bool;
  (** the text of [type(exc)] in an f-string *)
  type_repr : PyObj → string;
  blob_upload : bytes → fallible string;
  blob_download : string → fallible bytes;
  MAX_OBJECT_SIZE_BYTES : nat;
  (** the policy of [retry_transient_errors] when no keyword is passed *)
  default_policy : RetryPolicy;
}.

Definition nl : string := String (Ascii.ascii_of_nat 10) EmptyString.

(** [t] occurs inside [s]. *)
Definition includes (t s : string) : Prop := ∃ p q : string, s = p +:+ t +:+ q.

(** ** The control plane as a script *)

Inductive Request :=
| FunctionMapRequest (function_id : string)
| FunctionPutInputsRequest (function_id : string)
    (inputs : list FunctionPutInputsItem) (function_call_id : string)
| FunctionGetOutputsRequest (function_call_id : string)
    (timeout : Q) (return_empty_on_timeout : bool).

Inductive Response :=
| FunctionMapResponse (function_call_id : string)
| FunctionPutInputsResponse
| FunctionGetOutputsResponse (outputs : list FunctionGetOutputsItem).

(** One entry of the call log: what [retry_transient_errors] was given and
    what it finally returned or raised. *)
Record RpcCall := {
  request : Request;
  policy : RetryPolicy;
  reply : fallible Response;
}.

Record World := {
  map_script : list (fallible string);
  put_script : list (fallible unit);
  get_script : list (fallible (list FunctionGetOutputsItem));
  clock : nat → Q;          (* the n-th reading of [time.time()] *)
  readings : nat;           (* readings taken so far *)
  calls : list RpcCall;     (* oldest first *)
}.

Definition fmap_fallible {A B} (f : A → B) (x : fallible A) : fallible B :=
  match x with
  | Returns a => Returns (f a)
  | Throws s => Throws s
  end.

Definition is_put (c : RpcCall) : bool :=
  match request c with FunctionPutInputsRequest _ _ _ => true | _ => false end.
Definition is_map (c : RpcCall) : bool :=
  match request c with FunctionMapRequest _ => true | _ => false end.

(** The output items a logged call brought back. *)
Definition outputs_of (c : RpcCall) : list FunctionGetOutputsItem :=
  match reply c with
  | Returns (FunctionGetOutputsResponse outputs) => outputs
  | _ => []
  end.

Section Engine.
Context `{Runtime}.

Abbreviation out := (outcome PyObj).

(** *** The result decoder *)

(** Lines 34-37: the payload, fetched from the blob store when the result
    names a blob. *)
Definition fetch_data (result : GenericResult) : out bytes :=
  match result_data result with
  | data_blob_id id => lift (blob_download id)
  | data b => Done b
  | data_unset => Done []
  end.

Definition could_not_deserialize (deser_exc traceback : string) : string :=
  "Could not deserialize remote exception due to local error:" +:+ nl
  +:+ deser_exc +:+ nl
  +:+ "This can happen if your local environment does not have the remote exception definitions." +:+ nl
  +:+ "Here is the remote traceback:" +:+ nl
  +:+ traceback.

Definition incorrect_type (exc : PyObj) : string :=
  "Got remote exception of incorrect type " +:+ type_repr exc.

(** Truth value of a byte string in [if data:]. *)
Definition truthy (b : bytes) : bool :=
  match b with [] => false | _ => true end.

Definition _process_result (result : GenericResult) : out PyObj :=
  bind_outcome (fetch_data result) (λ data,
    if negb (bool_decide (status result = GENERIC_STATUS_SUCCESS)) then
      if truthy data then
        match deserialize data with
        | Throws deser_exc =>
            Raise (ExecutionError (could_not_deserialize deser_exc (traceback result)))
        | Returns exc =>
            if negb (isinstance_BaseException exc)
            then Raise (ExecutionError (incorrect_type exc))
            else Raise (Propagated exc)
        end
      else Raise (RemoteError (exception result))
    else lift (deserialize data)).

(** *** The input encoder *)

Definition _create_input (args kwargs : PyObj) (idx : option nat)
  : out FunctionPutInputsItem :=
  let args_serialized := serialize args kwargs in
  if MAX_OBJECT_SIZE_BYTES <? length args_serialized then
    bind_outcome (lift (blob_upload args_serialized)) (λ args_blob_id,
      Done {| input := {| args := None; args_blob_id := Some args_blob_id |};
              idx := idx |})
  else
    Done {| input := {| args := Some args_serialized; args_blob_id := None |};
            idx := idx |}.

(** *** Coroutines over the world *)

Definition M (A : Type) : Type := World → out A * World.

Definition ret {A} (a : A) : M A := λ w, (Done a, w).
Definition raise {A} (e : exn PyObj) : M A := λ w, (Raise e, w).
Definition bind {A B} (m : M A) (k : A → M B) : M B :=
  λ w, match m w with
       | (Done a, w') => k a w'
       | (Raise e, w') => (Raise e, w')
       | (Pending, w') => (Pending, w')
       end.
Definition pure_call {A} (o : out A) : M A := λ w, (o, w).

Notation "'let*' x := m 'in' k" := (bind m (λ x, k))
  (at level 10, x pattern, m at level 100, k at level 200).

Definition log_call (c : RpcCall) (w : World) : World :=
  {| map_script := map_script w; put_script := put_script w;
     get_script := get_script w; clock := clock w; readings := readings w;
     calls := calls w ++ [c] |}.

(** [time.time()] *)
Definition tick (w : World) : World :=
  {| map_script := map_script w; put_script := put_script w;
     get_script := get_script w; clock := clock w;
     readings := S (readings w); calls := calls w |}.

Definition time_time : M Q := λ w, (Done (clock w (readings w)), tick w).

(** [retry_transient_errors(client.stub.FunctionMap, request, **policy)]:
    the retries happen inside the wrapper; the script holds what it ends with. *)
Definition FunctionMap (function_id : string) (pol : RetryPolicy) : M string :=
  λ w, match map_script w with
       | [] => (Pending, w)
       | r :: rest =>
           (lift r,
            log_call {| request := FunctionMapRequest function_id; policy := pol;
                        reply := fmap_fallible FunctionMapResponse r |}
              {| map_script := rest; put_script := put_script w;
                 get_script := get_script w; clock := clock w;
                 readings := readings w; calls := calls w |})
       end.

Definition FunctionPutInputs (function_id : string)
    (inputs : list FunctionPutInputsItem) (function_call_id : string)
    (pol : RetryPolicy) : M unit :=
  λ w, match put_script w with
       | [] => (Pending, w)
       | r :: rest =>
           (lift r,
            log_call {| request := FunctionPutInputsRequest function_id inputs function_call_id;
                        policy := pol;
                        reply := fmap_fallible (λ _, FunctionPutInputsResponse) r |}
              {| map_script := map_script w; put_script := rest;
                 get_script := get_script w; clock := clock w;
                 readings := readings w; calls := calls w |})
       end.

Definition FunctionGetOutputs (function_call_id : string) (timeout : Q)
    (return_empty_on_timeout : bool) (pol : RetryPolicy)
  : M (list FunctionGetOutputsItem) :=
  λ w, match get_script w with
       | [] => (Pending, w)
       | r :: rest =>
           (lift r,
            log_call {| request := FunctionGetOutputsRequest function_call_id timeout
                                     return_empty_on_timeout;
                        policy := pol;
                        reply := fmap_fallible FunctionGetOutputsResponse r |}
              {| map_script := map_script w; put_script := put_script w;
                 get_script := rest; clock := clock w;
                 readings := readings w; calls := calls w |})
       end.

(** The keywords of the two PutInputs call sites (lines 113-118, 231-236). *)
Definition put_policy : RetryPolicy :=
  {| max_retries := None;
     base_delay := base_delay default_policy;
     additional_status_codes := [RESOURCE_EXHAUSTED] |}.

(** The keywords of the poll call of the map engine (lines 251-256). *)
Definition poll_policy : RetryPolicy :=
  {| max_retries := None;
     base_delay := 0%Q;
     additional_status_codes := additional_status_codes default_policy |}.

(** *** Invocation *)

Record Invocation := {
  client : Client;
  function_call_id : string;
}.

(** Truth value of [function_id] in [if not function_id]. *)
Definition id_truthy (function_id : option string) : bool :=
  match function_id with
  | None => false
  | Some s => negb (bool_decide (s = ""))
  end.

Definition not_initialized : string :=
  "The function has not been initialized." +:+ nl +:+ nl
  +:+ "Modal functions can only be called within an app. "
  +:+ "Try calling it from another running modal function or from an app run context:"
  +:+ nl +:+ nl +:+ "with app.run():" +:+ nl +:+ "    my_modal_function()" +:+ nl.

Definition Invocation_create (function_id : option string) (args kwargs : PyObj)
    (client : Client) : M Invocation :=
  match function_id with
  | Some fid =>
      if id_truthy function_id then
        let* function_call_id := FunctionMap fid default_policy in
        let* item := pure_call (_create_input args kwargs None) in
        let* _ := FunctionPutInputs fid [item] function_call_id put_policy in
        ret {| client := client; function_call_id := function_call_id |}
      else raise (InvalidError not_initialized)
  | None => raise (InvalidError not_initialized)
  end.

(** The loop of [get_items] (lines 129-147).  Every round takes one reply
    off the script, so [fuel] above the length of the script is never used up. *)
Fixpoint get_items_loop (fuel : nat) (self : Invocation) (timeout : option Q)
    (t0 backend_timeout : Q) : M (list GenericResult) :=
  match fuel with
  | O => λ w, (Pending, w)
  | S fuel =>
      let* outputs :=
        FunctionGetOutputs (function_call_id self) backend_timeout true default_policy in
      if 0 <? length outputs then ret (map result outputs)
      else
        match timeout with
        | None => get_items_loop fuel self timeout t0 backend_timeout
        | Some tmo =>
            let* now := time_time in
            let backend_timeout := Qmin 60 (t0 + tmo - now) in
            if Qlt_le_dec backend_timeout 0 then ret []
            else get_items_loop fuel self timeout t0 backend_timeout
        end
  end.

(** [get_items]: the items it yields, in order.  All of them come from the
    last response, so nothing happens between two of its yields. *)
Definition get_items (self : Invocation) (timeout : option Q) : M (list GenericResult) :=
  λ w,
    (let* t0 := time_time in
     let backend_timeout :=
       match timeout with
       | None => 60%Q
       | Some tmo => Qmin 60 tmo
       end in
     get_items_loop (S (length (get_script w))) self timeout t0 backend_timeout) w.

Definition run_function (self : Invocation) : M PyObj :=
  let* results := get_items self None in
  match results with
  | [] => raise IndexError
  | result :: _ =>
      if bool_decide (gen_status result = GENERATOR_STATUS_UNSPECIFIED)
      then pure_call (_process_result result)
      else raise AssertionError
  end.

Definition poll_function (self : Invocation) (timeout : option Q) : M PyObj :=
  let* results := get_items self timeout in
  if length results =? 0 then raise TimeoutError
  else
    match results with
    | [] => raise IndexError
    | result :: _ => pure_call (_process_result result)
    end.

(** The body of the [async for] of [run_generator] on the items of one
    [get_items()]: the values yielded, then [Done true] if the completion
    marker was met, [Done false] if the items ran out, or the exception
    raised by the decoder. *)
Fixpoint consume_items (items : list GenericResult) : list PyObj * out bool :=
  match items with
  | [] => ([], Done false)
  | result :: rest =>
      if bool_decide (gen_status result = GENERATOR_STATUS_COMPLETE)
      then ([], Done true)
      else
        match _process_result result with
        | Done v => let '(ys, o) := consume_items rest in (v :: ys, o)
        | Raise e => ([], Raise e)
        | Pending => ([], Pending)
        end
  end.

(** [run_generator]: the values yielded and how the generator ends. *)
Fixpoint run_generator_loop (fuel : nat) (self : Invocation)
  : World → (list PyObj * out unit) * World :=
  match fuel with
  | O => λ w, (([], Pending), w)
  | S fuel =>
      λ w, match get_items self None w with
           | (Done items, w') =>
               match consume_items items with
               | (ys, Done true) => ((ys, Done tt), w')
               | (ys, Done false) =>
                   let '((ys', o), w'') := run_generator_loop fuel self w' in
                   ((ys ++ ys', o), w'')
               | (ys, Raise e) => ((ys, Raise e), w')
               | (ys, Pending) => ((ys, Pending), w')
               end
           | (Raise e, w') => (([], Raise e), w')
           | (Pending, w') => (([], Pending), w')
           end
  end.

Definition run_generator (self : Invocation) : World → (list PyObj * out unit) * World :=
  λ w, run_generator_loop (S (length (get_script w))) self w.

(** *** Functions and function calls *)

(** The base class [Object] (modal/object.py). *)
Record Object := {
  _client : option Client;
  _object_id : option string;
}.

(** [_FunctionCall(Object, type_prefix="fc")] adds no field. *)
Definition _FunctionCall : Type := Object.

(** A running app: its client and the object id behind every tag. *)
Record App := {
  app_client : Client;
  app_objects : gmap string (option string);
}.

Record _Function := {
  base : Object;
  _is_generator : bool;
  _local_app : option App;
  _tag : string;
}.

(** The process-wide state read by [_get_context] (modal/app.py). *)
Record Process := {
  is_local : bool;
  _container_app : option App;
}.

Definition app_lookup (app : option App) (tag : string) : out (Client * option string) :=
  match app with
  | None => Raise (Foreign "AttributeError")
  | Some a =>
      match app_objects a !! tag with
      | None => Raise (Foreign "KeyError")
      | Some object_id => Done (app_client a, object_id)
      end
  end.

Definition _get_context (proc : Process) (self : _Function) : out (Client * option string) :=
  match _client (base self) with
  | Some c =>
      if id_truthy (_object_id (base self)) then Done (c, _object_id (base self))
      else if is_local proc then
        match _local_app self with
        | None => Raise (InvalidError
            "App is not running. You might need to put the function call inside a `with stub.run():` block.")
        | Some app => app_lookup (Some app) (_tag self)
        end
      else app_lookup (_container_app proc) (_tag self)
  | None =>
      if is_local proc then
        match _local_app self with
        | None => Raise (InvalidError
            "App is not running. You might need to put the function call inside a `with stub.run():` block.")
        | Some app => app_lookup (Some app) (_tag self)
        end
      else app_lookup (_container_app proc) (_tag self)
  end.

Definition call_function_nowait (proc : Process) (self : _Function) (args kwargs : PyObj)
  : M Invocation :=
  let* context := pure_call (_get_context proc self) in
  let '(client, object_id) := context in
  Invocation_create object_id args kwargs client.

Definition call_generator_nowait (proc : Process) (self : _Function) (args kwargs : PyObj)
  : M Invocation :=
  let* context := pure_call (_get_context proc self) in
  let '(client, object_id) := context in
  Invocation_create object_id args kwargs client.

Definition submit (proc : Process) (self : _Function) (args kwargs : PyObj)
  : M (option _FunctionCall) :=
  if _is_generator self then
    let* _ := call_generator_nowait proc self args kwargs in
    ret None
  else
    let* invocation := call_function_nowait proc self args kwargs in
    ret (Some {| _client := Some (client invocation);
                 _object_id := Some (function_call_id invocation) |}).

(** [_FunctionCall._invocation] (line 187) reads [self._client.stub], which
    fails on a handle without a client, and passes [self.object_id] on as it
    is: a request built with [function_call_id=None] leaves the field unset,
    the empty string on the wire. *)
Definition _invocation (self : _FunctionCall) : out Invocation :=
  match _client self with
  | Some c => Done {| client := c; function_call_id := default "" (_object_id self) |}
  | None => Raise (Foreign "AttributeError")
  end.

(** [_FunctionCall.get] (lines 189-195). *)
Definition FunctionCall_get (self : _FunctionCall) (timeout : option Q) : M PyObj :=
  let* inv := pure_call (_invocation self) in
  poll_function inv timeout.

(** *** The map engine *)

Definition MAP_INVOCATION_CHUNK_SIZE : nat := 100.

Record MapArgs := {
  map_function_id : string;
  map_kwargs : PyObj;
  map_is_generator : bool;
}.

(** The three generators merged by [stream.merge] (line 283). *)
Inductive task := Drain | Pump | Poll.

(** What the scheduler does next: run a task up to its next suspension
    point, or let the merged stream hand the item a task is suspended on to
    the [async for] of lines 285-293.  A generator suspended at a [yield] is
    resumed only after its item was handed over. *)
Inductive event :=
| Run (t : task)
| Deliver (t : task).

Inductive drain_state :=
| DrainLoop                  (* in the [async for] of lines 216-219 *)
| DrainYield                 (* sentinel queued, suspended at line 222 *)
| DrainDone
| DrainRaised (e : exn PyObj).

Inductive pump_state :=
| PumpNext                   (* inside [queue_batch_iterator] (line 227) *)
| PumpSend (items : list FunctionPutInputsItem) (last : bool)   (* lines 228-236 *)
| PumpAllIn                  (* line 238 *)
| PumpYield                  (* suspended at line 239 *)
| PumpDone
| PumpRaised (e : exn PyObj).

Inductive poll_state :=
| PollCall                                        (* line 248 *)
| PollFor (items : list FunctionGetOutputsItem)   (* line 258, items left *)
| PollForYield (output : PyObj) (items : list FunctionGetOutputsItem)
                                                  (* suspended at line 265 *)
| PollWhile                                       (* line 271 *)
| PollWhileYield (output : PyObj)                 (* suspended at line 273 *)
| PollIncr                                        (* resumed, before line 274 *)
| PollDone
| PollRaised (e : exn PyObj).

Inductive engine_state :=
| Starting                   (* before the FunctionMap call of line 203 *)
| Running
| Exited                     (* [map_invocation] returned *)
| Failed (e : exn PyObj).    (* [map_invocation] raised *)

Record MapState := {
  (* the control plane *)
  world : World;
  (* [function_call_id] (line 205) *)
  call_id : string;
  (* the nonlocals shared by the three tasks *)
  have_all_inputs : bool;
  num_outputs : nat;
  num_inputs : nat;
  input_queue : list (option FunctionPutInputsItem);
  (* [drain_input_generator]: what the source has still to give *)
  input_stream : list PyObj;
  drain : drain_state;
  (* [pump_inputs]: the batch being collected *)
  batch : list FunctionPutInputsItem;
  pump : pump_state;
  (* [poll_outputs] *)
  pending_outputs : gmap nat PyObj;
  poll : poll_state;
  (* what [map_invocation] has yielded to its caller *)
  yielded : list PyObj;
  engine : engine_state;
}.

Definition set_world (v : World) (s : MapState) : MapState :=
  {| world := v; call_id := call_id s; have_all_inputs := have_all_inputs s;
     num_outputs := num_outputs s; num_inputs := num_inputs s;
     input_queue := input_queue s; input_stream := input_stream s; drain := drain s;
     batch := batch s; pump := pump s; pending_outputs := pending_outputs s;
     poll := poll s; yielded := yielded s; engine := engine s |}.

Definition set_call_id (v : string) (s : MapState) : MapState :=
  {| world := world s; call_id := v; have_all_inputs := have_all_inputs s;
     num_outputs := num_outputs s; num_inputs := num_inputs s;
     input_queue := input_queue s; input_stream := input_stream s; drain := drain s;
     batch := batch s; pump := pump s; pending_outputs := pending_outputs s;
     poll := poll s; yielded := yielded s; engine := engine s |}.

Definition set_have_all_inputs (v : bool) (s : MapState) : MapState :=
  {| world := world s; call_id := call_id s; have_all_inputs := v;
     num_outputs := num_outputs s; num_inputs := num_inputs s;
     input_queue := input_queue s; input_stream := input_stream s; drain := drain s;
     batch := batch s; pump := pump s; pending_outputs := pending_outputs s;
     poll := poll s; yielded := yielded s; engine := engine s |}.

Definition set_num_outputs (v : nat) (s : MapState) : MapState :=
  {| world := world s; call_id := call_id s; have_all_inputs := have_all_inputs s;
     num_outputs := v; num_inputs := num_inputs s; input_queue := input_queue s;
     input_stream := input_stream s; drain := drain s; batch := batch s;
     pump := pump s; pending_outputs := pending_outputs s; poll := poll s;
     yielded := yielded s; engine := engine s |}.

Definition set_num_inputs (v : nat) (s : MapState) : MapState :=
  {| world := world s; call_id := call_id s; have_all_inputs := have_all_inputs s;
     num_outputs := num_outputs s; num_inputs := v; input_queue := input_queue s;
     input_stream := input_stream s; drain := drain s; batch := batch s;
     pump := pump s; pending_outputs := pending_outputs s; poll := poll s;
     yielded := yielded s; engine := engine s |}.

Definition set_input_queue (v : list (option FunctionPutInputsItem)) (s : MapState) : MapState :=
  {| world := world s; call_id := call_id s; have_all_inputs := have_all_inputs s;
     num_outputs := num_outputs s; num_inputs := num_inputs s; input_queue := v;
     input_stream := input_stream s; drain := drain s; batch := batch s;
     pump := pump s; pending_outputs := pending_outputs s; poll := poll s;
     yielded := yielded s; engine := engine s |}.

Definition set_input_stream (v : list PyObj) (s : MapState) : MapState :=
  {| world := world s; call_id := call_id s; have_all_inputs := have_all_inputs s;
     num_outputs := num_outputs s; num_inputs := num_inputs s;
     input_queue := input_queue s; input_stream := v; drain := drain s;
     batch := batch s; pump := pump s; pending_outputs := pending_outputs s;
     poll := poll s; yielded := yielded s; engine := engine s |}.

Definition set_drain (v : drain_state) (s : MapState) : MapState :=
  {| world := world s; call_id := call_id s; have_all_inputs := have_all_inputs s;
     num_outputs := num_outputs s; num_inputs := num_inputs s;
     input_queue := input_queue s; input_stream := input_stream s; drain := v;
     batch := batch s; pump := pump s; pending_outputs := pending_outputs s;
     poll := poll s; yielded := yielded s; engine := engine s |}.

Definition set_batch (v : list FunctionPutInputsItem) (s : MapState) : MapState :=
  {| world := world s; call_id := call_id s; have_all_inputs := have_all_inputs s;
     num_outputs := num_outputs s; num_inputs := num_inputs s;
     input_queue := input_queue s; input_stream := input_stream s; drain := drain s;
     batch := v; pump := pump s; pending_outputs := pending_outputs s; poll := poll s;
     yielded := yielded s; engine := engine s |}.

Definition set_pump (v : pump_state) (s : MapState) : MapState :=
  {| world := world s; call_id := call_id s; have_all_inputs := have_all_inputs s;
     num_outputs := num_outputs s; num_inputs := num_inputs s;
     input_queue := input_queue s; input_stream := input_stream s; drain := drain s;
     batch := batch s; pump := v; pending_outputs := pending_outputs s; poll := poll s;
     yielded := yielded s; engine := engine s |}.

Definition set_pending_outputs (v : gmap nat PyObj) (s : MapState) : MapState :=
  {| world := world s; call_id := call_id s; have_all_inputs := have_all_inputs s;
     num_outputs := num_outputs s; num_inputs := num_inputs s;
     input_queue := input_queue s; input_stream := input_stream s; drain := drain s;
     batch := batch s; pump := pump s; pending_outputs := v; poll := poll s;
     yielded := yielded s; engine := engine s |}.

Definition set_poll (v : poll_state) (s : MapState) : MapState :=
  {| world := world s; call_id := call_id s; have_all_inputs := have_all_inputs s;
     num_outputs := num_outputs s; num_inputs := num_inputs s;
     input_queue := input_queue s; input_stream := input_stream s; drain := drain s;
     batch := batch s; pump := pump s; pending_outputs := pending_outputs s; poll := v;
     yielded := yielded s; engine := engine s |}.

Definition set_yielded (v : list PyObj) (s : MapState) : MapState :=
  {| world := world s; call_id := call_id s; have_all_inputs := have_all_inputs s;
     num_outputs := num_outputs s; num_inputs := num_inputs s;
     input_queue := input_queue s; input_stream := input_stream s; drain := drain s;
     batch := batch s; pump := pump s; pending_outputs := pending_outputs s;
     poll := poll s; yielded := v; engine := engine s |}.

Definition set_engine (v : engine_state) (s : MapState) : MapState :=
  {| world := world s; call_id := call_id s; have_all_inputs := have_all_inputs s;
     num_outputs := num_outputs s; num_inputs := num_inputs s;
     input_queue := input_queue s; input_stream := input_stream s; drain := drain s;
     batch := batch s; pump := pump s; pending_outputs := pending_outputs s;
     poll := poll s; yielded := yielded s; engine := v |}.


(** What one step of the batching iterator does: go on collecting, hand
    over a batch and go on, hand over the last batch and stop, or stop. *)
Inductive batch_step :=
| BatchMore (batch : list FunctionPutInputsItem)
| BatchYield (items : list FunctionPutInputsItem)
| BatchLast (items : list FunctionPutInputsItem)
| BatchStop.

(** Modelled from the spec: [queue_batch_iterator] of modal_utils.async_utils
    is not among the sources.  The pump "dequeues Inputs in batches of up to
    MAP_INVOCATION_CHUNK_SIZE, flushing on the sentinel", and "PutInputs
    batches satisfy 1 <= |batch| <= MAP_INVOCATION_CHUNK_SIZE": one step takes
    the head [x] of the queue; an input joins the batch and a batch that has
    reached the maximum is handed over; the sentinel hands over what is left,
    if anything is, and ends the iteration. *)
Definition queue_batch_iterator (max_batch_size : nat)
    (batch : list FunctionPutInputsItem) (x : option FunctionPutInputsItem) : batch_step :=
  match x with
  | Some item =>
      let batch := batch ++ [item] in
      if max_batch_size <=? length batch then BatchYield batch else BatchMore batch
  | None =>
      if 0 <? length batch then BatchLast batch else BatchStop
  end.

(** Lines 289-292: the merged stream hands over a bare [yield]. *)
Definition outer_loop_none (s : MapState) : MapState :=
  if have_all_inputs s && (num_outputs s =? num_inputs s)
  then set_engine Exited s
  else s.

(** Line 293. *)
Definition outer_loop_value (v : PyObj) (s : MapState) : MapState :=
  set_yielded (yielded s ++ [v]) s.

(** The merged stream ends when its three sources have ended. *)
Definition close_stream (s : MapState) : MapState :=
  match drain s, pump s, poll s with
  | DrainDone, PumpDone, PollDone => set_engine Exited s
  | _, _, _ => s
  end.

Definition is_running (s : MapState) : bool :=
  match engine s with Running => true | _ => false end.

(** [drain_input_generator], lines 213-222. *)
Definition run_drain (a : MapArgs) (s : MapState) : MapState :=
  match drain s with
  | DrainLoop =>
      match input_stream s with
      | arg :: rest =>
          match _create_input arg (map_kwargs a) (Some (num_inputs s)) with
          | Done item =>
              set_input_queue (input_queue s ++ [Some item])
                (set_num_inputs (num_inputs s + 1) (set_input_stream rest s))
          | Raise e => set_drain (DrainRaised e) s
          | Pending => s
          end
      | [] => set_drain DrainYield (set_input_queue (input_queue s ++ [None]) s)
      end
  | _ => s
  end.

Definition deliver_drain (s : MapState) : MapState :=
  match drain s with
  | DrainYield =>
      let s := outer_loop_none s in
      if is_running s then close_stream (set_drain DrainDone s) else s
  | DrainRaised e => set_engine (Failed e) s
  | _ => s
  end.

(** [pump_inputs], lines 224-239. *)
Definition run_pump (a : MapArgs) (s : MapState) : MapState :=
  match pump s with
  | PumpNext =>
      match input_queue s with
      | [] => s
      | x :: q =>
          let s := set_input_queue q s in
          match queue_batch_iterator MAP_INVOCATION_CHUNK_SIZE (batch s) x with
          | BatchMore b => set_batch b s
          | BatchYield items => set_pump (PumpSend items false) (set_batch [] s)
          | BatchLast items => set_pump (PumpSend items true) (set_batch [] s)
          | BatchStop => set_pump PumpAllIn s
          end
      end
  | PumpSend items last =>
      match FunctionPutInputs (map_function_id a) items (call_id s) put_policy (world s) with
      | (Done _, w) => set_pump (if last then PumpAllIn else PumpNext) (set_world w s)
      | (Raise e, w) => set_pump (PumpRaised e) (set_world w s)
      | (Pending, _) => s
      end
  | PumpAllIn => set_pump PumpYield (set_have_all_inputs true s)
  | _ => s
  end.

Definition deliver_pump (s : MapState) : MapState :=
  match pump s with
  | PumpYield =>
      let s := outer_loop_none s in
      if is_running s then close_stream (set_pump PumpDone s) else s
  | PumpRaised e => set_engine (Failed e) s
  | _ => s
  end.

(** Lines 276-281: the exit test of the poll loop and the assertion after it. *)
Definition exit_check (s : MapState) : poll_state :=
  if have_all_inputs s then
    if negb (num_outputs s <=? num_inputs s) then PollRaised AssertionError
    else if num_outputs s =? num_inputs s then
      if size (pending_outputs s) =? 0 then PollDone else PollRaised AssertionError
    else PollCall
  else PollCall.

(** [poll_outputs], lines 241-281. *)
Definition run_poll (a : MapArgs) (s : MapState) : MapState :=
  match poll s with
  | PollCall =>
      match FunctionGetOutputs (call_id s) 60 true poll_policy (world s) with
      | (Done outputs, w) => set_poll (PollFor outputs) (set_world w s)
      | (Raise e, w) => set_poll (PollRaised e) (set_world w s)
      | (Pending, _) => s
      end
  | PollFor [] => set_poll PollWhile s
  | PollFor (item :: rest) =>
      if map_is_generator a then
        if bool_decide (gen_status (result item) = GENERATOR_STATUS_COMPLETE)
        then set_poll (PollFor rest) (set_num_outputs (num_outputs s + 1) s)
        else
          match _process_result (result item) with
          | Done output => set_poll (PollForYield output rest) s
          | Raise e => set_poll (PollRaised e) s
          | Pending => s
          end
      else
        match _process_result (result item) with
        | Done output =>
            set_poll (PollFor rest)
              (set_pending_outputs (<[item_idx item := output]> (pending_outputs s)) s)
        | Raise e => set_poll (PollRaised e) s
        | Pending => s
        end
  | PollWhile =>
      match pending_outputs s !! num_outputs s with
      | Some output =>
          set_poll (PollWhileYield output)
            (set_pending_outputs (delete (num_outputs s) (pending_outputs s)) s)
      | None => close_stream (set_poll (exit_check s) s)
      end
  | PollIncr => set_poll PollWhile (set_num_outputs (num_outputs s + 1) s)
  | _ => s
  end.

Definition deliver_poll (s : MapState) : MapState :=
  match poll s with
  | PollForYield v rest => set_poll (PollFor rest) (outer_loop_value v s)
  | PollWhileYield v => set_poll PollIncr (outer_loop_value v s)
  | PollRaised e => set_engine (Failed e) s
  | _ => s
  end.

(** Lines 202-211: the call is opened before any task starts. *)
Definition start (a : MapArgs) (s : MapState) : MapState :=
  match FunctionMap (map_function_id a) default_policy (world s) with
  | (Done id, w) => set_engine Running (set_call_id id (set_world w s))
  | (Raise e, w) => set_engine (Failed e) (set_world w s)
  | (Pending, _) => s
  end.

Definition step (a : MapArgs) (s : MapState) (e : event) : MapState :=
  match engine s with
  | Starting => start a s
  | Running =>
      match e with
      | Run Drain => run_drain a s
      | Run Pump => run_pump a s
      | Run Poll => run_poll a s
      | Deliver Drain => deliver_drain s
      | Deliver Pump => deliver_pump s
      | Deliver Poll => deliver_poll s
      end
  | _ => s
  end.

(** [map_invocation(function_id, input_stream, kwargs, client, is_generator)]
    before its first step. *)
Definition map_invocation (source : list PyObj) (w : World) : MapState :=
  {| world := w; call_id := ""; have_all_inputs := false; num_outputs := 0;
     num_inputs := 0; input_queue := []; input_stream := source;
     drain := DrainLoop; batch := []; pump := PumpNext; pending_outputs := ∅;
     poll := PollCall; yielded := []; engine := Starting |}.

Definition run (a : MapArgs) (s : MapState) (events : list event) : MapState :=
  fold_left (step a) events s.

(** *** Vocabulary of the contract of [get_items] *)

(** Time left at [now] for a call made at [t0] with [timeout]. *)
Definition remaining (t0 tmo now : Q) : Q := (t0 + tmo - now)%Q.

(** The [backend_timeout] the contract asks of poll number [j] (from 0) of a
    [get_items(timeout)] entered in world [w]: min(60 s, remaining).  Before
    the first poll all of the timeout remains; poll [j] follows reading
    number [readings w + j] of the clock. *)
Definition contract_backend_timeout (timeout : option Q) (w : World) (j : nat) : Q :=
  match timeout with
  | None => 60%Q
  | Some tmo =>
      match j with
      | O => Qmin 60 tmo
      | S _ => Qmin 60 (remaining (clock w (readings w)) tmo (clock w (readings w + j)))
      end
  end.

(** A response without outputs. *)
Definition empty_reply : fallible (list FunctionGetOutputsItem) := Returns [].

(** The [backend_timeout] of poll number [j] of the loop of [get_items]
    entered with [bt] in world [w]. *)
Definition loop_timeout (timeout : option Q) (t0 bt : Q) (w : World) (j : nat) : Q :=
  match j, timeout with
  | S j', Some tmo => Qmin 60 (t0 + tmo - clock w (readings w + j'))
  | _, _ => bt
  end.

(** The results a run of responses brings, in arrival order. *)
Definition stream_of (responses : list (list FunctionGetOutputsItem)) : list GenericResult :=
  concat (map (map result) responses).

(** The retry policy the spec asks of a logged call: PutInputs retries
    without limit and also on RESOURCE_EXHAUSTED, FunctionMap keeps the
    default. *)
Definition policy_ok (c : RpcCall) : Prop :=
  match request c with
  | FunctionPutInputsRequest _ _ _ =>
      max_retries (policy c) = None
      ∧ RESOURCE_EXHAUSTED ∈ additional_status_codes (policy c)
  | FunctionMapRequest _ => policy c = default_policy
  | FunctionGetOutputsRequest _ _ _ => True
  end.

(** *** Vocabulary of the invariants of the map engine *)

(** The calls an engine started in world [w0] has made, and the output
    items they brought back, in arrival order. *)
Definition engine_calls (w0 : World) (s : MapState) : list RpcCall :=
  drop (length (calls w0)) (calls (world s)).

Definition received_by (made : list RpcCall) : list FunctionGetOutputsItem :=
  concat (map outputs_of made).

Definition engine_received (w0 : World) (s : MapState) : list FunctionGetOutputsItem :=
  received_by (engine_calls w0 s).

(** The bound the spec puts on the batch of a PutInputs call. *)
Definition batch_ok (c : RpcCall) : Prop :=
  match request c with
  | FunctionPutInputsRequest _ inputs _ =>
      1 ≤ length inputs ≤ MAP_INVOCATION_CHUNK_SIZE
  | _ => True
  end.

(** The pump has taken the sentinel off the queue. *)
Definition past_sentinel (p : pump_state) : Prop :=
  match p with
  | PumpSend _ last => last = true
  | PumpAllIn | PumpYield | PumpDone => True
  | PumpNext | PumpRaised _ => False
  end.

(** The exit condition of lines 278 and 290. *)
Definition all_outputs_in (s : MapState) : Prop :=
  have_all_inputs s = true ∧ num_outputs s = num_inputs s.

(** [v] is the decoded result of an item of [R] with index [i]. *)
Definition result_in (R : list FunctionGetOutputsItem) (i : nat) (v : PyObj) : Prop :=
  ∃ item, item ∈ R ∧ item_idx item = i ∧ _process_result (result item) = Done v.

(** The batches and the call log. *)
Definition inv_log (w0 : World) (s : MapState) : Prop :=
  length (batch s) < MAP_INVOCATION_CHUNK_SIZE
  ∧ (∀ items last, pump s = PumpSend items last →
       1 ≤ length items ≤ MAP_INVOCATION_CHUNK_SIZE)
  ∧ ∃ made, calls (world s) = calls w0 ++ made
      ∧ Forall policy_ok made ∧ Forall batch_ok made.

(** The inputs: [n] is the length of the source. *)
Definition inv_inputs (n : nat) (s : MapState) : Prop :=
  num_inputs s + length (input_stream s) = n
  ∧ (None ∈ input_queue s → input_stream s = [])
  ∧ (past_sentinel (pump s) → input_stream s = [])
  ∧ (have_all_inputs s = true → input_stream s = []).

(** The two ways out. *)
Definition inv_exit (s : MapState) : Prop :=
  (poll s = PollDone → all_outputs_in s ∧ pending_outputs s = ∅)
  ∧ (engine s = Exited → all_outputs_in s).

(** Reordering, when the function is no generator. *)
Definition inv_reorder (w0 : World) (s : MapState) : Prop :=
  ∃ made, calls (world s) = calls w0 ++ made ∧
    let R := received_by made in
    (∀ items, poll s = PollFor items → ∀ item, item ∈ items → item ∈ R)
    ∧ (∀ k v, pending_outputs s !! k = Some v → result_in R k v)
    ∧ (∀ v, poll s = PollWhileYield v → result_in R (num_outputs s) v)
    ∧ (∀ i v, yielded s !! i = Some v → result_in R i v)
    ∧ length (yielded s)
      = num_outputs s + match poll s with PollIncr => 1 | _ => 0 end
    ∧ (∀ v items, poll s ≠ PollForYield v items).

(** The indices the poll loop has taken out of [pending_outputs] so far are
    [0 .. popped s - 1]. *)
Definition popped (s : MapState) : nat :=
  num_outputs s + match poll s with PollWhileYield _ | PollIncr => 1 | _ => 0 end.

(** The items of the last response the [for] loop has still to look at. *)
Definition unprocessed (s : MapState) : list FunctionGetOutputsItem :=
  match poll s with PollFor items | PollForYield _ items => items | _ => [] end.

(** Every index taken out, every index waiting in [pending_outputs] and
    every index not yet looked at was received, each as often as it occurs
    here. *)
Definition inv_unique (w0 : World) (s : MapState) : Prop :=
  ∃ made, calls (world s) = calls w0 ++ made ∧
    (seq 0 (popped s) ++ elements (dom (pending_outputs s)))
      ++ map item_idx (unprocessed s)
    ⊆+ map item_idx (received_by made).


(** The completion markers among some items. *)
Definition is_marker (item : FunctionGetOutputsItem) : bool :=
  bool_decide (gen_status (result item) = GENERATOR_STATUS_COMPLETE).

Fixpoint markers (items : list FunctionGetOutputsItem) : nat :=
  match items with
  | [] => 0
  | item :: rest => (if is_marker item then 1 else 0) + markers rest
  end.

(** Counting, when the function is a generator: nothing is ever stored or
    taken out of [pending_outputs], and [num_outputs] counts markers that
    were received. *)
Definition inv_markers (w0 : World) (s : MapState) : Prop :=
  pending_outputs s = ∅ ∧ popped s = num_outputs s
  ∧ ∃ made, calls (world s) = calls w0 ++ made
      ∧ num_outputs s + markers (unprocessed s) ≤ markers (received_by made).


(** The inputs a logged call submitted, the inputs the pump is about to
    submit, and the inputs waiting in the queue. *)
Definition sent_inputs (c : RpcCall) : list FunctionPutInputsItem :=
  match request c with
  | FunctionPutInputsRequest _ inputs _ => inputs
  | _ => []
  end.

Definition in_flight (p : pump_state) : list FunctionPutInputsItem :=
  match p with PumpSend items _ => items | _ => [] end.

Definition queued (q : list (option FunctionPutInputsItem)) : list FunctionPutInputsItem :=
  omap id q.

(** Every input encoded so far, in the order of encoding. *)
Definition encoded (made : list RpcCall) (s : MapState) : list FunctionPutInputsItem :=
  concat (map sent_inputs made) ++ in_flight (pump s) ++ batch s ++ queued (input_queue s).

(** [item] is argument number [i] of the source, encoded with index [i]. *)
Definition encodes (a : MapArgs) (source : list PyObj) (i : nat)
    (item : FunctionPutInputsItem) : Prop :=
  idx item = Some i
  ∧ ∃ arg, source !! i = Some arg
           ∧ _create_input arg (map_kwargs a) (Some i) = Done item.

(** The indices: [num_inputs] arguments of the source have been encoded, one
    after the other and each with its position as index. *)
Definition inv_indices (a : MapArgs) (source : list PyObj) (w0 : World) (s : MapState)
  : Prop :=
  input_stream s = drop (num_inputs s) source
  ∧ ∃ made, calls (world s) = calls w0 ++ made
      ∧ Forall2 (encodes a source) (seq 0 (num_inputs s)) (encoded made s).

(** The sentinel is the last thing in the queue, and once the pump has
    taken it nothing is left to submit but what is in flight. *)
Definition inv_sentinel (s : MapState) : Prop :=
  (drain s = DrainLoop → None ∉ input_queue s)
  ∧ (∀ q1 q2, input_queue s = q1 ++ None :: q2 → q2 = [])
  ∧ (past_sentinel (pump s) →
       input_queue s = [] ∧ batch s = [] ∧ drain s ≠ DrainLoop)
  ∧ (have_all_inputs s = true → pump s = PumpYield ∨ pump s = PumpDone).


(** *** The rest of the call API of [_Function] *)

Definition app_is_not_running : string :=
  "App is not running. You might need to put the function call inside a `with stub.run():` block.".

(** [call_function] (lines 557-561). *)
Definition call_function (proc : Process) (self : _Function) (args kwargs : PyObj)
  : M PyObj :=
  let* context := pure_call (_get_context proc self) in
  let '(client, object_id) := context in
  let* invocation := Invocation_create object_id args kwargs client in
  run_function invocation.

(** [call_generator] (lines 569-574): what it yields and how it ends. *)
Definition call_generator (proc : Process) (self : _Function) (args kwargs : PyObj)
  : World → (list PyObj * out unit) * World :=
  λ w, match (let* context := pure_call (_get_context proc self) in
              let '(client, object_id) := context in
              Invocation_create object_id args kwargs client) w with
       | (Done invocation, w') => run_generator invocation w'
       | (Raise e, w') => (([], Raise e), w')
       | (Pending, w') => (([], Pending), w')
       end.

(** [enqueue] (lines 587-596).  The deprecation warning goes to the
    [warnings] module, which is no part of the world. *)
Definition enqueue (proc : Process) (self : _Function) (args kwargs : PyObj) : M unit :=
  if _is_generator self then
    let* _ := call_generator_nowait proc self args kwargs in
    ret tt
  else
    let* _ := call_function_nowait proc self args kwargs in
    ret tt.

(** [_map] (lines 503-506), up to the call of [map_invocation]: the
    arguments the engine is entered with.  A [function_id] of [None] is an
    unset field of the request, which reads as the empty string. *)
Definition _map (proc : Process) (self : _Function) (kwargs : PyObj) : out MapArgs :=
  bind_outcome (_get_context proc self) (λ context,
    let '(client, object_id) := context in
    Done {| map_function_id := default "" object_id; map_kwargs := kwargs;
            map_is_generator := _is_generator self |}).

(** [starmap] (lines 539-555): the state of the engine after a schedule. *)
Definition starmap (proc : Process) (self : _Function) (input_iterator : list PyObj)
    (kwargs : PyObj) (w : World) (events : list event) : out MapState :=
  bind_outcome (_map proc self kwargs) (λ a,
    Done (run a (map_invocation input_iterator w) events)).

(** The payload of a record, as a result would carry it. *)
Definition carried (i : FunctionInput) : data_oneof :=
  match args i, args_blob_id i with
  | Some b, _ => data b
  | None, Some id => data_blob_id id
  | None, None => data_unset
  end.

(** *** Vocabulary of the protocol of the map engine *)

(** A call an engine with call id [id] makes once the call is open: a batch
    for this function and this call, or a poll of this call (lines 248-256). *)
Definition call_of (a : MapArgs) (id : string) (c : RpcCall) : Prop :=
  match request c with
  | FunctionMapRequest _ => False
  | FunctionPutInputsRequest function_id _ function_call_id =>
      function_id = map_function_id a ∧ function_call_id = id ∧ policy c = put_policy
  | FunctionGetOutputsRequest function_call_id timeout return_empty_on_timeout =>
      function_call_id = id ∧ timeout = 60%Q ∧ return_empty_on_timeout = true
      ∧ policy c = poll_policy
  end.

(** The FunctionMap call of line 203 and its reply. *)
Definition map_call (a : MapArgs) (r : fallible string) : RpcCall :=
  {| request := FunctionMapRequest (map_function_id a); policy := default_policy;
     reply := fmap_fallible FunctionMapResponse r |}.

(** The log of an engine: nothing before the first step; then the
    FunctionMap call, alone if it failed, and else followed by calls that
    carry the id it returned. *)
Definition inv_protocol (a : MapArgs) (source : list PyObj) (w0 : World) (s : MapState)
  : Prop :=
  ∃ made, calls (world s) = calls w0 ++ made ∧
    ((engine s = Starting ∧ made = []
        ∧ yielded s = [] ∧ input_stream s = source ∧ num_inputs s = 0)
     ∨ (∃ str, engine s = Failed (Foreign str) ∧ made = [map_call a (Throws str)]
          ∧ yielded s = [] ∧ input_stream s = source ∧ num_inputs s = 0)
     ∨ (engine s ≠ Starting
        ∧ ∃ rest, made = map_call a (Returns (call_id s)) :: rest
            ∧ Forall (call_of a (call_id s)) rest)).

(** [item] decodes to [v]. *)
Definition decodes (item : FunctionGetOutputsItem) (v : PyObj) : Prop :=
  _process_result (result item) = Done v.

(** The items that are no completion markers. *)
Definition values_of (items : list FunctionGetOutputsItem) : list FunctionGetOutputsItem :=
  filter (λ item, is_marker item = false) items.

(** The value the poll task is suspended on at line 265. *)
Definition awaiting (p : poll_state) : list PyObj :=
  match p with PollForYield v _ => [v] | _ => [] end.

(** The poll task is in its loop. *)
Definition polling (p : poll_state) : Prop :=
  match p with PollDone | PollRaised _ => False | _ => True end.

(** Streaming, when the function is a generator: the items received are
    those the [for] loop is through with, the one whose value is being
    handed over, and the rest; the values yielded are those of the first,
    in order, and [num_outputs] counts their markers. *)
Definition inv_stream (w0 : World) (s : MapState) : Prop :=
  pending_outputs s = ∅ ∧ popped s = num_outputs s
  ∧ ∃ made seen held rest,
      calls (world s) = calls w0 ++ made
      ∧ received_by made = seen ++ held ++ rest
      ∧ (polling (poll s) → rest = unprocessed s)
      ∧ Forall2 decodes held (awaiting (poll s))
      ∧ Forall (λ item, is_marker item = false) held
      ∧ Forall2 decodes (values_of seen) (yielded s)
      ∧ num_outputs s = markers seen.

(** What makes a map fail, and where it comes from: the error that a call
    in the log ended with; the error of the blob store for an argument of
    the source that is too large to go inline; a failed assertion (lines
    277 and 281); or the error that decoding a received result raises.  The
    input stream is the list of its arguments and [serialize] is a total
    function here: what the iterator of the caller or the codec may raise
    while the inputs are read is not modelled. *)
Definition failure_of (a : MapArgs) (source : list PyObj) (made : list RpcCall)
    (e : exn PyObj) : Prop :=
  (∃ c str, c ∈ made ∧ reply c = Throws str ∧ e = Foreign str)
  ∨ (∃ arg str, arg ∈ source
       ∧ MAX_OBJECT_SIZE_BYTES < length (serialize arg (map_kwargs a))
       ∧ blob_upload (serialize arg (map_kwargs a)) = Throws str ∧ e = Foreign str)
  ∨ e = AssertionError
  ∨ ∃ item, item ∈ received_by made ∧ _process_result (result item) = Raise e.

Definition inv_failure (a : MapArgs) (source : list PyObj) (w0 : World) (s : MapState)
  : Prop :=
  ∃ made, calls (world s) = calls w0 ++ made
    ∧ (∀ item, item ∈ unprocessed s → item ∈ received_by made)
    ∧ (∀ arg, arg ∈ input_stream s → arg ∈ source)
    ∧ (∀ e, drain s = DrainRaised e → failure_of a source made e)
    ∧ (∀ e, pump s = PumpRaised e → failure_of a source made e)
    ∧ (∀ e, poll s = PollRaised e → failure_of a source made e)
    ∧ (∀ e, engine s = Failed e → failure_of a source made e).

(** *** Making a function ([_Function.__init__], lines 306-363) *)

(** [FunctionInfo] is defined in modal/_function_utils.py, which is not
    among the sources; [__init__] constructs one and calls two of its
    methods.  They are taken as they are used, as calls that return or
    raise: what [is_nullary()] and [get_tag()] do on an instance are the
    fields of the instance, and what the constructor does on [raw_f] is a
    field of the argument. *)
Record FunctionInfo := {
  is_nullary : fallible bool;
  get_tag : fallible string;
}.

(** A candidate for [raw_f], by what is observed of it: [callable(raw_f)],
    its text in an f-string, and what [FunctionInfo(raw_f, serialized)]
    does. *)
Record RawF := {
  callable : bool;
  raw_f_text : string;
  function_info : bool → fallible FunctionInfo;
}.

(** A value given as [retries]: an instance of [int] (a [bool] is one), or
    something else. *)
Inductive Retries :=
| retries_int (n : Z)
| retries_other (o : PyObj).

(** The arguments of [__init__]; [secret], being an object, is true when it
    is given, and [secrets], a collection, when it is not empty. *)
Record FunctionArgs := {
  raw_f : RawF;
  image : option PyObj;
  secret : option PyObj;
  secrets : list PyObj;
  schedule : option PyObj;
  is_generator : bool;
  gpu : bool;
  rate_limit : option PyObj;
  serialized : bool;
  mounts : list PyObj;
  shared_volumes : PyObj;
  webhook_config : option PyObj;
  memory : option Z;
  proxy : option PyObj;
  retries : option Retries;
  concurrency_limit : option Z;
}.

(** The attributes [__init__] sets beside those of [_Function] above. *)
Record FunctionAttrs := {
  _info : FunctionInfo;
  _raw_f : RawF;
  _image : option PyObj;
  _secrets : list PyObj;
  _schedule : option PyObj;
  _gpu : bool;
  _rate_limit : option PyObj;
  _mounts : list PyObj;
  _shared_volumes : PyObj;
  _webhook_config : option PyObj;
  _web_url : option string;
  _memory : option Z;
  _proxy : option PyObj;
  _retries : option Retries;
  _concurrency_limit : option Z;
  _local_object_id : option string;
}.

Definition needs_no_arguments (f : RawF) : string :=
  "Function " +:+ raw_f_text f
  +:+ " has a schedule, so it needs to support calling it with no arguments".

Definition both_secret_and_secrets (f : RawF) : string :=
  "Function " +:+ raw_f_text f
  +:+ " has both singular `secret` and plural `secrets` attached".

Definition retries_out_of_range (f : RawF) : string :=
  "Function " +:+ raw_f_text f +:+ " retries must be an integer between 0 and 10.".

(** Line 345: [not isinstance(retries, int) or retries < 0 or retries > 10]. *)
Definition bad_retries (r : Retries) : bool :=
  match r with
  | retries_int n => (n <? 0)%Z || (10 <? n)%Z
  | retries_other _ => true
  end.

(** Lines 329-333: [is_nullary()] is asked only of a function with a
    schedule. *)
Definition check_schedule (args : FunctionArgs) (info : FunctionInfo) : out unit :=
  match schedule args with
  | Some _ =>
      bind_outcome (lift (is_nullary info)) (λ nullary,
        if negb nullary then Raise (InvalidError (needs_no_arguments (raw_f args)))
        else Done tt)
  | None => Done tt
  end.

Definition Function_init (args : FunctionArgs) : out (_Function * FunctionAttrs) :=
  if negb (callable (raw_f args)) then Raise AssertionError
  else
    bind_outcome (lift (function_info (raw_f args) (serialized args))) (λ info,
    bind_outcome (check_schedule args info) (λ _,
    if bool_decide (is_Some (secret args)) && negb (bool_decide (secrets args = []))
    then Raise (InvalidError (both_secret_and_secrets (raw_f args)))
    else
      let secrets :=
        match secret args with
        | Some secret => [secret]
        | None => secrets args
        end in
      if match retries args with Some r => bad_retries r | None => false end
      then Raise (InvalidError (retries_out_of_range (raw_f args)))
      else
        bind_outcome (lift (get_tag info)) (λ tag,
        Done ({| base := {| _client := None; _object_id := None |};
                 _is_generator := is_generator args;
                 _local_app := None;
                 _tag := tag |},
              {| _info := info; _raw_f := raw_f args; _image := image args;
                 _secrets := secrets; _schedule := schedule args; _gpu := gpu args;
                 _rate_limit := rate_limit args; _mounts := mounts args;
                 _shared_volumes := shared_volumes args;
                 _webhook_config := webhook_config args; _web_url := None;
                 _memory := memory args; _proxy := proxy args;
                 _retries := retries args;
                 _concurrency_limit := concurrency_limit args;
                 _local_object_id := None |})))).

(** [set_local_app] (lines 475-477). *)
Definition set_local_app (app : App) (self : _Function) : _Function :=
  {| base := base self; _is_generator := _is_generator self;
     _local_app := Some app; _tag := _tag self |}.

(** What [__init__] asks of its arguments and of [FunctionInfo]. *)
Definition valid_function_args (args : FunctionArgs) (info : FunctionInfo)
    (tag : string) : Prop :=
  callable (raw_f args) = true
  ∧ function_info (raw_f args) (serialized args) = Returns info
  ∧ (schedule args = None ∨ is_nullary info = Returns true)
  ∧ (secret args = None ∨ secrets args = [])
  ∧ (retries args = None
     ∨ ∃ n, retries args = Some (retries_int n) ∧ (0 ≤ n ≤ 10)%Z)
  ∧ get_tag info = Returns tag.

(** The calls of [__init__] into [FunctionInfo], in the order it makes them,
    that fail with [str]. *)
Definition function_info_fails (args : FunctionArgs) (str : string) : Prop :=
  function_info (raw_f args) (serialized args) = Throws str
  ∨ ∃ info, function_info (raw_f args) (serialized args) = Returns info
      ∧ ((is_Some (schedule args) ∧ is_nullary info = Throws str)
         ∨ get_tag info = Throws str).

(** *** A run to the end

    A server that answers the inputs one by one and in turn, and a schedule
    that lets the drain task finish, then the pump task, and then the poll
    task take one response after the other. *)

Definition answers (results : list GenericResult)
  : list (fallible (list FunctionGetOutputsItem)) :=
  imap (λ i r, Returns [{| item_idx := i; result := r |}]) results.

(** One round of the poll task: the call, the item, the end of the [for]
    loop, the output found in [pending_outputs] and handed over, the
    counter, and the exit test. *)
Definition poll_round : list event :=
  [Run Poll; Run Poll; Run Poll; Run Poll; Deliver Poll; Run Poll; Run Poll].

Definition in_sequence (n : nat) : list event :=
  [Run Drain] ++ repeat (Run Drain) (S n) ++ repeat (Run Pump) (2 * n + 4)
  ++ concat (repeat poll_round n) ++ [Deliver Pump].

(** A running engine, by its fields. *)
Definition running (id : string) (w : World) (all_in : bool) (n_out n_in : nat)
    (queue : list (option FunctionPutInputsItem)) (stream : list PyObj)
    (d : drain_state) (b : list FunctionPutInputsItem) (p : pump_state)
    (pending : gmap nat PyObj) (q : poll_state) (ys : list PyObj) : MapState :=
  {| world := w; call_id := id; have_all_inputs := all_in; num_outputs := n_out;
     num_inputs := n_in; input_queue := queue; input_stream := stream; drain := d;
     batch := b; pump := p; pending_outputs := pending; poll := q; yielded := ys;
     engine := Running |}.

(** The steps the pump task is from its last [yield], at most. *)
Definition pump_steps (queue : list (option FunctionPutInputsItem)) (p : pump_state) : nat :=
  2 * length queue
  + match p with
    | PumpSend _ _ => 3
    | PumpNext => 2
    | PumpAllIn => 1
    | _ => 0
    end.

(** The pump task on its way: before the sentinel the queue ends with it,
    and after it nothing is left to take. *)
Definition pump_shape (queue : list (option FunctionPutInputsItem))
    (b : list FunctionPutInputsItem) (p : pump_state) (all_in : bool) : Prop :=
  match p with
  | PumpNext | PumpSend _ false =>
      all_in = false ∧ ∃ items, queue = map Some items ++ [None]
  | PumpSend _ true | PumpAllIn => all_in = false ∧ queue = [] ∧ b = []
  | PumpYield => all_in = true ∧ queue = [] ∧ b = []
  | _ => False
  end.

End Engine.

(** ** Objects (modal/object.py) *)

(** [s.split(sep)], for a separator of one character. *)
Fixpoint split (sep : Ascii.ascii) (s : string) : list string :=
  match s with
  | EmptyString => [EmptyString]
  | String c s' =>
      if Ascii.eqb c sep then EmptyString :: split sep s'
      else
        match split sep s' with
        | part :: parts => String c part :: parts
        | [] => [String c EmptyString]
        end
  end.

(** How often [c] occurs in [s]. *)
Fixpoint occurrences (c : Ascii.ascii) (s : string) : nat :=
  match s with
  | EmptyString => 0
  | String x s' => (if Ascii.eqb x c then 1 else 0) + occurrences c s'
  end.

Definition dash : Ascii.ascii := Ascii.ascii_of_nat 45.

Section Objects.
Context `{Runtime}.

Definition has_no_dash (object_id : string) : string :=
  "Object id " +:+ object_id +:+ " has no dash in it".

Definition no_such_type (prefix : string) : string :=
  "Object prefix " +:+ prefix +:+ " does not correspond to a type".

(** [Object.from_id] (lines 24-34): the class found for the
    prefix, and the object made with [Object.__new__] and [Object.__init__].
    [prefix_to_type] is the table of [ObjectMeta]: the name of the class
    registered for each [type_prefix]. *)
Definition from_id (prefix_to_type : gmap string string) (object_id : string)
    (client : option Client) : outcome PyObj (string * Object) :=
  let parts := split dash object_id in
  if negb (length parts =? 2) then Raise (InvalidError (has_no_dash object_id))
  else
    let prefix := nth 0 parts EmptyString in
    match prefix_to_type !! prefix with
    | None => Raise (InvalidError (no_such_type prefix))
    | Some object_cls =>
        Done (object_cls, {| _client := client; _object_id := Some object_id |})
    end.

End Objects.

(** ** Line-buffered output (modal/_output.py) *)

Definition CR : Ascii.ascii := Ascii.ascii_of_nat 13.
Definition LF : Ascii.ascii := Ascii.ascii_of_nat 10.

(** [LINE_REGEX.split(s)] for [LINE_REGEX = re.compile("(\r\n|\r|\n)")]: the
    pattern is one group, so the result alternates the text between two
    line ends and the line end that follows it, and ends with the text
    after the last line end.  [\r\n] is tried before [\r]. *)
Fixpoint LINE_REGEX_split (s : string) : list string :=
  match s with
  | EmptyString => [EmptyString]
  | String c s' =>
      if Ascii.eqb c CR then
        match s' with
        | String c' s'' =>
            if Ascii.eqb c' LF
            then EmptyString :: String CR (String LF EmptyString) :: LINE_REGEX_split s''
            else EmptyString :: String CR EmptyString :: LINE_REGEX_split s'
        | EmptyString => EmptyString :: String CR EmptyString :: LINE_REGEX_split s'
        end
      else if Ascii.eqb c LF then
        EmptyString :: String LF EmptyString :: LINE_REGEX_split s'
      else
        match LINE_REGEX_split s' with
        | text :: chunks => String c text :: chunks
        | [] => [String c EmptyString]
        end
  end.

(** The buffer of a [LineBufferedOutput]. *)
Record LineBufferedOutput := {
  _buf : string;
}.

(** [write] (lines 40-51): the lines handed to the
    callback, in order, and the object afterwards. *)
Definition write (self : LineBufferedOutput) (data : string)
  : list string * LineBufferedOutput :=
  let chunks := LINE_REGEX_split (_buf self +:+ data) in
  (map (λ i, nth (2 * i) chunks EmptyString +:+ nth (2 * i + 1) chunks EmptyString)
       (seq 0 (length chunks / 2)),
   {| _buf := List.last chunks EmptyString |}).

(** [finalize]. *)
Definition finalize (self : LineBufferedOutput) : list string * LineBufferedOutput :=
  if negb (String.eqb (_buf self) EmptyString)
  then ([_buf self], {| _buf := EmptyString |})
  else ([], self).

(** A stream that is written to, piece by piece: the lines the callback has
    been handed, and the object. *)
Definition write_all (self : LineBufferedOutput) (pieces : list string)
  : list string * LineBufferedOutput :=
  fold_left (λ st data, let '(lines, self') := write st.2 data in (st.1 ++ lines, self'))
    pieces ([], self).

(** The text of some lines, one after the other. *)
Definition text_of (lines : list string) : string :=
  fold_right String.append EmptyString lines.

(** [c] is the end of a line, or part of one. *)
Definition is_line_end (c : Ascii.ascii) : bool := Ascii.eqb c CR || Ascii.eqb c LF.

(** No character of [s] is part of a line end. *)
Fixpoint one_line (s : string) : bool :=
  match s with
  | EmptyString => true
  | String c s' => negb (is_line_end c) && one_line s'
  end.

(** The chunks of a split taken two by two: each text with the line end
    that follows it, and the text that is left over. *)
Fixpoint pairs (chunks : list string) : list string * string :=
  match chunks with
  | text :: sep :: rest =>
      let '(lines, rest') := pairs rest in ((text +:+ sep) :: lines, rest')
  | [text] => ([], text)
  | [] => ([], EmptyString)
  end.

(** The complete lines of a text, and what follows the last of them. *)
Definition lines_of (s : string) : list string * string := pairs (LINE_REGEX_split s).

(** The three line ends. *)
Definition line_ends : list string :=
  [String CR (String LF EmptyString); String CR EmptyString; String LF EmptyString].

(** A line as the callback gets it from [write]: a text without line ends
    and one line end. *)
Definition complete_line (line : string) : Prop :=
  ∃ text sep, line = text +:+ sep ∧ one_line text = true ∧ sep ∈ line_ends.

(** [s1] ends in the middle of a line end that [s2] goes on with. *)
Definition straddles (s1 s2 : string) : Prop :=
  ∃ x y, s1 = x +:+ String CR EmptyString ∧ s2 = String LF y.

(** ** Mounting a module (modal/_package_utils.py) *)

Definition dot : Ascii.ascii := Ascii.ascii_of_nat 46.
Definition slash : Ascii.ascii := Ascii.ascii_of_nat 47.

(** [s.endswith(t)] and [s.startswith(t)]. *)
Definition endswith (s t : string) : bool :=
  (String.length t <=? String.length s)
  && String.eqb (String.substring (String.length s - String.length t) (String.length t) s) t.

Definition startswith (s t : string) : bool := String.prefix t s.

(** [os.path.basename] and [os.path.dirname] of posixpath. *)
Definition basename (p : string) : string := List.last (split slash p) EmptyString.

(** [p[:p.rfind('/') + 1]] *)
Fixpoint head_of (p : string) : string :=
  match p with
  | EmptyString => EmptyString
  | String c p' => if 0 <? occurrences slash p then String c (head_of p') else EmptyString
  end.

(** [s.rstrip(c)] *)
Fixpoint rstrip (c : Ascii.ascii) (s : string) : string :=
  match s with
  | EmptyString => EmptyString
  | String x s' =>
      match rstrip c s' with
      | EmptyString => if Ascii.eqb x c then EmptyString else String x EmptyString
      | r => String x r
      end
  end.

Definition dirname (p : string) : string :=
  let head := head_of p in
  if negb (String.eqb head EmptyString)
     && negb (occurrences slash head =? String.length head)
  then rstrip slash head
  else head.

(** What [importlib_metadata.files(module)] does: it returns the paths of
    the files of the distribution, or [None] when the distribution does not
    list them, or raises [PackageNotFoundError]. *)
Inductive package_files :=
| package_files_are (paths : list string)
| package_lists_no_files
| package_not_found.

(** [get_file_formats] (lines 9-14).  The list it returns is made of a set:
    it has no order and no duplicates.  Iterating over [None] raises, and
    only [PackageNotFoundError] is caught. *)
Definition get_file_formats (files : package_files) : fallible (gset string) :=
  match files with
  | package_files_are paths =>
      Returns (list_to_set
                 (map (λ p, List.last (split dot p) EmptyString)
                      (filter (λ p, 0 < occurrences dot p) paths)))
  | package_lists_no_files => Throws "TypeError: 'NoneType' object is not iterable"
  | package_not_found => Returns ∅
  end.

(** [module_mount_condition] (lines 17-18). *)
Definition module_mount_condition (f : string) : bool :=
  negb (endswith f ".pyc" || startswith f ".").

Definition BINARY_FORMATS : list string := ["so"; "S"; "s"; "asm"].

(** An imported module: [getattr(m, "__path__", None)] and [m.__file__]. *)
Record PyModule := {
  __path__ : option (list string);
  __file__ : option string;
}.

Definition contains_binary (module : string) : string :=
  module +:+ " can't be mounted because it contains a binary file.".

(** [get_module_mount_info] (lines 24-39): the tuples (module, path,
    condition).  The message to the logger is no part of the result. *)
Definition get_module_mount_info (module : string) (files : package_files)
    (import_module : fallible PyModule)
  : fallible (list (string * string * (string → bool))) :=
  match get_file_formats files with
  | Throws e => Throws e
  | Returns file_formats =>
      if negb (bool_decide (list_to_set BINARY_FORMATS ∩ file_formats = (∅ : gset string)))
      then Throws (contains_binary module)
      else
        match import_module with
        | Throws e => Throws e
        | Returns m =>
            match __path__ m with
            | Some (path :: paths) =>
                Returns (map (λ path, (module, path, module_mount_condition)) (path :: paths))
            | _ =>
                match __file__ m with
                | None => Throws "the module has no __file__"
                | Some filename =>
                    Returns [(module, dirname filename,
                              λ f, String.eqb (basename f) (basename filename))]
                end
            end
        end
  end.

(** [path] ends with a dot and [ext]. *)
Definition has_extension (ext path : string) : Prop :=
  ∃ stem, path = stem +:+ String dot ext.

(** ** A small runtime for running the definitions

    Values are numbers pickled as one byte; arguments [n] serialize to [n]
    bytes; numbers from 200 on stand for exception objects. *)

Module Fixture.

#[export] Instance runtime : Runtime := {|
  PyObj := nat;
  Client := unit;
  serialize := λ args _, repeat Byte.x00 args;
  deserialize := λ b,
    match b with
    | [c] => Returns (Byte.to_nat c)
    | [] => Throws "EOFError: Ran out of input"
    | _ => Throws "UnpicklingError"
    end;
  isinstance_BaseException := λ n, 200 <=? n;
  type_repr := λ _, "<class 'int'>";
  blob_upload := λ _, Returns "bl-1";
  blob_download := λ id,
    if String.eqb id "bl-1" then Returns [Byte.x07] else Throws "NotFound";
  MAX_OBJECT_SIZE_BYTES := 4;
  default_policy :=
    {| max_retries := Some 3; base_delay := 1; additional_status_codes := [] |};
|}.

Definition success (payload : bytes) : GenericResult :=
  {| status := GENERIC_STATUS_SUCCESS; gen_status := GENERATOR_STATUS_UNSPECIFIED;
     result_data := data payload; exception := ""; traceback := "" |}.

Definition failure (payload : data_oneof) : GenericResult :=
  {| status := GENERIC_STATUS_FAILURE; gen_status := GENERATOR_STATUS_UNSPECIFIED;
     result_data := payload; exception := "Exception('Failure!')";
     traceback := "Traceback (most recent call last)" |}.

Definition complete : GenericResult :=
  {| status := GENERIC_STATUS_SUCCESS; gen_status := GENERATOR_STATUS_COMPLETE;
     result_data := data_unset; exception := ""; traceback := "" |}.

Definition output (i : nat) (b : Byte.byte) : FunctionGetOutputsItem :=
  {| item_idx := i; result := success [b] |}.

(** A clock that moves on by one second at every reading. *)
Definition ticking (n : nat) : Q := inject_Z (Z.of_nat n).

Definition server (gets : list (fallible (list FunctionGetOutputsItem))) : World :=
  {| map_script := [Returns "fc-1"]; put_script := [Returns (); Returns ()];
     get_script := gets; clock := ticking; readings := 0; calls := [] |}.

Definition invocation : Invocation := {| client := (); function_call_id := "fc-1" |}.

(** A world whose clock reads the same at every reading, and whose server
    answers the first poll with nothing and the second with a result. *)
Definition stalled : World :=
  {| map_script := []; put_script := [];
     get_script := [Returns []; Returns [output 0 Byte.x07]];
     clock := λ _, 5%Q; readings := 0; calls := [] |}.

(** A map over four inputs whose outputs come back in the order 2, 0, 3, 1,
    between empty responses. *)
Definition square_args : MapArgs :=
  {| map_function_id := "fu-1"; map_kwargs := 0; map_is_generator := false |}.

Definition four_inputs : list nat := [0; 1; 2; 3].

Definition out_of_order : World :=
  server [Returns [];
          Returns [output 2 Byte.x04; output 0 Byte.x00];
          Returns [];
          Returns [output 3 Byte.x09; output 1 Byte.x01]].

(** A fair schedule: every task is run and its item handed over, in turn. *)
Definition turn : list event :=
  [Run Drain; Run Pump; Run Poll; Deliver Drain; Deliver Pump; Deliver Poll].

Definition fair (n : nat) : list event := concat (repeat turn n).

(** A schedule on which the poll loop has seen every output before the pump
    has sent the inputs. *)
Definition pump_last : list event :=
  [Run Poll] ++ repeat (Run Drain) 5 ++ concat (repeat [Run Poll; Deliver Poll] 30)
  ++ repeat (Run Pump) 7 ++ [Deliver Pump].

(** A server that answers input 0 twice, and one that answers for an input
    that does not exist. *)
Definition answered_twice : World :=
  server [Returns [output 0 Byte.x03]; Returns [output 0 Byte.x09]].

Definition one_too_many : World :=
  server [Returns [output 0 Byte.x03; output 1 Byte.x09]].

(** A schedule on which the inputs are sent, and the [yield] of the pump
    handed over, before the first poll. *)
Definition pump_first : list event :=
  [Run Drain] ++ repeat (Run Drain) 2 ++ repeat (Run Pump) 4 ++ [Deliver Pump]
  ++ concat (repeat [Run Poll; Deliver Poll] 8).

(** The sizes of the batches of the PutInputs calls in a log. *)
Definition batch_sizes (log : list RpcCall) : list nat :=
  omap (λ c, match request c with
             | FunctionPutInputsRequest _ inputs _ => Some (length inputs)
             | _ => None
             end) log.

(** A server that accepts [n] batches and has no output yet. *)
Definition accepting (n : nat) : World :=
  {| map_script := [Returns "fc-1"]; put_script := repeat (Returns ()) n;
     get_script := []; clock := ticking; readings := 0; calls := [] |}.

(** A schedule that drains, then pumps: for [n] inputs. *)
Definition drain_then_pump (n : nat) : list event :=
  [Run Drain] ++ repeat (Run Drain) (S n) ++ repeat (Run Pump) (n + 10).

(** A function and a generator of a running local app. *)
Definition local_process : Process := {| is_local := true; _container_app := None |}.

Definition running_app : App :=
  {| app_client := (); app_objects := {[ "square" := Some "fu-1"; "count" := Some "fu-2" ]} |}.

Definition square : _Function :=
  {| base := {| _client := None; _object_id := None |}; _is_generator := false;
     _local_app := Some running_app; _tag := "square" |}.

Definition count : _Function :=
  {| base := {| _client := None; _object_id := None |}; _is_generator := true;
     _local_app := Some running_app; _tag := "count" |}.

(** A generator that yields 1, 2, 3 and completes. *)
Definition marker : FunctionGetOutputsItem := {| item_idx := 0; result := complete |}.

Definition three_values : list (list FunctionGetOutputsItem) :=
  [ []; [output 0 Byte.x01; output 0 Byte.x02]; [output 0 Byte.x03; marker; output 0 Byte.x04] ].

Definition generator_world : World :=
  server (map Returns three_values ++ [Returns [output 0 Byte.x05]]).


(** A runtime whose blob store gives back what was uploaded: a payload of
    [n] zero bytes is kept under an id of [n] characters. *)
Fixpoint blob_name (n : nat) : string :=
  match n with
  | O => EmptyString
  | S n => String (Ascii.ascii_of_nat 98) (blob_name n)
  end.

Definition blob_store : Runtime := {|
  PyObj := nat;
  Client := unit;
  serialize := λ args _, repeat Byte.x00 args;
  deserialize := λ b, Returns (length b);
  isinstance_BaseException := λ _, false;
  type_repr := λ _, "<class 'int'>";
  blob_upload := λ b, Returns (blob_name (length b));
  blob_download := λ id, Returns (repeat Byte.x00 (String.length id));
  MAX_OBJECT_SIZE_BYTES := 4;
  default_policy :=
    {| max_retries := Some 3; base_delay := 1; additional_status_codes := [] |};
|}.

(** A function that no app knows of. *)
Definition orphan : _Function :=
  {| base := {| _client := None; _object_id := None |}; _is_generator := false;
     _local_app := None; _tag := "orphan" |}.

(** A map over a generator: two values and the marker for input 0, one
    value and the marker for input 1, answered out of turn. *)
Definition count_args : MapArgs :=
  {| map_function_id := "fu-2"; map_kwargs := 0; map_is_generator := true |}.

Definition item (i : nat) (r : GenericResult) : FunctionGetOutputsItem :=
  {| item_idx := i; result := r |}.

Definition interleaved : World :=
  server [Returns [output 1 Byte.x0a; output 0 Byte.x01];
          Returns [];
          Returns [item 1 complete; output 0 Byte.x02; item 0 complete]].

(** A server that answers input 1 with a value that is no exception, as a
    failure. *)
Definition failing : World :=
  server [Returns [output 0 Byte.x00; item 1 (failure (data [Byte.x2a]))]].

(** The arguments of [_Function(square, schedule=..., secret=..., retries=3)]. *)
Definition square_f : RawF :=
  {| callable := true; raw_f_text := "<function square>";
     function_info := λ _,
       Returns {| is_nullary := Returns false; get_tag := Returns "square" |} |}.

Definition square_init : FunctionArgs :=
  {| raw_f := square_f; image := None; secret := Some 7; secrets := [];
     schedule := None; is_generator := false; gpu := false; rate_limit := None;
     serialized := false; mounts := []; shared_volumes := 0; webhook_config := None;
     memory := None; proxy := None; retries := Some (retries_int 3);
     concurrency_limit := None |}.

(** A server that accepts every batch and answers one result per poll, in
    the order of the inputs. *)
Definition answering (results : list GenericResult) : World :=
  {| map_script := [Returns "fc-1"]; put_script := repeat (Returns ()) (S (length results));
     get_script := answers results; clock := ticking; readings := 0; calls := [] |}.
End Fixture.

(** ** Strings *)

Lemma append_assoc (a b c : string) : (a +:+ b) +:+ c = a +:+ (b +:+ c).
Proof.
  induction a as [|x a IH]; [reflexivity|].
  change (String x ((a +:+ b) +:+ c) = String x (a +:+ (b +:+ c))).
  f_equal; exact IH.
Qed.

Lemma append_empty_r (a : string) : a +:+ "" = a.
Proof.
  induction a as [|x a IH]; [reflexivity|].
  change (String x (a +:+ "") = String x a). f_equal; exact IH.
Qed.

Lemma includes_suffix (p t : string) : includes t (p +:+ t).
Proof. exists p, ""%string. by rewrite append_empty_r. Qed.

Lemma includes_prefix (t q : string) : includes t (t +:+ q).
Proof. by exists ""%string, q. Qed.

Lemma includes_append_r (t p s : string) : includes t s → includes t (p +:+ s).
Proof.
  intros (a & b & ->). exists (p +:+ a), b. by rewrite append_assoc.
Qed.

Section Decoder.
Context `{Runtime}.

Lemma process_result_fetched (r : GenericResult) (payload : bytes) :
  fetch_data r = Done payload →
  _process_result r =
    if negb (bool_decide (status r = GENERIC_STATUS_SUCCESS)) then
      if truthy payload then
        match deserialize payload with
        | Throws deser_exc =>
            Raise (ExecutionError (could_not_deserialize deser_exc (traceback r)))
        | Returns exc =>
            if negb (isinstance_BaseException exc)
            then Raise (ExecutionError (incorrect_type exc))
            else Raise (Propagated exc)
        end
      else Raise (RemoteError (exception r))
    else lift (deserialize payload).
Proof. intros Hf. unfold _process_result. by rewrite Hf. Qed.

Lemma could_not_deserialize_traceback (deser_exc tb : string) :
  includes tb (could_not_deserialize deser_exc tb).
Proof.
  unfold could_not_deserialize.
  repeat (apply includes_append_r). exists ""%string, ""%string.
  by rewrite append_empty_r.
Qed.

(** C4: a failed result with a payload that cannot be decoded raises
    ExecutionError with the remote traceback in its message; a payload that
    decodes to something that is no exception raises ExecutionError about the
    incorrect type; a payload that decodes to an exception raises that
    exception; a failed result without payload bytes raises RemoteError with
    [result.exception]. *)
Theorem process_result_failure (r : GenericResult) (payload : bytes) :
  status r = GENERIC_STATUS_FAILURE →
  fetch_data r = Done payload →
  (payload ≠ [] →
     (∀ deser_exc, deserialize payload = Throws deser_exc →
        ∃ msg, _process_result r = Raise (ExecutionError msg)
               ∧ includes "Could not deserialize remote exception due to local error:" msg
               ∧ includes deser_exc msg
               ∧ includes (traceback r) msg)
     ∧ (∀ exc, deserialize payload = Returns exc →
          isinstance_BaseException exc = false →
          ∃ msg, _process_result r = Raise (ExecutionError msg)
                 ∧ includes "Got remote exception of incorrect type" msg
                 ∧ includes (type_repr exc) msg)
     ∧ (∀ exc, deserialize payload = Returns exc →
          isinstance_BaseException exc = true →
          _process_result r = Raise (Propagated exc)))
  ∧ (payload = [] → _process_result r = Raise (RemoteError (exception r))).
Proof.
  intros Hst Hf. rewrite (process_result_fetched r payload Hf), Hst.
  rewrite bool_decide_eq_false_2 by discriminate. simpl negb. cbv iota.
  split.
  - intros Hne. assert (truthy payload = true) as -> by (by destruct payload).
    split; [|split].
    + intros deser_exc ->. eexists. split; [reflexivity|].
      split; [apply includes_prefix|]. split.
      * unfold could_not_deserialize. apply includes_append_r, includes_append_r.
        apply includes_prefix.
      * apply could_not_deserialize_traceback.
    + intros exc -> ->. eexists. split; [reflexivity|]. split.
      * unfold incorrect_type.
        exists ""%string, (" " +:+ type_repr exc). reflexivity.
      * apply includes_suffix.
    + by intros exc -> ->.
  - by intros ->.
Qed.

(** C2: the record built by the encoder carries exactly one payload: above
    the size limit the blob id returned by the upload and no inline bytes
    (and the record is built whenever the upload succeeds), at or below the
    limit the serialized bytes and no blob id. *)
Theorem create_input_one_payload (a kw : PyObj) (idx : option nat) :
  let s := length (serialize a kw) in
  (s > MAX_OBJECT_SIZE_BYTES →
     (∀ item, _create_input a kw idx = Done item →
        ∃ id, blob_upload (serialize a kw) = Returns id
              ∧ args_blob_id (input item) = Some id ∧ args (input item) = None)
     ∧ (∀ id, blob_upload (serialize a kw) = Returns id →
          _create_input a kw idx =
            Done {| input := {| args := None; args_blob_id := Some id |}; idx := idx |}))
  ∧ (s ≤ MAX_OBJECT_SIZE_BYTES →
       ∃ item, _create_input a kw idx = Done item
               ∧ args (input item) = Some (serialize a kw)
               ∧ args_blob_id (input item) = None)
  ∧ (∀ item, _create_input a kw idx = Done item →
       xorb (has_inline_bytes (input item)) (has_blob_id (input item)) = true).
Proof.
  intros s. subst s. unfold _create_input.
  destruct (Nat.ltb_spec MAX_OBJECT_SIZE_BYTES (length (serialize a kw))) as [Hgt|Hle].
  - split; [|split]; [intros _|intros ?; lia|].
    + split.
      * intros item. destruct (blob_upload _) as [id|e]; simpl; [|discriminate].
        intros [= <-]. by exists id.
      * by intros id ->.
    + intros item. destruct (blob_upload _) as [id|e]; simpl; [|discriminate].
      by intros [= <-].
  - split; [|split]; [intros ?; lia|intros _|].
    + eexists. split; [reflexivity|]. done.
    + by intros item [= <-].
Qed.

End Decoder.
Section Polling.
Context `{Runtime}.
Variable self : Invocation.

(** The [backend_timeout] of poll [j] of a loop entered with [bt] in [w]. *)
Lemma FunctionGetOutputs_next id bt e pol (w : World) r rest :
  get_script w = r :: rest →
  ∃ w', FunctionGetOutputs id bt e pol w = (lift r, w')
        ∧ get_script w' = rest ∧ clock w' = clock w ∧ readings w' = readings w
        ∧ calls w' = calls w ++ [{| request := FunctionGetOutputsRequest id bt e;
                                    policy := pol;
                                    reply := fmap_fallible FunctionGetOutputsResponse r |}].
Proof.
  intros Hs. unfold FunctionGetOutputs. rewrite Hs. eexists. split; [reflexivity|]. done.
Qed.

Lemma FunctionGetOutputs_pending id bt e pol (w : World) :
  get_script w = [] → FunctionGetOutputs id bt e pol w = (Pending, w).
Proof. intros Hs. unfold FunctionGetOutputs. by rewrite Hs. Qed.

Lemma get_items_loop_calls (timeout : option Q) (t0 : Q) (fuel : nat) :
  ∀ (w : World) bt o w',
    get_items_loop fuel self timeout t0 bt w = (o, w') →
    ∃ polls, calls w' = calls w ++ polls
      ∧ ∀ j c, polls !! j = Some c →
          request c = FunctionGetOutputsRequest (function_call_id self)
                        (loop_timeout timeout t0 bt w j) true
          ∧ policy c = default_policy.
Proof.
  induction fuel as [|fuel IH]; intros w bt o w' Hrun.
  - simpl in Hrun. injection Hrun as <- <-. exists []. rewrite app_nil_r. done.
  - simpl in Hrun. unfold bind at 1 in Hrun.
    destruct (get_script w) as [|r rest] eqn:Hs.
    + rewrite (FunctionGetOutputs_pending _ _ _ _ _ Hs) in Hrun.
      injection Hrun as <- <-. exists []. rewrite app_nil_r. done.
    + destruct (FunctionGetOutputs_next (function_call_id self) bt true default_policy w r rest Hs)
        as (w1 & Hcall & Hs1 & Hc1 & Hr1 & Hl1).
      rewrite Hcall in Hrun.
      set (c0 := {| request := _ |}) in Hl1.
      assert (Hhead : ∀ j c, [c0] !! j = Some c →
          request c = FunctionGetOutputsRequest (function_call_id self)
                        (loop_timeout timeout t0 bt w j) true
          ∧ policy c = default_policy).
      { intros [|j] c Hj; [|done]. injection Hj as <-. done. }
      destruct r as [outputs|e]; simpl in Hrun.
      * destruct (0 <? length outputs).
        { injection Hrun as <- <-. exists [c0]. done. }
        destruct timeout as [tmo|].
        -- unfold bind at 1, time_time at 1 in Hrun. cbv beta iota in Hrun.
           destruct (Qlt_le_dec _ _) as [Hlt|Hge].
           ++ injection Hrun as <- <-. exists [c0]. simpl. done.
           ++ apply IH in Hrun as (polls & Hcalls & Hpolls). simpl in Hcalls.
              exists (c0 :: polls). split.
              { rewrite Hcalls, Hl1, <- app_assoc. done. }
              intros [|j] c Hj; [by apply (Hhead 0)|]. simpl in Hj.
              apply Hpolls in Hj as [Hreq Hpol]. split; [|done].
              rewrite Hreq. f_equal. destruct j as [|j]; simpl.
              ** rewrite Hc1, Hr1, Nat.add_0_r. done.
              ** rewrite Hc1, Hr1. do 3 f_equal. lia.
        -- apply IH in Hrun as (polls & Hcalls & Hpolls).
           exists (c0 :: polls). split.
           { rewrite Hcalls, Hl1, <- app_assoc. done. }
           intros [|j] c Hj; [by apply (Hhead 0)|]. simpl in Hj.
           apply Hpolls in Hj as [Hreq Hpol]. split; [|done].
           rewrite Hreq. f_equal. by destruct j.
      * injection Hrun as <- <-. exists [c0]. done.
Qed.
Lemma get_items_loop_empties (timeout : option Q) (t0 : Q) (k : nat) :
  ∀ (w : World) bt rest,
    get_script w = repeat empty_reply k ++ rest →
    (∀ tmo, timeout = Some tmo → ∀ j, j < k → (clock w (readings w + j) <= t0 + tmo)%Q) →
    ∃ w' bt',
      (∀ fuel, get_items_loop (k + fuel) self timeout t0 bt w
               = get_items_loop fuel self timeout t0 bt' w')
      ∧ get_script w' = rest ∧ clock w' = clock w
      ∧ readings w' = match timeout with Some _ => readings w + k | None => readings w end
      ∧ length (calls w') = length (calls w) + k.
Proof.
  induction k as [|k IH]; intros w bt rest Hs Hin.
  - exists w, bt. split; [done|]. split; [done|]. split; [done|].
    split; [destruct timeout; lia | lia].
  - simpl in Hs.
    destruct (FunctionGetOutputs_next (function_call_id self) bt true default_policy w _ _ Hs)
      as (w1 & Hcall & Hs1 & Hc1 & Hr1 & Hl1).
    destruct timeout as [tmo|].
    + set (now := clock w1 (readings w1)).
      set (w2 := tick w1).
      destruct (IH w2 (Qmin 60 (t0 + tmo - now)) rest Hs1) as (w' & bt' & Hloop & Hs' & Hc' & Hr' & Hl').
      { intros tmo' [= <-] j Hj. unfold w2, tick. cbn [clock readings]. rewrite Hc1, Hr1.
        replace (S (readings w) + j) with (readings w + S j) by lia.
        apply (Hin tmo eq_refl). lia. }
      exists w', bt'. split; [|repeat split].
      * intros fuel. rewrite <- Hloop. simpl. unfold bind at 1. rewrite Hcall. simpl.
        unfold bind at 1, time_time at 1. cbv beta iota. fold now. fold w2.
        destruct (Qlt_le_dec (Qmin 60 (t0 + tmo - now)) 0) as [Hlt|Hge]; [|done].
        exfalso. subst now. rewrite Hc1, Hr1 in Hlt.
        specialize (Hin tmo eq_refl 0 ltac:(lia)). rewrite Nat.add_0_r in Hin.
        apply Q.min_lt_iff in Hlt as [Hlt|Hlt]; [by apply (Qlt_irrefl 0), (Qlt_trans _ 60)|lra].
      * done.
      * by rewrite Hc'.
      * rewrite Hr'. unfold w2, tick. cbn [readings]. rewrite Hr1. lia.
      * rewrite Hl'. unfold w2, tick. cbn [calls]. rewrite Hl1, length_app. simpl. lia.
    + destruct (IH w1 bt rest Hs1) as (w' & bt' & Hloop & Hs' & Hc' & Hr' & Hl'); [done|].
      exists w', bt'. split; [|repeat split].
      * intros fuel. rewrite <- Hloop. simpl. unfold bind at 1. by rewrite Hcall.
      * done.
      * by rewrite Hc'.
      * by rewrite Hr'.
      * rewrite Hl', Hl1, length_app. simpl. lia.
Qed.
Lemma get_items_unfold (timeout : option Q) (w : World) :
  get_items self timeout w =
  get_items_loop (S (length (get_script w))) self timeout (clock w (readings w))
    match timeout with None => 60%Q | Some tmo => Qmin 60 tmo end (tick w).
Proof. reflexivity. Qed.

Lemma get_items_loop_last (timeout : option Q) (t0 bt : Q) (fuel : nat)
    (w : World) outputs rest :
  get_script w = Returns outputs :: rest → outputs ≠ [] →
  ∃ w', get_items_loop (S fuel) self timeout t0 bt w = (Done (map result outputs), w')
        ∧ get_script w' = rest ∧ length (calls w') = length (calls w) + 1.
Proof.
  intros Hs Hne.
  destruct (FunctionGetOutputs_next (function_call_id self) bt true default_policy w _ _ Hs)
    as (w1 & Hcall & Hs1 & Hc1 & Hr1 & Hl1).
  exists w1. split; [|split; [done|]].
  - simpl. unfold bind at 1. rewrite Hcall. simpl.
    destruct outputs; [done|]. reflexivity.
  - rewrite Hl1, length_app. reflexivity.
Qed.

Lemma get_items_loop_expired (tmo t0 bt : Q) (fuel : nat) (w : World) rest :
  get_script w = empty_reply :: rest →
  (t0 + tmo < clock w (readings w))%Q →
  ∃ w', get_items_loop (S fuel) self (Some tmo) t0 bt w = (Done [], w')
        ∧ get_script w' = rest ∧ length (calls w') = length (calls w) + 1.
Proof.
  intros Hs Hlate.
  destruct (FunctionGetOutputs_next (function_call_id self) bt true default_policy w _ _ Hs)
    as (w1 & Hcall & Hs1 & Hc1 & Hr1 & Hl1).
  exists (tick w1). split; [|split; [done|]].
  - simpl. unfold bind at 1. rewrite Hcall. simpl.
    unfold bind at 1, time_time at 1. cbv beta iota.
    destruct (Qlt_le_dec _ _) as [Hlt|Hge]; [reflexivity|].
    exfalso. rewrite Hc1, Hr1 in Hge.
    pose proof (Q.le_min_r 60 (t0 + tmo - clock w (readings w))). lra.
  - unfold tick. cbn [calls]. rewrite Hl1, length_app. reflexivity.
Qed.
Lemma get_items_loop_S (timeout : option Q) (t0 bt : Q) (fuel : nat) :
  get_items_loop (S fuel) self timeout t0 bt =
  bind (FunctionGetOutputs (function_call_id self) bt true default_policy)
    (λ outputs,
       if 0 <? length outputs then ret (map result outputs)
       else
         match timeout with
         | None => get_items_loop fuel self timeout t0 bt
         | Some tmo =>
             bind time_time (λ now,
               if Qlt_le_dec (Qmin 60 (t0 + tmo - now)) 0 then ret []
               else get_items_loop fuel self timeout t0 (Qmin 60 (t0 + tmo - now)))
         end).
Proof. reflexivity. Qed.

(** The fuel of the loop is never what stops it: with more fuel than
    replies, the loop waits for ever only when the script is used up, and a
    loop that returns has taken at least one reply. *)
Lemma get_items_loop_script (timeout : option Q) (t0 : Q) (fuel : nat) :
  ∀ (w : World) bt o w',
    length (get_script w) < fuel →
    get_items_loop fuel self timeout t0 bt w = (o, w') →
    match o with
    | Pending => get_script w' = []
    | _ => length (get_script w') < length (get_script w)
    end.
Proof.
  induction fuel as [|fuel IH]; intros w bt o w' Hfuel Hrun; [lia|].
  rewrite get_items_loop_S in Hrun. unfold bind at 1 in Hrun.
  destruct (get_script w) as [|r rest] eqn:Hs.
  { rewrite (FunctionGetOutputs_pending _ _ _ _ _ Hs) in Hrun.
    by injection Hrun as <- <-. }
  destruct (FunctionGetOutputs_next (function_call_id self) bt true default_policy w r rest Hs)
    as (w1 & Hcall & Hs1 & _ & _ & _).
  rewrite Hcall in Hrun. simpl in Hfuel.
  destruct r as [outputs|e]; cbn [lift] in Hrun.
  2:{ injection Hrun as <- <-. rewrite Hs1. simpl. lia. }
  destruct (0 <? length outputs).
  { injection Hrun as <- <-. rewrite Hs1. simpl. lia. }
  destruct timeout as [tmo|].
  - unfold bind at 1, time_time at 1 in Hrun. cbv beta iota in Hrun.
    destruct (Qlt_le_dec _ _).
    + injection Hrun as <- <-. unfold tick. cbn [get_script]. rewrite Hs1. simpl. lia.
    + apply IH in Hrun; [|unfold tick; cbn [get_script]; rewrite Hs1; lia].
      unfold tick in Hrun. cbn [get_script] in Hrun. rewrite Hs1 in Hrun.
      destruct o; simpl; try done; lia.
  - apply IH in Hrun; [|rewrite Hs1; lia]. rewrite Hs1 in Hrun.
    destruct o; simpl; try done; lia.
Qed.

Lemma get_items_script (timeout : option Q) (w : World) o w' :
  get_items self timeout w = (o, w') →
  match o with
  | Pending => get_script w' = []
  | _ => length (get_script w') < length (get_script w)
  end.
Proof.
  rewrite get_items_unfold. intros Hrun.
  apply get_items_loop_script in Hrun; [done|]. unfold tick. cbn [get_script]. lia.
Qed.

(** Whatever the timeout, the first poll is made. *)
Lemma get_items_polls_once (timeout : option Q) (w : World) r rest :
  get_script w = r :: rest →
  ∃ o w', get_items self timeout w = (o, w')
          ∧ length (calls w) + 1 ≤ length (calls w').
Proof.
  intros Hs. destruct (get_items self timeout w) as [o w'] eqn:Hrun.
  exists o, w'. split; [done|].
  rewrite get_items_unfold, Hs in Hrun. cbn [length] in Hrun.
  rewrite get_items_loop_S in Hrun. unfold bind at 1 in Hrun.
  destruct (FunctionGetOutputs_next (function_call_id self)
              match timeout with None => 60%Q | Some tmo => Qmin 60 tmo end
              true default_policy (tick w) r rest Hs)
    as (w1 & Hcall & _ & _ & _ & Hl1).
  rewrite Hcall in Hrun.
  assert (Hlen1 : length (calls w1) = length (calls w) + 1).
  { rewrite Hl1, length_app. reflexivity. }
  destruct r as [outputs|e]; cbn [lift] in Hrun; [|injection Hrun as <- <-; lia].
  destruct (0 <? length outputs); [injection Hrun as <- <-; lia|].
  destruct timeout as [tmo|].
  - unfold bind at 1, time_time at 1 in Hrun. cbv beta iota in Hrun.
    destruct (Qlt_le_dec _ _).
    + injection Hrun as <- <-. unfold tick. cbn [calls]. lia.
    + apply get_items_loop_calls in Hrun as (polls & Hcalls & _).
      rewrite Hcalls, length_app. unfold tick. cbn [calls]. lia.
  - apply get_items_loop_calls in Hrun as (polls & Hcalls & _).
    rewrite Hcalls, length_app. lia.
Qed.

(** The polls go on over empty responses and stop at the first response
    with an output, as long as the deadline has not passed in between. *)
Lemma get_items_first_output (timeout : option Q) (w : World) k outputs rest :
  get_script w = repeat empty_reply k ++ Returns outputs :: rest →
  outputs ≠ [] →
  (∀ j tmo, j < k → timeout = Some tmo →
     (clock w (S (readings w) + j) <= clock w (readings w) + tmo)%Q) →
  ∃ w', get_items self timeout w = (Done (map result outputs), w')
        ∧ length (calls w') = length (calls w) + S k
        ∧ get_script w' = rest.
Proof.
  intros Hs Hne Hin. rewrite get_items_unfold.
  set (t0 := clock w (readings w)).
  set (bt0 := match timeout with None => 60%Q | Some tmo => Qmin 60 tmo end).
  destruct (get_items_loop_empties timeout t0 k (tick w) bt0 (Returns outputs :: rest) Hs)
    as (w1 & bt1 & Hloop & Hs1 & Hc1 & Hr1 & Hl1).
  { intros tmo Htmo j Hj. apply (Hin j tmo Hj Htmo). }
  rewrite Hs, length_app, repeat_length. cbn [length].
  replace (S (k + S (length rest))) with (k + S (S (length rest))) by lia.
  rewrite Hloop.
  destruct (get_items_loop_last timeout t0 bt1 (S (length rest)) w1 outputs rest Hs1 Hne)
    as (w' & Hrun & Hs' & Hl').
  exists w'. split; [exact Hrun|]. split; [|done].
  rewrite Hl', Hl1. unfold tick. cbn [calls]. lia.
Qed.

(** C3, amended: every poll of [get_items(timeout)] asks for
    [backend_timeout = min(60 s, remaining)] with
    [return_empty_on_timeout = true]; the polls go on until a response has an
    output, whose outputs are then all yielded, and the sequence ends; when
    the timeout has elapsed and no output was seen the sequence ends empty;
    whatever the timeout, [0] included, at least one poll is made, and with
    [timeout == 0] no second one once the clock reads later than at the
    start. *)
Theorem get_items_contract (timeout : option Q) (w : World) :
  let t0 := clock w (readings w) in
  let in_time j :=
    ∀ tmo, timeout = Some tmo → (clock w (S (readings w) + j) <= t0 + tmo)%Q in
  (∀ o w', get_items self timeout w = (o, w') →
     ∃ polls, calls w' = calls w ++ polls
       ∧ ∀ j c, polls !! j = Some c →
           request c = FunctionGetOutputsRequest (function_call_id self)
                         (contract_backend_timeout timeout w j) true
           ∧ policy c = default_policy)
  ∧ (∀ k outputs rest,
       get_script w = repeat empty_reply k ++ Returns outputs :: rest →
       outputs ≠ [] →
       (∀ j, j < k → in_time j) →
       ∃ w', get_items self timeout w = (Done (map result outputs), w')
             ∧ length (calls w') = length (calls w) + S k
             ∧ get_script w' = rest)
  ∧ (∀ k tmo rest,
       timeout = Some tmo →
       get_script w = repeat empty_reply (S k) ++ rest →
       (∀ j, j < k → in_time j) →
       (t0 + tmo < clock w (S (readings w) + k))%Q →
       ∃ w', get_items self timeout w = (Done [], w')
             ∧ length (calls w') = length (calls w) + S k
             ∧ get_script w' = rest)
  ∧ (∀ r rest,
       get_script w = r :: rest →
       ∃ o w', get_items self timeout w = (o, w')
               ∧ length (calls w) + 1 ≤ length (calls w'))
  ∧ (∀ tmo r rest,
       timeout = Some tmo → (tmo == 0)%Q →
       get_script w = r :: rest →
       (t0 < clock w (S (readings w)))%Q →
       ∃ o w', get_items self timeout w = (o, w')
               ∧ length (calls w') = length (calls w) + 1).
Proof.
  intros t0 in_time.
  split; [|split; [|split; [|split]]]; [| | |by apply get_items_polls_once|];
    rewrite get_items_unfold; fold t0;
    set (bt0 := match timeout with None => 60%Q | Some tmo => Qmin 60 tmo end).
  - intros o w' Hrun.
    apply get_items_loop_calls in Hrun as (polls & Hcalls & Hpolls).
    exists polls. split; [exact Hcalls|].
    intros j c Hj. apply Hpolls in Hj as [Hreq Hpol]. split; [|done].
    rewrite Hreq. f_equal. unfold loop_timeout, contract_backend_timeout, remaining.
    destruct j as [|j], timeout as [tmo|]; try reflexivity.
    unfold tick. cbn [clock readings]. fold t0. do 3 f_equal. lia.
  - intros k outputs rest Hs Hne Hin.
    rewrite <- get_items_unfold. apply get_items_first_output; [done..|].
    intros j tmo Hj Htmo. by apply Hin.
  - intros k tmo rest Htmo Hs Hin Hlate. subst timeout.
    replace (S k) with (k + 1) in Hs by lia. rewrite repeat_app, <- app_assoc in Hs.
    destruct (get_items_loop_empties (Some tmo) t0 k (tick w) bt0 _ Hs)
      as (w1 & bt1 & Hloop & Hs1 & Hc1 & Hr1 & Hl1).
    { intros tmo' Htmo j Hj. apply (Hin j Hj tmo' Htmo). }
    rewrite Hs, length_app, repeat_length. cbn [length repeat app].
    replace (S (k + S (length rest))) with (k + S (S (length rest))) by lia.
    rewrite Hloop.
    destruct (get_items_loop_expired tmo t0 bt1 (S (length rest)) w1 rest Hs1)
      as (w' & Hrun & Hs' & Hl').
    { rewrite Hc1, Hr1. exact Hlate. }
    exists w'. split; [exact Hrun|]. split; [|done].
    rewrite Hl', Hl1. unfold tick. cbn [calls]. lia.
  - intros tmo r rest Htmo Hz Hs Hlate. subst timeout. rewrite Hs. cbn [length].
    destruct r as [[|x outputs]|e].
    + destruct (get_items_loop_expired tmo t0 bt0 (S (length rest)) (tick w) rest Hs)
        as (w' & Hrun & Hs' & Hl').
      { unfold tick. cbn [clock readings]. lra. }
      exists (Done []), w'. split; [exact Hrun|]. rewrite Hl'. reflexivity.
    + destruct (get_items_loop_last (Some tmo) t0 bt0 (S (length rest)) (tick w) (x :: outputs) rest Hs)
        as (w' & Hrun & Hs' & Hl'); [done|].
      eexists _, w'. split; [exact Hrun|]. rewrite Hl'. reflexivity.
    + destruct (FunctionGetOutputs_next (function_call_id self) bt0 true default_policy
                  (tick w) _ _ Hs) as (w1 & Hcall & Hs1 & Hc1 & Hr1 & Hl1).
      exists (Raise (Foreign e)), w1. split.
      * simpl. unfold bind at 1. by rewrite Hcall.
      * rewrite Hl1, length_app. reflexivity.
Qed.
End Polling.
Section SingleCall.
Context `{Runtime}.
Variable self : Invocation.

Lemma process_result_not_timeout (r : GenericResult) :
  _process_result r ≠ Raise TimeoutError.
Proof.
  unfold _process_result, fetch_data.
  destruct (result_data r) as [|b|id]; simpl.
  - destruct (negb _); [done|]. by destruct (deserialize []).
  - destruct (negb _).
    + destruct (truthy b); [|done].
      destruct (deserialize b) as [exc|e]; [|done]. by destruct (negb _).
    + by destruct (deserialize b).
  - destruct (blob_download id) as [b|e]; simpl; [|done].
    destruct (negb _).
    + destruct (truthy b); [|done].
      destruct (deserialize b) as [exc|e]; [|done]. by destruct (negb _).
    + by destruct (deserialize b).
Qed.

Lemma get_items_loop_raise (timeout : option Q) (t0 : Q) (fuel : nat) :
  ∀ (w : World) bt e w',
    get_items_loop fuel self timeout t0 bt w = (Raise e, w') → ∃ s, e = Foreign s.
Proof.
  induction fuel as [|fuel IH]; intros w bt e w' Hrun; [done|].
  simpl in Hrun. unfold bind at 1, FunctionGetOutputs in Hrun.
  destruct (get_script w) as [|[outputs|s] rest]; [done| |].
  - simpl in Hrun. destruct (0 <? length outputs); [done|].
    destruct timeout as [tmo|]; [|by eapply IH].
    unfold bind at 1, time_time at 1 in Hrun. cbv beta iota in Hrun.
    destruct (Qlt_le_dec _ _); [done|by eapply IH].
  - simpl in Hrun. injection Hrun as <- _. by eexists.
Qed.

(** C5: [poll_function(timeout)] fails with its TimeoutError (line 158)
    exactly when [get_items(timeout)] ends without a result; otherwise its
    outcome is the decoding of the first result.  A remote exception that
    the decoder propagates is another kind of failure, whatever its class. *)
Theorem poll_function_timeout (timeout : option Q) (w : World) :
  ((∃ w', poll_function self timeout w = (Raise TimeoutError, w'))
   ↔ (∃ w', get_items self timeout w = (Done [], w')))
  ∧ (∀ r rs w', get_items self timeout w = (Done (r :: rs), w') →
       poll_function self timeout w = (_process_result r, w')).
Proof.
  unfold poll_function, bind. split; [split|].
  - intros [w' Hp]. destruct (get_items self timeout w) as [[[|r rs]|e|] w1] eqn:Hg.
    + by exists w1.
    + simpl in Hp. unfold pure_call in Hp. injection Hp as Hp _.
      by apply process_result_not_timeout in Hp.
    + injection Hp as -> _. rewrite get_items_unfold in Hg.
      apply get_items_loop_raise in Hg as [s Hs]. discriminate.
    + discriminate.
  - intros [w' ->]. by exists w'.
  - by intros r rs w' ->.
Qed.

Lemma consume_items_complete pre c post ys :
  Forall (λ r, gen_status r ≠ GENERATOR_STATUS_COMPLETE) pre →
  gen_status c = GENERATOR_STATUS_COMPLETE →
  Forall2 (λ r y, _process_result r = Done y) pre ys →
  consume_items (pre ++ c :: post) = (ys, Done true).
Proof.
  intros Hpre Hc Hys. induction Hys as [|r y pre ys Hr Hys IH]; simpl.
  - by rewrite bool_decide_eq_true_2.
  - apply Forall_cons in Hpre as [Hn Hpre].
    rewrite bool_decide_eq_false_2 by done. rewrite Hr, (IH Hpre). done.
Qed.

Lemma consume_items_all items ys :
  Forall (λ r, gen_status r ≠ GENERATOR_STATUS_COMPLETE) items →
  Forall2 (λ r y, _process_result r = Done y) items ys →
  consume_items items = (ys, Done false).
Proof.
  intros Hpre Hys. induction Hys as [|r y pre ys Hr Hys IH]; simpl; [done|].
  apply Forall_cons in Hpre as [Hn Hpre].
  rewrite bool_decide_eq_false_2 by done. rewrite Hr, (IH Hpre). done.
Qed.

Lemma leading_empties (responses : list (list FunctionGetOutputsItem)) :
  responses = repeat [] (length responses)
  ∨ ∃ k outputs rest, responses = repeat [] k ++ outputs :: rest ∧ outputs ≠ [].
Proof.
  induction responses as [|r responses IH]; [by left|].
  destruct r as [|x r].
  - destruct IH as [IH|(k & outputs & rest & -> & Hne)].
    + left. simpl. by rewrite <- IH.
    + right. exists (S k), outputs, rest. done.
  - right. exists 0, (x :: r), responses. done.
Qed.

Lemma stream_of_empties k : stream_of (repeat [] k) = [].
Proof. induction k; [done|]. exact IHk. Qed.

Lemma run_generator_loop_complete (fuel : nat) :
  ∀ (w : World) responses later pre c post ys,
    get_script w = map Returns responses ++ later →
    stream_of responses = pre ++ c :: post →
    Forall (λ r, gen_status r ≠ GENERATOR_STATUS_COMPLETE) pre →
    gen_status c = GENERATOR_STATUS_COMPLETE →
    Forall2 (λ r y, _process_result r = Done y) pre ys →
    length responses ≤ fuel →
    ∃ w', run_generator_loop fuel self w = ((ys, Done tt), w').
Proof.
  induction fuel as [|fuel IH]; intros w responses later pre c post ys Hs Hstr Hpre Hc Hys Hlen.
  { destruct responses; [|simpl in Hlen; lia]. by destruct pre. }
  destruct (leading_empties responses) as [Hall|(k & outputs & rest & -> & Hne)].
  { rewrite Hall, stream_of_empties in Hstr. by destruct pre. }
  rewrite map_app, map_repeat, <- app_assoc in Hs. cbn [map app] in Hs.
  destruct (get_items_first_output self None w k outputs (map Returns rest ++ later) Hs Hne)
    as (w1 & Hget & _ & Hs1); [done|].
  simpl. rewrite Hget.
  unfold stream_of in Hstr. rewrite map_app, concat_app in Hstr.
  fold (stream_of (repeat [] k)) in Hstr. rewrite stream_of_empties in Hstr.
  cbn [map concat app] in Hstr. fold (stream_of rest) in Hstr.
  apply app_eq_inv in Hstr as [(mid & Hout & Hrest)|(mid & Hprefix & Hrest)].
  - destruct mid as [|x mid].
    + rewrite app_nil_r in Hout. simpl in Hrest. subst pre.
      rewrite (consume_items_all _ ys Hpre Hys).
      rewrite length_app, repeat_length in Hlen. simpl in Hlen.
      destruct (IH w1 rest later [] c post [] Hs1 (eq_sym Hrest)) as (w' & Hrun); try done.
      { lia. }
      rewrite Hrun. exists w'. by rewrite app_nil_r.
    + injection Hrest as <- Hpost. rewrite Hout.
      rewrite (consume_items_complete pre c mid ys Hpre Hc Hys). by exists w1.
  - subst pre. apply Forall_app in Hpre as [Hpre1 Hpre2].
    apply Forall2_app_inv_l in Hys as (ys1 & ys2 & Hys1 & Hys2 & ->).
    rewrite (consume_items_all _ ys1 Hpre1 Hys1).
    rewrite length_app, repeat_length in Hlen. simpl in Hlen.
    destruct (IH w1 rest later mid c post ys2 Hs1 Hrest Hpre2 Hc Hys2) as (w' & Hrun); [lia|].
    rewrite Hrun. by exists w'.
Qed.
Lemma process_result_not_pending (r : GenericResult) : _process_result r ≠ Pending.
Proof.
  unfold _process_result, fetch_data.
  destruct (result_data r) as [|b|id]; simpl.
  - destruct (negb _); [done|]. by destruct (deserialize []).
  - destruct (negb _).
    + destruct (truthy b); [|done].
      destruct (deserialize b) as [exc|e]; [|done]. by destruct (negb _).
    + by destruct (deserialize b).
  - destruct (blob_download id) as [b|e]; simpl; [|done].
    destruct (negb _).
    + destruct (truthy b); [|done].
      destruct (deserialize b) as [exc|e]; [|done]. by destruct (negb _).
    + by destruct (deserialize b).
Qed.

Lemma consume_items_not_pending items : (consume_items items).2 ≠ Pending.
Proof.
  induction items as [|r items IH]; simpl; [done|].
  destruct (bool_decide _); [done|].
  destruct (_process_result r) eqn:Hr; [|done|by apply process_result_not_pending in Hr].
  by destruct (consume_items items).
Qed.

(** Nor is the fuel of [run_generator] what stops it: a generator that is
    left waiting has used up the replies of the server. *)
Lemma run_generator_loop_pending (fuel : nat) :
  ∀ (w : World) ys w',
    length (get_script w) < fuel →
    run_generator_loop fuel self w = ((ys, Pending), w') → get_script w' = [].
Proof.
  induction fuel as [|fuel IH]; intros w ys w' Hfuel Hrun; [lia|].
  simpl in Hrun.
  destruct (get_items self None w) as [[items|e|] w1] eqn:Hget;
    apply get_items_script in Hget; [|done|by injection Hrun as _ <-].
  pose proof (consume_items_not_pending items) as Hnp.
  destruct (consume_items items) as [ys1 [[]|e|]]; simpl in Hnp; try done.
  destruct (run_generator_loop fuel self w1) as [[ys2 o2] w2] eqn:Hrest.
  injection Hrun as _ -> <-. apply (IH w1 ys2 w2); [lia|done].
Qed.

(** C7: [run_generator()] polls with [get_items()] again and again; the
    results that arrive before the first one with [gen_status == COMPLETE]
    are decoded and yielded in arrival order; that first COMPLETE result ends
    the stream and is not yielded, nor is anything after it. *)
Theorem run_generator_stream (w : World) responses later pre c post ys :
  get_script w = map Returns responses ++ later →
  stream_of responses = pre ++ c :: post →
  Forall (λ r, gen_status r ≠ GENERATOR_STATUS_COMPLETE) pre →
  gen_status c = GENERATOR_STATUS_COMPLETE →
  Forall2 (λ r y, _process_result r = Done y) pre ys →
  ∃ w', run_generator self w = ((ys, Done tt), w').
Proof.
  intros Hs Hstr Hpre Hc Hys. unfold run_generator.
  eapply run_generator_loop_complete; eauto.
  rewrite Hs, length_app, length_map. lia.
Qed.

End SingleCall.

Section Submission.
Context `{Runtime}.

Lemma FunctionMap_next fid pol (w : World) r rest :
  map_script w = r :: rest →
  ∃ w', FunctionMap fid pol w = (lift r, w')
        ∧ map_script w' = rest ∧ put_script w' = put_script w
        ∧ get_script w' = get_script w
        ∧ calls w' = calls w ++ [{| request := FunctionMapRequest fid; policy := pol;
                                    reply := fmap_fallible FunctionMapResponse r |}].
Proof.
  intros Hs. unfold FunctionMap. rewrite Hs. eexists. split; [reflexivity|]. done.
Qed.

Lemma FunctionPutInputs_next fid inputs id pol (w : World) r rest :
  put_script w = r :: rest →
  ∃ w', FunctionPutInputs fid inputs id pol w = (lift r, w')
        ∧ put_script w' = rest ∧ map_script w' = map_script w
        ∧ get_script w' = get_script w
        ∧ calls w' = calls w ++ [{| request := FunctionPutInputsRequest fid inputs id;
                                    policy := pol;
                                    reply := fmap_fallible (λ _, FunctionPutInputsResponse) r |}].
Proof.
  intros Hs. unfold FunctionPutInputs. rewrite Hs. eexists. split; [reflexivity|]. done.
Qed.

Lemma put_policy_ok fid inputs id r :
  policy_ok {| request := FunctionPutInputsRequest fid inputs id; policy := put_policy;
               reply := r |}.
Proof. split; [reflexivity|]. simpl. set_solver. Qed.

Lemma map_policy_ok fid r :
  policy_ok {| request := FunctionMapRequest fid; policy := default_policy; reply := r |}.
Proof. reflexivity. Qed.

(** What [Invocation.create] leaves in the call log. *)
Lemma Invocation_create_calls function_id a kw cl (w : World) o w' :
  Invocation_create function_id a kw cl w = (o, w') →
  ∃ new, calls w' = calls w ++ new ∧ Forall policy_ok new
    ∧ ∀ inv, o = Done inv →
        client inv = cl
        ∧ ∃ fid item rm rp,
            function_id = Some fid
            ∧ _create_input a kw None = Done item
            ∧ new = [ {| request := FunctionMapRequest fid; policy := default_policy;
                         reply := rm |};
                      {| request := FunctionPutInputsRequest fid [item] (function_call_id inv);
                         policy := put_policy; reply := rp |} ]
            ∧ rm = Returns (FunctionMapResponse (function_call_id inv)).
Proof.
  intros Hrun. unfold Invocation_create in Hrun.
  assert (Hnone : ∀ e, (o, w') = (Raise e, w) ∨ (o, w') = (Pending, w) →
    ∃ new, calls w' = calls w ++ new ∧ Forall policy_ok new
      ∧ ∀ inv, o = Done inv → client inv = cl
        ∧ ∃ fid item rm rp, function_id = Some fid
            ∧ _create_input a kw None = Done item
            ∧ new = [ {| request := FunctionMapRequest fid; policy := default_policy;
                         reply := rm |};
                      {| request := FunctionPutInputsRequest fid [item] (function_call_id inv);
                         policy := put_policy; reply := rp |} ]
            ∧ rm = Returns (FunctionMapResponse (function_call_id inv))).
  { intros e [[= -> ->]|[= -> ->]]; exists []; rewrite app_nil_r; done. }
  destruct function_id as [fid|]; [|by apply (Hnone (InvalidError not_initialized)); left].
  destruct (id_truthy (Some fid));
    [|by apply (Hnone (InvalidError not_initialized)); left].
  unfold bind at 1 in Hrun.
  destruct (map_script w) as [|rm rest] eqn:Hms.
  { unfold FunctionMap in Hrun. rewrite Hms in Hrun.
    apply (Hnone TimeoutError). right. done. }
  destruct (FunctionMap_next fid default_policy w rm rest Hms)
    as (w1 & Hcall & _ & Hps1 & _ & Hl1).
  rewrite Hcall in Hrun. clear Hnone.
  destruct rm as [id|e]; simpl in Hrun.
  2:{ injection Hrun as <- <-. eexists. split; [exact Hl1|].
      split; [apply Forall_singleton, map_policy_ok|done]. }
  unfold bind at 1, pure_call at 1 in Hrun.
  destruct (_create_input a kw None) as [item|e|] eqn:Hitem.
  2,3: injection Hrun as <- <-; eexists; (split; [exact Hl1|]);
       (split; [apply Forall_singleton, map_policy_ok|done]).
  unfold bind at 1 in Hrun.
  destruct (put_script w1) as [|rp rest'] eqn:Hps.
  { unfold FunctionPutInputs in Hrun. rewrite Hps in Hrun. injection Hrun as <- <-.
    eexists. split; [exact Hl1|]. split; [apply Forall_singleton, map_policy_ok|done]. }
  destruct (FunctionPutInputs_next fid [item] id put_policy w1 rp rest' Hps)
    as (w2 & Hcall2 & _ & _ & _ & Hl2).
  rewrite Hcall2 in Hrun.
  assert (Hlog : calls w2 = calls w ++
      [ {| request := FunctionMapRequest fid; policy := default_policy;
           reply := Returns (FunctionMapResponse id) |};
        {| request := FunctionPutInputsRequest fid [item] id; policy := put_policy;
           reply := fmap_fallible (λ _, FunctionPutInputsResponse) rp |} ]).
  { rewrite Hl2, Hl1, <- app_assoc. done. }
  assert (Hok : Forall policy_ok
      [ {| request := FunctionMapRequest fid; policy := default_policy;
           reply := Returns (FunctionMapResponse id) |};
        {| request := FunctionPutInputsRequest fid [item] id; policy := put_policy;
           reply := fmap_fallible (λ _, FunctionPutInputsResponse) rp |} ]).
  { apply Forall_cons. split; [apply map_policy_ok|].
    apply Forall_singleton, put_policy_ok. }
  destruct rp as [[]|e]; simpl in Hrun; injection Hrun as <- <-.
  - eexists. split; [exact Hlog|]. split; [exact Hok|].
    intros inv [= <-]. split; [done|]. exists fid, item. eexists _, _. done.
  - eexists. split; [exact Hlog|]. split; [exact Hok|]. done.
Qed.

(** [Invocation.create] returns when the function has an id, [FunctionMap]
    returns a call id, the input can be encoded and [PutInputs] succeeds. *)
Lemma Invocation_create_returns (fid id : string) (a kw : PyObj) (cl : Client)
    (item : FunctionPutInputsItem) (w : World) mrest prest :
  fid ≠ "" →
  _create_input a kw None = Done item →
  map_script w = Returns id :: mrest →
  put_script w = Returns () :: prest →
  ∃ w', Invocation_create (Some fid) a kw cl w
        = (Done {| client := cl; function_call_id := id |}, w')
      ∧ calls w' = calls w ++
          [ {| request := FunctionMapRequest fid; policy := default_policy;
               reply := Returns (FunctionMapResponse id) |};
            {| request := FunctionPutInputsRequest fid [item] id; policy := put_policy;
               reply := Returns FunctionPutInputsResponse |} ]
      ∧ map_script w' = mrest ∧ put_script w' = prest ∧ get_script w' = get_script w.
Proof.
  intros Hfid Hitem Hmap Hput. unfold Invocation_create, id_truthy.
  rewrite bool_decide_false by done. cbn [negb].
  destruct (FunctionMap_next fid default_policy w _ _ Hmap)
    as (w1 & Hcall1 & Hm1 & Hp1 & Hg1 & Hl1).
  rewrite Hput in Hp1.
  destruct (FunctionPutInputs_next fid [item] id put_policy w1 _ _ Hp1)
    as (w2 & Hcall2 & Hp2 & Hm2 & Hg2 & Hl2).
  exists w2. split.
  - unfold bind at 1. rewrite Hcall1. cbn [lift].
    unfold bind at 1, pure_call at 1. rewrite Hitem.
    unfold bind at 1. rewrite Hcall2. reflexivity.
  - split; [rewrite Hl2, Hl1, <- app_assoc; reflexivity|].
    split; [congruence|]. split; [done|congruence].
Qed.

(** C10: [submit] starts the invocation and returns.  When the context of
    the function resolves to a function id, [FunctionMap] returns a call id,
    the input can be encoded and [PutInputs] succeeds, then
    [call_generator_nowait] (on a generator) or [call_function_nowait] (on
    any other function) has made exactly these two calls, and [submit]
    returns None on a generator and otherwise a FunctionCall that carries
    the client and the [function_call_id] of the invocation.  And [submit]
    returns in no other way: whenever it returns, the invocation was started
    by these two calls, a generator gives None and any other function the
    handle of that invocation. *)
Theorem submit_handle (proc : Process) (f : _Function) (a kw : PyObj) (w : World) :
  (∀ cl fid id item mrest prest,
     _get_context proc f = Done (cl, Some fid) → fid ≠ "" →
     _create_input a kw None = Done item →
     map_script w = Returns id :: mrest →
     put_script w = Returns () :: prest →
     ∃ w',
       (if _is_generator f then call_generator_nowait else call_function_nowait)
         proc f a kw w = (Done {| client := cl; function_call_id := id |}, w')
       ∧ submit proc f a kw w
         = (Done (if _is_generator f then None
                  else Some {| _client := Some cl; _object_id := Some id |}), w')
       ∧ calls w' = calls w ++
           [ {| request := FunctionMapRequest fid; policy := default_policy;
                reply := Returns (FunctionMapResponse id) |};
             {| request := FunctionPutInputsRequest fid [item] id; policy := put_policy;
                reply := Returns FunctionPutInputsResponse |} ])
  ∧ (∀ h w', submit proc f a kw w = (Done h, w') →
       ∃ inv cm cp,
         (if _is_generator f then call_generator_nowait else call_function_nowait)
           proc f a kw w = (Done inv, w')
         ∧ h = (if _is_generator f then None
                else Some {| _client := Some (client inv);
                             _object_id := Some (function_call_id inv) |})
         ∧ calls w' = calls w ++ [cm; cp]
         ∧ reply cm = Returns (FunctionMapResponse (function_call_id inv))
         ∧ ∃ fid item, request cm = FunctionMapRequest fid
             ∧ request cp = FunctionPutInputsRequest fid [item] (function_call_id inv)).
Proof.
  split.
  - intros cl fid id item mrest prest Hctx Hfid Hitem Hmap Hput.
    destruct (Invocation_create_returns fid id a kw cl item w mrest prest
                Hfid Hitem Hmap Hput) as (w' & Hcreate & Hcalls & _).
    exists w'.
    assert (Hnow : ∀ g : bool,
      (if g then call_generator_nowait else call_function_nowait) proc f a kw w
      = (Done {| client := cl; function_call_id := id |}, w')).
    { intros g. destruct g; unfold call_generator_nowait, call_function_nowait;
        unfold bind, pure_call; by rewrite Hctx. }
    split; [apply Hnow|]. split; [|done].
    unfold submit. destruct (_is_generator f).
    + unfold bind at 1. by rewrite (Hnow true).
    + unfold bind at 1. by rewrite (Hnow false).
  - intros h w' Hsub.
    assert (Hinv : ∃ inv,
      (if _is_generator f then call_generator_nowait else call_function_nowait)
        proc f a kw w = (Done inv, w')
      ∧ h = (if _is_generator f then None
             else Some {| _client := Some (client inv);
                          _object_id := Some (function_call_id inv) |})).
    { unfold submit in Hsub. destruct (_is_generator f); unfold bind at 1 in Hsub.
      - destruct (call_generator_nowait proc f a kw w) as [[inv|e|] w1]; [|done..].
        injection Hsub as <- <-. by exists inv.
      - destruct (call_function_nowait proc f a kw w) as [[inv|e|] w1]; [|done..].
        injection Hsub as <- <-. by exists inv. }
    destruct Hinv as (inv & Hcall & Hh). exists inv.
    assert (Hcreate : ∃ cl oid, Invocation_create oid a kw cl w = (Done inv, w')).
    { destruct (_is_generator f);
        unfold call_generator_nowait, call_function_nowait, bind, pure_call in Hcall;
        destruct (_get_context proc f) as [[cl oid]|e|]; try done; eauto. }
    destruct Hcreate as (cl & oid & Hcreate).
    apply Invocation_create_calls in Hcreate as (new & Hcalls & _ & Hdone).
    destruct (Hdone inv eq_refl) as (_ & fid & item & rm & rp & _ & _ & -> & ->).
    eexists _, _. split; [done|]. split; [done|]. split; [exact Hcalls|].
    split; [done|]. by exists fid, item.
Qed.

End Submission.
Section MapEngine.
Context `{Runtime}.
Variable a : MapArgs.
Variable source : list PyObj.
Variable w0 : World.

Lemma run_snoc (s : MapState) (events : list event) (e : event) :
  run a s (events ++ [e]) = step a (run a s events) e.
Proof. unfold run. by rewrite fold_left_app. Qed.

(** Induction over the runs of the engine. *)
Lemma run_ind (P : MapState → Prop) (s : MapState) :
  P s → (∀ s e, P s → P (step a s e)) → ∀ events, P (run a s events).
Proof.
  intros H0 Hstep events. induction events as [|e events IH] using rev_ind; [done|].
  rewrite run_snoc. by apply Hstep.
Qed.

Lemma close_stream_cases (s : MapState) :
  close_stream s = s
  ∨ (drain s = DrainDone ∧ pump s = PumpDone ∧ poll s = PollDone
     ∧ close_stream s = set_engine Exited s).
Proof. unfold close_stream. repeat case_match; auto. Qed.

Lemma outer_loop_none_cases (s : MapState) :
  (¬ all_outputs_in s ∧ outer_loop_none s = s)
  ∨ (all_outputs_in s ∧ outer_loop_none s = set_engine Exited s).
Proof.
  unfold outer_loop_none, all_outputs_in.
  destruct (have_all_inputs s); simpl; [|left; split; [intros [? _]|]; done].
  destruct (Nat.eqb_spec (num_outputs s) (num_inputs s)); [right|left]; split; try done.
  by intros [_ ?].
Qed.

Ltac unfold_step :=
  unfold step, start, run_drain, run_pump, run_poll, deliver_drain, deliver_pump,
    deliver_poll, FunctionMap, FunctionPutInputs, FunctionGetOutputs,
    queue_batch_iterator.


Ltac open_guards :=
  repeat match goal with
  | H : context [outer_loop_none ?s] |- _ =>
      let E := fresh "Hexit" in let R := fresh "Hnone" in
      destruct (outer_loop_none_cases s) as [[E R]|[E R]]; rewrite R in *; clear R
  | |- context [outer_loop_none ?s] =>
      let E := fresh "Hexit" in let R := fresh "Hnone" in
      destruct (outer_loop_none_cases s) as [[E R]|[E R]]; rewrite R in *; clear R
  | |- context [close_stream ?s] =>
      let R := fresh "Hclose" in
      destruct (close_stream_cases s) as [R|(? & ? & ? & R)]; rewrite R in *; clear R
  end.

Ltac step_split := unfold_step; repeat case_match; simplify_eq; open_guards.

Lemma inv_log_init : inv_log w0 (map_invocation source w0).
Proof.
  split; [|split].
  - simpl. unfold MAP_INVOCATION_CHUNK_SIZE. lia.
  - done.
  - exists []. simpl. by rewrite app_nil_r.
Qed.

Lemma inv_log_step (s : MapState) (e : event) :
  inv_log w0 s → inv_log w0 (step a s e).
Proof.
  intros (Hbatch & Hsend & made & Hcalls & Hpol & Hbat).
  assert (Hlog : ∀ c, policy_ok c → batch_ok c →
    ∃ made', calls (world s) ++ [c] = calls w0 ++ made'
      ∧ Forall policy_ok made' ∧ Forall batch_ok made').
  { intros c Hc1 Hc2. exists (made ++ [c]). rewrite Hcalls, <- app_assoc.
    split; [done|]. split; apply Forall_app; split; try done; by apply Forall_singleton. }
  unfold inv_log.
  step_split; simpl; (split; [|split]); try done.
  all: try (apply Hlog; [first [apply map_policy_ok | apply put_policy_ok | done]|]).
  all: try (by (unfold batch_ok; simpl; eauto)).
  all: try (intros ? ? Hp; first [congruence | injection Hp as <- <-]).
  all: repeat match goal with
       | H : (_ <=? _) = true |- _ => apply Nat.leb_le in H
       | H : (_ <=? _) = false |- _ => apply Nat.leb_gt in H
       | H : (_ <? _) = true |- _ => apply Nat.ltb_lt in H
       | H : (_ <? _) = false |- _ => apply Nat.ltb_ge in H
       end.
  all: rewrite ?length_app in *; simpl in *;
       unfold MAP_INVOCATION_CHUNK_SIZE in *; try lia.
  all: intros items' last' Hp; apply (Hsend items' last'); congruence.
Qed.

(** C9: every PutInputs call of the pump carries between 1 and
    MAP_INVOCATION_CHUNK_SIZE = 100 inputs. *)
Theorem pump_batch_bounds (events : list event) :
  MAP_INVOCATION_CHUNK_SIZE = 100
  ∧ ∀ c fid inputs id,
      c ∈ engine_calls w0 (run a (map_invocation source w0) events) →
      request c = FunctionPutInputsRequest fid inputs id →
      1 ≤ length inputs ≤ 100.
Proof.
  split; [reflexivity|]. intros c fid inputs id Hc Hreq.
  pose proof (run_ind (inv_log w0) _ inv_log_init inv_log_step events)
    as (_ & _ & made & Hcalls & _ & Hbat).
  unfold engine_calls in Hc. rewrite Hcalls, drop_app_length in Hc.
  rewrite Forall_forall in Hbat. specialize (Hbat c Hc).
  unfold batch_ok in Hbat. by rewrite Hreq in Hbat.
Qed.
Lemma received_by_snoc (made : list RpcCall) (c : RpcCall) :
  received_by (made ++ [c]) = received_by made ++ outputs_of c.
Proof. unfold received_by. rewrite map_app, concat_app. simpl. by rewrite app_nil_r. Qed.

Lemma result_in_mono R R' i v : result_in R i v → result_in (R ++ R') i v.
Proof. intros (item & Hin & Hi & Hv). exists item. split; [set_solver|done]. Qed.

Lemma inv_reorder_init : inv_reorder w0 (map_invocation source w0).
Proof.
  exists []. simpl. rewrite app_nil_r. split; [done|]. repeat split; try done.
Qed.

Lemma exit_check_cases (s : MapState) :
  exit_check s = PollCall
  ∨ (exit_check s = PollDone ∧ all_outputs_in s ∧ pending_outputs s = ∅)
  ∨ exit_check s = PollRaised AssertionError.
Proof.
  unfold exit_check, all_outputs_in.
  destruct (have_all_inputs s); [|by left].
  destruct (num_outputs s <=? num_inputs s); simpl; [|by right; right].
  destruct (Nat.eqb_spec (num_outputs s) (num_inputs s)); [|by left].
  destruct (Nat.eqb_spec (size (pending_outputs s)) 0) as [Hsize|]; [|by right; right].
  right; left. split; [done|]. split; [done|]. by apply map_size_empty_iff.
Qed.

Lemma inv_reorder_step (s : MapState) (e : event) :
  map_is_generator a = false → inv_reorder w0 s → inv_reorder w0 (step a s e).
Proof.
  intros Hfun Hinv.
  step_split; try done;
    destruct Hinv as (made & Hcalls & Hfor & Hpend & Hyield & Hout & Hlen & Hgen);
    try (match goal with Hp : poll _ = PollForYield _ _ |- _ => by destruct (Hgen _ _ Hp) end);
    try (match goal with Hp : poll _ = _ |- _ => rewrite Hp in Hlen end);
    unfold inv_reorder; simpl;
    (eexists; split;
      [first [exact Hcalls | rewrite Hcalls, <- app_assoc; reflexivity]|]);
    rewrite ?received_by_snoc; simpl;
    try (destruct (exit_check_cases s) as [Hx|[(Hx & _)|Hx]]; rewrite Hx).
  all: repeat split.
  all: try done.
  all: try (by (intros; apply result_in_mono; eauto)).
  all: try (by (intros; apply elem_of_app; left; eauto)).
  all: try lia.
  - intros items [= <-] item Hitem. destruct f; simplify_eq. set_solver.
  - intros items [= <-] item Hitem. eapply Hfor; [done|set_solver].
  - intros k v Hk. apply lookup_insert_Some in Hk as [[<- <-]|[_ Hk]]; [|by eauto].
    exists f. split; [|done]. eapply Hfor; [done|set_solver].
  - intros k v Hk. apply lookup_delete_Some in Hk as [_ Hk]. eauto.
  - intros v [= <-]. eauto.
  - intros i v Hi. apply lookup_app_Some in Hi as [Hi|[Hge Hi]]; [by eauto|].
    destruct (i - length (yielded s)) as [|n] eqn:Hn; [|done]. injection Hi as <-.
    assert (i = num_outputs s) as -> by lia. eauto.
  - rewrite length_app. simpl. lia.
Qed.
Lemma inv_inputs_init : inv_inputs (length source) (map_invocation source w0).
Proof. repeat split; simpl; try done. set_solver. Qed.

Lemma inv_inputs_step (n : nat) (s : MapState) (e : event) :
  inv_inputs n s → inv_inputs n (step a s e).
Proof.
  intros Hinv.
  step_split; try done;
    destruct Hinv as (Hnum & Hqueue & Hpast & Hall);
    unfold inv_inputs; simpl;
    try (match goal with Hp : pump _ = _ |- _ => rewrite Hp in Hpast; try rewrite Hp end);
    try (match goal with Hp : input_queue _ = _ |- _ => rewrite Hp in Hqueue end);
    try (match goal with Hp : input_stream _ = _ |- _ =>
           rewrite Hp in Hnum, Hqueue, Hpast, Hall; try rewrite Hp end).
  all: repeat split; try done.
  all: try (simpl in *; lia).
  all: try (by (intros; first [apply Hqueue | apply Hpast | apply Hall]; simpl; auto)).
  all: try (by (intros Hx; first [apply Hpast in Hx | apply Hall in Hx])).
  all: try (by (intros; first [apply Hqueue | apply Hpast | apply Hall];
                first [done | apply elem_of_cons; auto])).
  intros [Hx|Hx]%elem_of_app; [by apply Hqueue in Hx|].
  { by apply elem_of_cons in Hx as [Hx|Hx%elem_of_nil]. }
  all: intros _; by apply Hpast.
Qed.

Lemma inv_exit_init : inv_exit (map_invocation source w0).
Proof. by split. Qed.

Lemma inv_exit_step (n : nat) (s : MapState) (e : event) :
  inv_inputs n s → inv_exit s → inv_exit (step a s e).
Proof.
  intros (Hnum & Hqueue & Hpast & Hall) Hinv.
  step_split; try done;
    destruct Hinv as (Hpd & Hex); unfold all_outputs_in in *;
    unfold inv_exit, all_outputs_in; simpl;
    try (destruct (exit_check_cases s) as [Hx|[(Hx & Hy & Hz)|Hx]]; rewrite Hx).
  all: repeat split; try done.
  all: try (by (intros Hp; first [apply Hpd in Hp | apply Hex in Hp]; intuition)).
  all: try (by (intros; match goal with Hp : poll _ = _ |- _ => rewrite Hp in * end)).
  all: try (by (intros; match goal with Hp : engine _ = _ |- _ => rewrite Hp in * end)).
  all: try (by intuition).
  all: unfold all_outputs_in in *; try (by intuition).
  all: simpl in *; congruence.
Qed.
Lemma engine_received_made (s : MapState) (made : list RpcCall) :
  calls (world s) = calls w0 ++ made → engine_received w0 s = received_by made.
Proof.
  intros Hcalls. unfold engine_received, engine_calls. by rewrite Hcalls, drop_app_length.
Qed.

(** All invariants hold along every run. *)
Lemma run_invariants (events : list event) :
  let s := run a (map_invocation source w0) events in
  inv_log w0 s ∧ inv_inputs (length source) s ∧ inv_exit s
  ∧ (map_is_generator a = false → inv_reorder w0 s).
Proof.
  apply (run_ind (λ s, inv_log w0 s ∧ inv_inputs (length source) s ∧ inv_exit s
                       ∧ (map_is_generator a = false → inv_reorder w0 s))).
  - split; [apply inv_log_init|]. split; [apply inv_inputs_init|].
    split; [apply inv_exit_init|]. intros _. apply inv_reorder_init.
  - intros s e (Hlog & Hin & Hex & Hre).
    split; [by apply inv_log_step|]. split; [by apply inv_inputs_step|].
    split; [by eapply inv_exit_step|]. intros Hfun. by apply inv_reorder_step, Hre.
Qed.

(** *** The inputs that were submitted *)

Lemma drop_cons_inv {A} (l : list A) (n : nat) (x : A) (k : list A) :
  drop n l = x :: k → l !! n = Some x ∧ drop (S n) l = k.
Proof.
  revert n. induction l as [|y l IH]; intros [|n] Hd; simpl in *; try done.
  - by injection Hd as -> ->.
  - by apply IH.
Qed.

Lemma queued_app (q1 q2 : list (option FunctionPutInputsItem)) :
  queued (q1 ++ q2) = queued q1 ++ queued q2.
Proof. unfold queued. apply omap_app. Qed.

(** An input record carries the index it was built with. *)
Lemma create_input_idx (arg kw : PyObj) (i : option nat) (item : FunctionPutInputsItem) :
  _create_input arg kw i = Done item → idx item = i.
Proof.
  unfold _create_input. intros Hitem. destruct (_ <? _); simpl in Hitem.
  - destruct (blob_upload _); simpl in Hitem; [|done]. by injection Hitem as <-.
  - by injection Hitem as <-.
Qed.

Lemma inv_indices_init : inv_indices a source w0 (map_invocation source w0).
Proof.
  split; [done|]. exists []. simpl. rewrite app_nil_r. split; [done|]. constructor.
Qed.

Lemma inv_indices_step (s : MapState) (e : event) :
  inv_indices a source w0 s → inv_indices a source w0 (step a s e).
Proof.
  intros Hinv.
  step_split; try done;
    destruct Hinv as (Hstream & made & Hcalls & Henc);
    unfold inv_indices, encoded in *; simpl;
    try (match goal with Hp : pump _ = _ |- _ => rewrite Hp in Henc end);
    try (match goal with Hp : input_queue _ = _ |- _ => rewrite Hp in Henc end);
    simpl in Henc.
  all: try (split; [done|]; eexists; split;
      [first [exact Hcalls | rewrite Hcalls, <- app_assoc; reflexivity]|];
      rewrite ?map_app, ?concat_app; simpl; rewrite ?app_nil_r, <- ?app_assoc;
      simpl; rewrite <- ?app_assoc; done).
  - (* the sentinel is queued *)
    split; [done|]. exists made. split; [done|].
    rewrite queued_app. simpl. by rewrite app_nil_r.
  - (* line 218: the next argument is encoded with index [num_inputs] *)
    match goal with Hs : input_stream _ = _ :: _ |- _ => rewrite Hs in Hstream end.
    symmetry in Hstream. apply drop_cons_inv in Hstream as [Harg Hrest].
    split; [by rewrite Nat.add_1_r|]. exists made. split; [done|].
    rewrite queued_app, !app_assoc, seq_app. simpl.
    apply Forall2_app; [by rewrite <- !app_assoc|].
    constructor; [|constructor]. split; [by eapply create_input_idx|eauto].
  - (* the batch is handed over *)
    split; [done|]. exists made. split; [done|].
    match goal with Hp : pump _ = _ |- _ => rewrite Hp end. simpl.
    by rewrite <- app_assoc.
Qed.

Lemma inv_sentinel_init : inv_sentinel (map_invocation source w0).
Proof.
  split; [|split; [|split]]; simpl; try done.
  - by intros _ ?%elem_of_nil.
  - intros [|? ?] ? ?; done.
Qed.

Lemma sentinel_last (q q1 q2 : list (option FunctionPutInputsItem)) :
  None ∉ q → q ++ [None] = q1 ++ None :: q2 → q2 = [].
Proof.
  intros Hq Heq. destruct q2 as [|x q2 _] using rev_ind; [done|].
  rewrite app_comm_cons, app_assoc in Heq. apply app_inj_tail in Heq as [-> _].
  destruct Hq. apply elem_of_app. right. apply elem_of_cons. by left.
Qed.

Lemma not_sentinel_snoc (q : list (option FunctionPutInputsItem)) (item : FunctionPutInputsItem) :
  None ∉ q → None ∉ q ++ [Some item].
Proof.
  intros Hq Hin. by apply elem_of_app in Hin as [?|[?|?%elem_of_nil]%elem_of_cons].
Qed.

Lemma sentinel_middle (q1 q2 : list (option FunctionPutInputsItem)) :
  None ∈ q1 ++ None :: q2.
Proof. apply elem_of_app. right. apply elem_of_cons. by left. Qed.

Lemma inv_sentinel_step (s : MapState) (e : event) :
  inv_sentinel s → inv_sentinel (step a s e).
Proof.
  intros Hinv.
  step_split; try done;
    destruct Hinv as (Hloop & Hlast & Hpast & Hall);
    unfold inv_sentinel; simpl;
    try (match goal with Hp : pump _ = _ |- _ => rewrite Hp in Hpast, Hall; try rewrite Hp end);
    try (match goal with Hp : drain _ = _ |- _ => rewrite Hp in Hloop, Hpast; try rewrite Hp end);
    try (match goal with Hp : input_queue _ = _ |- _ => rewrite Hp in Hloop, Hlast, Hpast end);
    cbn [past_sentinel] in *.
  all: (split; [|split; [|split]]); try done.
  (* what the step leaves as it was *)
  all: try (by (intros Hx; destruct (Hall Hx))).
  all: try (by (intros Hx; destruct (Hpast Hx) as (? & ? & ?))).
  all: try (by (intros; first [apply Hloop | apply Hpast | apply Hall | eapply Hlast])).
  all: try (by (intros _; auto)).
  (* the drain task appends to a queue that holds no sentinel *)
  all: try (by (intros q1 q2 Heq; eapply sentinel_last; [by apply Hloop|done])).
  all: try (by (intros _; apply not_sentinel_snoc, Hloop)).
  all: try (by (intros q1 q2 Heq; destruct (not_sentinel_snoc (input_queue s) a0 (Hloop eq_refl));
                rewrite Heq; apply sentinel_middle)).
  (* the pump task takes the head of the queue *)
  all: try (by (intros Hx; apply Hloop in Hx; intros Hin; apply Hx, elem_of_cons; right)).
  all: try (by (intros _; split; [by apply (Hlast [] l)|];
                split; [first [done | by (simpl in *; destruct (batch s))]|];
                intros Hd; destruct (Hloop Hd); apply elem_of_cons; by left)).
  all: intros q1 q2 Heq; subst l;
    first [by apply (Hlast (Some f :: q1) q2) | by apply (Hlast (None :: q1) q2)].
Qed.

(** Along every run the inputs encoded so far are the first [num_inputs]
    arguments of the source, and the sentinel closes the queue. *)
Lemma indices_invariant (events : list event) :
  let s := run a (map_invocation source w0) events in
  inv_indices a source w0 s ∧ inv_sentinel s.
Proof.
  apply (run_ind (λ s, inv_indices a source w0 s ∧ inv_sentinel s)).
  - split; [apply inv_indices_init|apply inv_sentinel_init].
  - intros s e [Hidx Hsen]. split; [by apply inv_indices_step|by apply inv_sentinel_step].
Qed.

(** Once all inputs are in, every one of them has been submitted. *)
Lemma inputs_submitted (events : list event) :
  let s := run a (map_invocation source w0) events in
  have_all_inputs s = true →
  Forall2 (encodes a source) (seq 0 (length source))
    (concat (map sent_inputs (engine_calls w0 s))).
Proof.
  intros s Hhave.
  destruct (indices_invariant events) as [Hidx Hsen]. fold s in Hidx, Hsen.
  destruct (run_invariants events) as (_ & Hin & _). fold s in Hin.
  destruct Hin as (Hnum & _ & _ & Hall). rewrite (Hall Hhave) in Hnum. simpl in Hnum.
  destruct Hidx as (_ & made & Hcalls & Henc).
  destruct Hsen as (_ & _ & Hpast & Hpump).
  unfold engine_calls. rewrite Hcalls, drop_app_length.
  unfold encoded in Henc. rewrite Nat.add_0_r in Hnum. rewrite Hnum in Henc.
  destruct (Hpump Hhave) as [Hp|Hp]; rewrite Hp in Hpast, Henc;
    destruct (Hpast I) as (Hq & Hb & _); rewrite Hq, Hb in Henc; simpl in Henc;
    by rewrite app_nil_r in Henc.
Qed.

(** C1: when a map over a function that is no generator has returned,
    the inputs submitted were the [N] arguments of the source, argument
    number [i] encoded with index [i]; there is an output for each of them,
    and output number [i] is the decoded result of an item received with
    index [i], whatever the order of arrival; and the outputs are exactly
    [N], the server having sent results for indices of inputs only. *)
Theorem map_outputs_in_input_order (events : list event) :
  let s := run a (map_invocation source w0) events in
  map_is_generator a = false →
  engine s = Exited →
  Forall2 (encodes a source) (seq 0 (length source))
    (concat (map sent_inputs (engine_calls w0 s)))
  ∧ (∀ i, i < length source →
       ∃ v item, yielded s !! i = Some v
         ∧ item ∈ engine_received w0 s ∧ item_idx item = i
         ∧ _process_result (result item) = Done v)
  ∧ ((∀ item, item ∈ engine_received w0 s → item_idx item < length source) →
     length (yielded s) = length source).
Proof.
  intros s Hfun Hexit.
  split.
  { apply inputs_submitted.
    destruct (run_invariants events) as (_ & _ & (_ & Hex) & _). by apply Hex. }
  destruct (run_invariants events) as (_ & Hin & Hex & Hre). fold s in Hin, Hex, Hre.
  destruct Hin as (Hnum & _ & _ & Hall). destruct Hex as (_ & Hex).
  destruct (Hex Hexit) as [Hhave Heq].
  destruct (Hre Hfun) as (made & Hcalls & _ & _ & _ & Hout & Hlen & _).
  rewrite (engine_received_made s made Hcalls) in *.
  rewrite (Hall Hhave) in Hnum. simpl in Hnum.
  split.
  - intros i Hi.
    destruct (lookup_lt_is_Some_2 (yielded s) i) as [v Hv]; [lia|].
    destruct (Hout _ _ Hv) as (item & Hitem & Hidx & Hdec).
    by exists v, item.
  - intros Hbound. rewrite Hlen. destruct (poll s) eqn:Hp; try lia.
    destruct (lookup_lt_is_Some_2 (yielded s) (num_outputs s)) as [v Hv]; [lia|].
    destruct (Hout _ _ Hv) as (item & Hitem & Hidx & _).
    apply Hbound in Hitem. lia.
Qed.
Lemma outputs_of_map req pol (f : fallible string) :
  outputs_of {| request := req; policy := pol;
                reply := fmap_fallible FunctionMapResponse f |} = [].
Proof. by destruct f. Qed.

Lemma outputs_of_put req pol (f : fallible ()) :
  outputs_of {| request := req; policy := pol;
                reply := fmap_fallible (λ _, FunctionPutInputsResponse) f |} = [].
Proof. by destruct f. Qed.

Lemma outputs_of_get req pol (f : fallible (list FunctionGetOutputsItem)) :
  outputs_of {| request := req; policy := pol;
                reply := fmap_fallible FunctionGetOutputsResponse f |}
  = match f with Returns outputs => outputs | Throws _ => [] end.
Proof. by destruct f. Qed.

Lemma keys_insert_new (m : gmap nat PyObj) (k : nat) (v : PyObj) :
  m !! k = None → elements (dom (<[k:=v]> m)) ≡ₚ k :: elements (dom m).
Proof.
  intros Hk. rewrite dom_insert_L. apply elements_union_singleton.
  by apply not_elem_of_dom.
Qed.

Lemma keys_insert_old (m : gmap nat PyObj) (k : nat) (v w : PyObj) :
  m !! k = Some w → dom (<[k:=v]> m) = dom m.
Proof.
  intros Hk%elem_of_dom_2. rewrite dom_insert_L.
  apply set_eq. intros x. rewrite elem_of_union, elem_of_singleton.
  split; [by intros [->|]|by right].
Qed.

Lemma keys_delete (m : gmap nat PyObj) (k : nat) (v : PyObj) :
  m !! k = Some v → elements (dom m) ≡ₚ k :: elements (dom (delete k m)).
Proof.
  intros Hk. rewrite <- (insert_delete_id m k v Hk) at 1.
  apply keys_insert_new, lookup_delete_eq.
Qed.

Lemma inv_unique_init : inv_unique w0 (map_invocation source w0).
Proof. exists []. simpl. rewrite app_nil_r. split; [done|]. by rewrite dom_empty_L. Qed.

Lemma inv_unique_step (s : MapState) (e : event) :
  map_is_generator a = false → inv_unique w0 s → inv_unique w0 (step a s e).
Proof.
  intros Hfun Hinv.
  step_split; try done;
    destruct Hinv as (made & Hcalls & Hsub);
    unfold inv_unique, popped, unprocessed in *; simpl;
    try (match goal with Hp : poll _ = _ |- _ => rewrite Hp in Hsub end);
    (eexists; split;
      [first [exact Hcalls | rewrite Hcalls, <- app_assoc; reflexivity]|]);
    rewrite ?received_by_snoc, ?outputs_of_map, ?outputs_of_put, ?outputs_of_get;
    simpl; rewrite ?app_nil_r in *;
    try (destruct (exit_check_cases s) as [Hx|[(Hx & _)|Hx]]; rewrite Hx);
    rewrite ?app_nil_r, ?Nat.add_0_r in *.
  all: try done.
  - destruct f; simpl in *; simplify_eq. rewrite map_app. by apply submseteq_app.
  - destruct f; simpl in *; simplify_eq. by rewrite app_nil_r.
  - etrans; [|exact Hsub]. simpl.
    destruct (pending_outputs s !! item_idx f) as [w|] eqn:Hk.
    + rewrite (keys_insert_old _ _ _ _ Hk). apply submseteq_skips_l, submseteq_cons.
      done.
    + rewrite (keys_insert_new _ _ _ Hk). apply Permutation_submseteq.
      rewrite <- !app_assoc. apply Permutation_app_head. simpl.
      apply Permutation_middle.
  - etrans; [|exact Hsub]. by apply submseteq_inserts_r.
  - etrans; [|exact Hsub]. apply Permutation_submseteq.
    match goal with Hk : pending_outputs _ !! _ = Some _ |- _ =>
      rewrite (keys_delete _ _ _ Hk) end.
    rewrite seq_app, <- app_assoc. simpl. done.
Qed.
Lemma submseteq_NoDup {A} (l k : list A) : l ⊆+ k → NoDup k → NoDup l.
Proof.
  intros [k' Hk]%submseteq_Permutation Hnd. rewrite Hk in Hnd.
  by apply NoDup_app in Hnd as [? _].
Qed.

(** A generator map never stores an output. *)
Lemma pending_generator_step (s : MapState) (e : event) :
  map_is_generator a = true →
  pending_outputs s = ∅ → pending_outputs (step a s e) = ∅.
Proof.
  intros Hgen Hempty. step_split; try done; simpl; try done.
  - match goal with Hk : pending_outputs _ !! _ = Some _ |- _ =>
      by rewrite Hempty, lookup_empty in Hk end.
Qed.

Lemma pending_generator (events : list event) :
  map_is_generator a = true →
  pending_outputs (run a (map_invocation source w0) events) = ∅.
Proof.
  intros Hgen. apply (run_ind (λ s, pending_outputs s = ∅)); [done|].
  intros s e. by apply pending_generator_step.
Qed.

Lemma unique_invariant (events : list event) :
  map_is_generator a = false →
  inv_unique w0 (run a (map_invocation source w0) events).
Proof.
  intros Hfun. apply (run_ind (inv_unique w0)); [apply inv_unique_init|].
  intros s e. by apply inv_unique_step.
Qed.

(** With a server that answers for indices of inputs only, the counters stay
    in range. *)
Lemma outputs_bounded (events : list event) :
  let s := run a (map_invocation source w0) events in
  map_is_generator a = false →
  (∀ item, item ∈ engine_received w0 s → item_idx item < length source) →
  popped s ≤ length source.
Proof.
  intros s Hfun Hbound.
  destruct (run_invariants events) as (_ & _ & _ & Hre). fold s in Hre.
  destruct (Hre Hfun) as (made & Hcalls & _ & _ & Hyield & Hout & Hlen & _).
  rewrite (engine_received_made s made Hcalls) in *.
  assert (Hlast : ∀ i, i < length (yielded s) → i < length source).
  { intros i Hi. destruct (lookup_lt_is_Some_2 (yielded s) i) as [v Hv]; [lia|].
    destruct (Hout _ _ Hv) as (item & Hitem & Hidx & _). apply Hbound in Hitem. lia. }
  unfold popped. destruct (poll s) eqn:Hp; rewrite ?Nat.add_0_r.
  1-4,6-8: pose proof (Hlast (num_outputs s)); pose proof (Hlast (num_outputs s - 1));
           lia.
  destruct (Hyield _ eq_refl) as (item & Hitem & Hidx & _).
  apply Hbound in Hitem. lia.
Qed.
Lemma markers_app (l k : list FunctionGetOutputsItem) :
  markers (l ++ k) = markers l + markers k.
Proof. induction l as [|x l IH]; simpl; [done|]. rewrite IH. lia. Qed.

Lemma inv_markers_init : inv_markers w0 (map_invocation source w0).
Proof.
  split; [done|]. split; [done|]. exists []. simpl. rewrite app_nil_r. done.
Qed.

Lemma inv_markers_step (s : MapState) (e : event) :
  map_is_generator a = true → inv_markers w0 s → inv_markers w0 (step a s e).
Proof.
  intros Hgen Hinv.
  step_split; try done;
    destruct Hinv as (Hempty & Hpop & made & Hcalls & Hle);
    unfold inv_markers, popped, unprocessed in *; simpl;
    try (match goal with Hp : poll _ = _ |- _ => rewrite Hp in Hle, Hpop end);
    try (match goal with Hk : pending_outputs _ !! _ = Some _ |- _ =>
           by rewrite Hempty, lookup_empty in Hk end);
    try (destruct (exit_check_cases s) as [Hx|[(Hx & _)|Hx]]; rewrite Hx);
    (split; [done|]); (split; [simpl in *; lia|]);
    (eexists; split;
      [first [exact Hcalls | rewrite Hcalls, <- app_assoc; reflexivity]|]);
    rewrite ?received_by_snoc, ?outputs_of_map, ?outputs_of_put, ?outputs_of_get;
    simpl in *; rewrite ?app_nil_r in *; try lia.
  - destruct f; simpl in *; simplify_eq. rewrite markers_app. lia.
  - destruct f; simpl in *; simplify_eq. rewrite app_nil_r. lia.
  - unfold is_marker in Hle.
    match goal with Hc : bool_decide _ = true |- _ => rewrite Hc in Hle end. lia.
Qed.

Lemma markers_invariant (events : list event) :
  map_is_generator a = true →
  inv_markers w0 (run a (map_invocation source w0) events).
Proof.
  intros Hgen. apply (run_ind (inv_markers w0)); [apply inv_markers_init|].
  intros s e. by apply inv_markers_step.
Qed.

Lemma exit_check_done (s : MapState) :
  exit_check s = PollDone ↔ all_outputs_in s ∧ pending_outputs s = ∅.
Proof.
  split.
  - intros Hx. destruct (exit_check_cases s) as [Hc|[(_ & Ha & Hp)|Hc]]; [|done|];
      rewrite Hc in Hx; discriminate.
  - intros [[Hall Heq] Hp]. unfold exit_check.
    rewrite Hall, Heq, Nat.leb_refl, Nat.eqb_refl, Hp, map_size_empty. done.
Qed.

Lemma exit_check_again (s : MapState) :
  ¬ all_outputs_in s →
  (have_all_inputs s = true → num_outputs s ≤ num_inputs s) →
  exit_check s = PollCall.
Proof.
  intros Hnot Hle. unfold exit_check, all_outputs_in in *.
  destruct (have_all_inputs s); [|done].
  specialize (Hle eq_refl). apply Nat.leb_le in Hle as ->. simpl.
  destruct (Nat.eqb_spec (num_outputs s) (num_inputs s)); [|done].
  by destruct Hnot.
Qed.

Lemma exit_check_assert (s : MapState) :
  have_all_inputs s = true → num_inputs s < num_outputs s →
  exit_check s = PollRaised AssertionError.
Proof.
  intros Hall Hlt. unfold exit_check. rewrite Hall.
  apply Nat.leb_gt in Hlt as ->. done.
Qed.

Lemma poll_close_stream (s : MapState) : poll (close_stream s) = poll s.
Proof. by destruct (close_stream_cases s) as [->|(_ & _ & _ & ->)]. Qed.

Lemma engine_close_stream (s : MapState) :
  poll s ≠ PollDone → engine (close_stream s) = engine s.
Proof. by destruct (close_stream_cases s) as [->|(_ & _ & ? & _)]. Qed.

(** C8: the engine returns, and the poll loop ends, only with
    [have_all_inputs] set and [num_outputs == num_inputs]; the test after
    the inner loop ends the poll loop exactly then (with the assertion on
    [pending_outputs] passing), and the engine returns at that step exactly
    when the two other tasks have ended before; the bare [yield] of a
    finished task makes the outer loop return exactly then; and an empty
    response leads to no exit while the condition is false.  The poll loop
    never ends with anything pending.  A test met with
    [num_outputs > num_inputs] raises; with a server that answers for
    indices of inputs only (for a generator: with no more completion markers
    than inputs) that never happens, and when it also answers no index twice
    nothing is pending at any return. *)
Theorem map_termination (events : list event) :
  let s := run a (map_invocation source w0) events in
  (engine s = Exited → all_outputs_in s)
  ∧ (poll s = PollDone → all_outputs_in s ∧ pending_outputs s = ∅)
  ∧ (engine s = Running → poll s = PollWhile →
     pending_outputs s !! num_outputs s = None →
       (poll (step a s (Run Poll)) = PollDone
        ↔ all_outputs_in s ∧ pending_outputs s = ∅)
       ∧ (¬ all_outputs_in s →
          (have_all_inputs s = true → num_outputs s ≤ num_inputs s) →
          poll (step a s (Run Poll)) = PollCall
          ∧ engine (step a s (Run Poll)) = Running)
       ∧ (have_all_inputs s = true → num_inputs s < num_outputs s →
          poll (step a s (Run Poll)) = PollRaised AssertionError)
       ∧ (engine (step a s (Run Poll)) = Exited
          ↔ drain s = DrainDone ∧ pump s = PumpDone
            ∧ all_outputs_in s ∧ pending_outputs s = ∅))
  ∧ (engine s = Running →
       (drain s = DrainYield →
          (engine (step a s (Deliver Drain)) = Exited ↔ all_outputs_in s))
       ∧ (pump s = PumpYield →
            (engine (step a s (Deliver Pump)) = Exited ↔ all_outputs_in s)))
  ∧ (∀ rest, engine s = Running → poll s = PollCall →
       get_script (world s) = empty_reply :: rest →
       ¬ all_outputs_in s →
       engine (run a s [Run Poll; Run Poll; Run Poll]) = Running
       ∧ poll (run a s [Run Poll; Run Poll; Run Poll]) ≠ PollDone)
  ∧ (map_is_generator a = true →
       pending_outputs s = ∅
       ∧ (markers (engine_received w0 s) ≤ length source →
          have_all_inputs s = true → num_outputs s ≤ num_inputs s))
  ∧ (map_is_generator a = false →
     (∀ item, item ∈ engine_received w0 s → item_idx item < length source) →
       (have_all_inputs s = true → num_outputs s ≤ num_inputs s)
       ∧ (NoDup (map item_idx (engine_received w0 s)) →
          engine s = Exited → pending_outputs s = ∅)).
Proof.
  intros s.
  destruct (run_invariants events) as (_ & Hin & Hex & Hre). fold s in Hin, Hex, Hre.
  destruct Hex as [Hpd Hexit].
  split; [exact Hexit|]. split; [exact Hpd|]. split; [|split; [|split; [|split]]].
  - intros Hrun Hp Hnone.
    assert (Hstep : step a s (Run Poll) = close_stream (set_poll (exit_check s) s)).
    { unfold step. rewrite Hrun. unfold run_poll. by rewrite Hp, Hnone. }
    rewrite Hstep, poll_close_stream. simpl. split; [apply exit_check_done|].
    split; [|split].
    + intros Hnot Hle. rewrite (exit_check_again s Hnot Hle). split; [done|].
      rewrite engine_close_stream; [done|]. simpl. done.
    + apply exit_check_assert.
    + rewrite <- exit_check_done. split.
      * intros Hex.
        destruct (close_stream_cases (set_poll (exit_check s) s))
          as [Heq|(Hd & Hpu & Hpo & _)]; [|done].
        rewrite Heq in Hex. simpl in Hex. congruence.
      * intros (Hd & Hpu & Hx). unfold close_stream. cbn [drain pump poll set_poll].
        by rewrite Hd, Hpu, Hx.
  - intros Hrun. split.
    + intros Hd. unfold step. rewrite Hrun. unfold deliver_drain. rewrite Hd.
      destruct (outer_loop_none_cases s) as [[Hnot ->]|[Hall ->]].
      * unfold is_running. rewrite Hrun. split; [|done].
        destruct (close_stream_cases (set_drain DrainDone s)) as [->|(_ & _ & Hp & ->)].
        -- simpl. by rewrite Hrun.
        -- intros _. simpl in Hp. by apply Hpd in Hp as [? _].
      * done.
    + intros Hd. unfold step. rewrite Hrun. unfold deliver_pump. rewrite Hd.
      destruct (outer_loop_none_cases s) as [[Hnot ->]|[Hall ->]].
      * unfold is_running. rewrite Hrun. split; [|done].
        destruct (close_stream_cases (set_pump PumpDone s)) as [->|(_ & _ & Hp & ->)].
        -- simpl. by rewrite Hrun.
        -- intros _. simpl in Hp. by apply Hpd in Hp as [? _].
      * done.
  - intros rest Hrun Hp Hs Hnot. unfold run. simpl.
    set (s1 := step a s (Run Poll)).
    assert (H1 : poll s1 = PollFor [] ∧ engine s1 = Running
                 ∧ have_all_inputs s1 = have_all_inputs s
                 ∧ num_outputs s1 = num_outputs s ∧ num_inputs s1 = num_inputs s).
    { unfold s1, step. rewrite Hrun. unfold run_poll. rewrite Hp.
      unfold FunctionGetOutputs. rewrite Hs. done. }
    destruct H1 as (Hp1 & Hr1 & Ha1 & Ho1 & Hi1).
    set (s2 := step a s1 (Run Poll)).
    assert (H2 : poll s2 = PollWhile ∧ engine s2 = Running
                 ∧ have_all_inputs s2 = have_all_inputs s
                 ∧ num_outputs s2 = num_outputs s ∧ num_inputs s2 = num_inputs s).
    { unfold s2, step. rewrite Hr1. unfold run_poll. rewrite Hp1. done. }
    destruct H2 as (Hp2 & Hr2 & Ha2 & Ho2 & Hi2).
    unfold step at 1 2. rewrite Hr2. unfold run_poll. rewrite Hp2.
    destruct (pending_outputs s2 !! num_outputs s2); [done|].
    assert (Hx : exit_check s2 ≠ PollDone).
    { intros [[Hall Heq] _]%exit_check_done. apply Hnot. split; congruence. }
    rewrite poll_close_stream, engine_close_stream by done. done.
  - intros Hgen. split; [by apply pending_generator|].
    intros Hmark Hhave.
    destruct (markers_invariant events Hgen) as (_ & _ & made & Hcalls & Hle).
    fold s in Hcalls, Hle. rewrite (engine_received_made s made Hcalls) in Hmark.
    destruct Hin as (Hnum & _ & _ & Hall). rewrite (Hall Hhave) in Hnum.
    simpl in Hnum. lia.
  - intros Hfun Hbound.
    pose proof (outputs_bounded events Hfun Hbound) as Hpop. fold s in Hpop.
    destruct Hin as (Hnum & _ & _ & Hall).
    split.
    + intros Hhave. rewrite (Hall Hhave) in Hnum. simpl in Hnum.
      unfold popped in Hpop. lia.
    + intros Hnd Hexited. destruct (Hexit Hexited) as [Hhave Heq].
      rewrite (Hall Hhave) in Hnum. simpl in Hnum.
      destruct (unique_invariant events Hfun) as (made & Hcalls & Hsub). fold s in Hcalls, Hsub.
      destruct (Hre Hfun) as (made' & Hcalls' & _ & Hpend & _).
      assert (made' = made) as ->.
      { apply (app_inv_head (calls w0)). congruence. }
      rewrite (engine_received_made s made Hcalls) in *.
      apply submseteq_NoDup in Hsub; [|done].
      apply NoDup_app in Hsub as [Hsub _]. apply NoDup_app in Hsub as (_ & Hdisj & _).
      apply dom_empty_iff_L, set_eq. intros k. split; [|by intros ?%elem_of_empty].
      intros Hk. exfalso. apply (Hdisj k).
      * apply elem_of_seq. apply elem_of_dom in Hk as [v Hv].
        destruct (Hpend _ _ Hv) as (item & Hitem & Hidx & _).
        apply Hbound in Hitem. unfold popped. lia.
      * by apply elem_of_elements.
Qed.

(** C6: every PutInputs call, the one of [Invocation.create] as well as
    each of the pump of the map engine, is made with unlimited retries and
    with RESOURCE_EXHAUSTED among the retryable status codes; the FunctionMap
    calls are made with the default policy. *)
Theorem put_inputs_retry_policy :
  (∀ function_id args kwargs cl (w : World) o w',
     Invocation_create function_id args kwargs cl w = (o, w') →
     ∃ made, calls w' = calls w ++ made ∧ Forall policy_ok made
       ∧ (∀ inv, o = Done inv → ∃ cm cp, made = [cm; cp]
            ∧ is_map cm = true ∧ policy cm = default_policy
            ∧ is_put cp = true ∧ max_retries (policy cp) = None
            ∧ RESOURCE_EXHAUSTED ∈ additional_status_codes (policy cp)))
  ∧ (∀ events,
       let s := run a (map_invocation source w0) events in
       Forall policy_ok (engine_calls w0 s)
       ∧ ∀ c, c ∈ engine_calls w0 s →
           (is_put c = true → max_retries (policy c) = None
              ∧ RESOURCE_EXHAUSTED ∈ additional_status_codes (policy c))
           ∧ (is_map c = true → policy c = default_policy)).
Proof.
  split.
  - intros function_id args kwargs cl w o w' Hrun.
    destruct (Invocation_create_calls _ _ _ _ _ _ _ Hrun) as (made & Hcalls & Hok & Hdone).
    exists made. split; [done|]. split; [done|].
    intros inv Hinv. destruct (Hdone inv Hinv) as (_ & fid & item & rm & rp & _ & _ & -> & _).
    eexists _, _. split; [reflexivity|]. simpl. split; [done|]. split; [done|].
    split; [done|]. split; [done|]. apply elem_of_cons. by left.
  - intros events s.
    destruct (run_invariants events) as ((_ & _ & made & Hcalls & Hpol & _) & _).
    fold s in Hcalls.
    assert (Hmade : engine_calls w0 s = made).
    { unfold engine_calls. by rewrite Hcalls, drop_app_length. }
    rewrite Hmade. split; [done|].
    intros c Hc. rewrite Forall_forall in Hpol. specialize (Hpol c Hc).
    unfold policy_ok, is_put, is_map in *. destruct (request c); split; try done.
Qed.
End MapEngine.

(** ** Single calls: what the rest of the API does *)

Section CallApi.
Context `{Runtime}.

Lemma lift_raise {A} (f : fallible A) (e : exn PyObj) :
  lift f = Raise e → ∃ str, e = Foreign str.
Proof. destruct f; simpl; [done|]. intros [= <-]. eauto. Qed.

(** Without a timeout [get_items] goes on polling as long as the responses
    are empty, and a poll that fails ends it with the error of the poll. *)
Lemma get_items_waits (self : Invocation) (w : World) (k : nat) :
  get_script w = repeat empty_reply k →
  ∃ w', get_items self None w = (Pending, w')
        ∧ length (calls w') = length (calls w) + k.
Proof.
  intros Hs. rewrite get_items_unfold.
  destruct (get_items_loop_empties self None (clock w (readings w)) k (tick w) 60 [])
    as (w1 & bt1 & Hloop & Hs1 & _ & _ & Hl1); [by rewrite app_nil_r|done|].
  rewrite Hs, repeat_length. replace (S k) with (k + 1) by lia. rewrite Hloop.
  exists w1. split; [|by rewrite Hl1].
  rewrite get_items_loop_S. unfold bind.
  by rewrite (FunctionGetOutputs_pending _ _ _ _ _ Hs1).
Qed.

Lemma get_items_poll_raises (self : Invocation) (w : World) (k : nat) (e : string) rest :
  get_script w = repeat empty_reply k ++ Throws e :: rest →
  ∃ w', get_items self None w = (Raise (Foreign e), w')
        ∧ length (calls w') = length (calls w) + S k
        ∧ get_script w' = rest.
Proof.
  intros Hs. rewrite get_items_unfold.
  destruct (get_items_loop_empties self None (clock w (readings w)) k (tick w) 60
              (Throws e :: rest)) as (w1 & bt1 & Hloop & Hs1 & _ & _ & Hl1); [done..|].
  rewrite Hs, length_app, repeat_length. cbn [length].
  replace (S (k + S (length rest))) with (k + S (S (length rest))) by lia.
  rewrite Hloop.
  destruct (FunctionGetOutputs_next (function_call_id self) bt1 true default_policy w1 _ _ Hs1)
    as (w2 & Hcall & Hs2 & _ & _ & Hl2).
  exists w2. split; [|split; [|done]].
  - rewrite get_items_loop_S. unfold bind. by rewrite Hcall.
  - rewrite Hl2, length_app, Hl1. unfold tick. cbn [calls length]. lia.
Qed.

(** A script of replies is a run of empty responses, followed by nothing, by
    a failure, or by a response with an output. *)
Lemma script_cases (script : list (fallible (list FunctionGetOutputsItem))) :
  ∃ k, script = repeat empty_reply k
       ∨ (∃ e rest, script = repeat empty_reply k ++ Throws e :: rest)
       ∨ (∃ item items rest,
            script = repeat empty_reply k ++ Returns (item :: items) :: rest).
Proof.
  induction script as [|r script [k IH]]; [by exists 0; left|].
  destruct r as [[|item items]|e].
  - exists (S k). destruct IH as [->|[(e & rest & ->)|(item & items & rest & ->)]];
      [by left|right; left|right; right]; eauto.
  - exists 0. right. right. by exists item, items, script.
  - exists 0. right. left. by exists e, script.
Qed.

(** Without a timeout every poll of [get_items] asks for 60 s. *)
Lemma get_items_unbounded_polls (self : Invocation) (w : World) o w' :
  get_items self None w = (o, w') →
  ∃ polls, calls w' = calls w ++ polls
    ∧ Forall (λ c, request c = FunctionGetOutputsRequest (function_call_id self) 60 true
                   ∧ policy c = default_policy) polls.
Proof.
  rewrite get_items_unfold. intros Hrun.
  apply get_items_loop_calls in Hrun as (polls & Hcalls & Hpolls).
  exists polls. split; [done|]. apply Forall_lookup. intros j c Hc.
  destruct (Hpolls j c Hc) as [Hreq Hpol]. split; [|done].
  rewrite Hreq. by destruct j.
Qed.

(** X1: [run_function] waits for the first response that has an output and
    reads its first item.  However the server answers, the call does one of
    three things: it goes on polling while the responses are empty; it ends
    with the error of a poll that failed; or, at the first response with an
    output, it decodes the first item when its generator status is unset,
    and fails the assertion of line 151 when it is set.  So the indexing of
    line 150 never fails, and there is no timeout. *)
Theorem run_function_first_item (self : Invocation) (w : World) :
  (∃ k, get_script w = repeat empty_reply k
        ∨ (∃ e rest, get_script w = repeat empty_reply k ++ Throws e :: rest)
        ∨ (∃ item items rest,
             get_script w = repeat empty_reply k ++ Returns (item :: items) :: rest))
  ∧ ∀ k,
      (get_script w = repeat empty_reply k →
         ∃ w', run_function self w = (Pending, w')
               ∧ length (calls w') = length (calls w) + k)
      ∧ (∀ e rest,
           get_script w = repeat empty_reply k ++ Throws e :: rest →
           ∃ w', run_function self w = (Raise (Foreign e), w')
                 ∧ length (calls w') = length (calls w) + S k
                 ∧ get_script w' = rest)
      ∧ (∀ item items rest,
           get_script w = repeat empty_reply k ++ Returns (item :: items) :: rest →
           ∃ w', run_function self w =
                   (if bool_decide (gen_status (result item) = GENERATOR_STATUS_UNSPECIFIED)
                    then _process_result (result item) else Raise AssertionError, w')
                 ∧ length (calls w') = length (calls w) + S k
                 ∧ get_script w' = rest).
Proof.
  split; [apply script_cases|]. intros k. split; [|split].
  - intros Hs. destruct (get_items_waits self w k Hs) as (w' & Hget & Hlen).
    exists w'. split; [|done]. unfold run_function, bind. by rewrite Hget.
  - intros e rest Hs.
    destruct (get_items_poll_raises self w k e rest Hs) as (w' & Hget & Hlen).
    exists w'. split; [|done]. unfold run_function, bind. by rewrite Hget.
  - intros item items rest Hs.
    destruct (get_items_first_output self None w k (item :: items) rest Hs)
      as (w' & Hget & Hlen & Hrest); [done|done|].
    exists w'. split; [|done]. unfold run_function, bind. rewrite Hget. simpl.
    by case_bool_decide.
Qed.

(** X2: [get(timeout=None)] waits.  On a handle without a client it fails
    before anything is sent.  On any other handle it polls the call whose id
    the handle holds (the empty id when it holds none), 60 s at a time: it
    goes on polling while the responses are empty, ends with the error of a
    poll that failed, or ends with what the decoder makes of the first item
    of the first response that has an output, whatever its generator
    status.  The [TimeoutError] of line 158 is not among these. *)
Theorem FunctionCall_get_waits (h : _FunctionCall) (w : World) :
  (_client h = None →
     FunctionCall_get h None w = (Raise (Foreign "AttributeError"), w))
  ∧ (is_Some (_client h) →
     (∀ o w', FunctionCall_get h None w = (o, w') →
        ∃ polls, calls w' = calls w ++ polls
          ∧ Forall (λ c, request c
                         = FunctionGetOutputsRequest (default "" (_object_id h)) 60 true)
              polls)
     ∧ ∀ k,
         (get_script w = repeat empty_reply k →
            ∃ w', FunctionCall_get h None w = (Pending, w')
                  ∧ length (calls w') = length (calls w) + k)
         ∧ (∀ e rest,
              get_script w = repeat empty_reply k ++ Throws e :: rest →
              ∃ w', FunctionCall_get h None w = (Raise (Foreign e), w')
                    ∧ length (calls w') = length (calls w) + S k
                    ∧ get_script w' = rest)
         ∧ (∀ item items rest,
              get_script w = repeat empty_reply k ++ Returns (item :: items) :: rest →
              ∃ w', FunctionCall_get h None w = (_process_result (result item), w')
                    ∧ length (calls w') = length (calls w) + S k
                    ∧ get_script w' = rest)).
Proof.
  split; [by unfold FunctionCall_get, bind, pure_call, _invocation; intros ->|].
  intros [c Hc].
  set (self := {| client := c; function_call_id := default "" (_object_id h) |}).
  assert (Hget : FunctionCall_get h None w = poll_function self None w).
  { unfold FunctionCall_get, bind, pure_call, _invocation. by rewrite Hc. }
  rewrite Hget. split.
  - intros o w' Hrun. unfold poll_function, bind in Hrun.
    destruct (get_items self None w) as [o1 w1] eqn:Hitems.
    apply get_items_unbounded_polls in Hitems as (polls & Hcalls & Hpolls).
    assert (w' = w1) as ->.
    { destruct o1 as [items|e|]; [|by injection Hrun..].
      destruct (length items =? 0); [by injection Hrun|].
      destruct items; by injection Hrun. }
    exists polls. split; [done|].
    eapply Forall_impl; [exact Hpolls|]. by intros ? [? _].
  - intros k. split; [|split].
    + intros Hs. destruct (get_items_waits self w k Hs) as (w' & Hitems & Hlen).
      exists w'. split; [|done]. unfold poll_function, bind. by rewrite Hitems.
    + intros e rest Hs.
      destruct (get_items_poll_raises self w k e rest Hs) as (w' & Hitems & Hlen).
      exists w'. split; [|done]. unfold poll_function, bind. by rewrite Hitems.
    + intros item items rest Hs.
      destruct (get_items_first_output self None w k (item :: items) rest Hs)
        as (w' & Hitems & Hlen & Hrest); [done|done|].
      exists w'. split; [|done]. unfold poll_function, bind. by rewrite Hitems.
Qed.

(** The polls of [get_items] carry the id of the call. *)
Lemma get_items_calls (self : Invocation) (timeout : option Q) (w : World) o w' :
  get_items self timeout w = (o, w') →
  ∃ polls, calls w' = calls w ++ polls
    ∧ Forall (λ c, ∃ bt, request c = FunctionGetOutputsRequest (function_call_id self) bt true)
        polls.
Proof.
  rewrite get_items_unfold. intros Hrun.
  apply get_items_loop_calls in Hrun as (polls & Hcalls & Hpolls).
  exists polls. split; [done|]. apply Forall_lookup. intros j c Hc.
  destruct (Hpolls j c Hc) as [Hreq _]. eauto.
Qed.

(** X3: [Invocation.create] calls nothing for a function that has no id, and
    submits its input only to a call that [FunctionMap] has opened: a
    PutInputs request in the log follows the FunctionMap call, carries the
    id it returned and the one input, encoded without index. *)
Theorem Invocation_create_protocol (function_id : option string) (a kw : PyObj)
    (cl : Client) (w : World) :
  let '(o, w') := Invocation_create function_id a kw cl w in
  (id_truthy function_id = false →
     o = Raise (InvalidError not_initialized) ∧ w' = w)
  ∧ ∃ made, calls w' = calls w ++ made
      ∧ ∀ c, c ∈ made → is_put c = true →
          ∃ fid id item,
            function_id = Some fid
            ∧ _create_input a kw None = Done item
            ∧ request c = FunctionPutInputsRequest fid [item] id
            ∧ made = [ {| request := FunctionMapRequest fid; policy := default_policy;
                          reply := Returns (FunctionMapResponse id) |}; c ].
Proof.
  destruct (Invocation_create function_id a kw cl w) as [o w'] eqn:Hrun.
  unfold Invocation_create in Hrun.
  assert (Hnone : w' = w → ∃ made, calls w' = calls w ++ made
      ∧ ∀ c, c ∈ made → is_put c = true →
          ∃ fid id item,
            function_id = Some fid
            ∧ _create_input a kw None = Done item
            ∧ request c = FunctionPutInputsRequest fid [item] id
            ∧ made = [ {| request := FunctionMapRequest fid; policy := default_policy;
                          reply := Returns (FunctionMapResponse id) |}; c ]).
  { intros ->. exists []. rewrite app_nil_r. split; [done|]. by intros c ?%elem_of_nil. }
  destruct function_id as [fid|]; [|injection Hrun as <- <-; split; [done|by apply Hnone]].
  destruct (id_truthy (Some fid)) eqn:Hid;
    [|injection Hrun as <- <-; split; [done|by apply Hnone]].
  split; [done|].
  unfold bind at 1 in Hrun.
  destruct (map_script w) as [|rm rest] eqn:Hms.
  { unfold FunctionMap in Hrun. rewrite Hms in Hrun. injection Hrun as <- <-.
    by apply Hnone. }
  destruct (FunctionMap_next fid default_policy w rm rest Hms)
    as (w1 & Hcall & _ & Hps1 & _ & Hl1).
  rewrite Hcall in Hrun. clear Hnone.
  assert (Hmap : ∃ made, calls w1 = calls w ++ made
      ∧ ∀ c, c ∈ made → is_put c = true →
          ∃ fid' id item,
            Some fid = Some fid'
            ∧ _create_input a kw None = Done item
            ∧ request c = FunctionPutInputsRequest fid' [item] id
            ∧ made = [ {| request := FunctionMapRequest fid'; policy := default_policy;
                          reply := Returns (FunctionMapResponse id) |}; c ]).
  { eexists. split; [exact Hl1|]. by intros c [->|?%elem_of_nil]%elem_of_cons. }
  destruct rm as [id|e]; simpl in Hrun; [|by injection Hrun as <- <-].
  unfold bind at 1, pure_call at 1 in Hrun.
  destruct (_create_input a kw None) as [item|e|] eqn:Hitem;
    [|by injection Hrun as <- <-..].
  unfold bind at 1 in Hrun.
  destruct (put_script w1) as [|rp rest'] eqn:Hps.
  { unfold FunctionPutInputs in Hrun. rewrite Hps in Hrun. by injection Hrun as <- <-. }
  destruct (FunctionPutInputs_next fid [item] id put_policy w1 rp rest' Hps)
    as (w2 & Hcall2 & _ & _ & _ & Hl2).
  rewrite Hcall2 in Hrun. clear Hmap.
  assert (w' = w2) as ->.
  { destruct rp as [[]|e]; simpl in Hrun; by injection Hrun as <- <-. }
  eexists. split; [rewrite Hl2, Hl1, <- app_assoc; reflexivity|].
  intros c [->|[->|?%elem_of_nil]%elem_of_cons]%elem_of_cons Hput; [done| |done].
  exists fid, id, item. done.
Qed.

(** X4: the handle [submit] returns polls the call that [submit] opened:
    [get] on it is [poll_function] on the id [FunctionMap] returned, and
    every request it sends carries that id. *)
Theorem submit_then_get (proc : Process) (f : _Function) (a kw : PyObj)
    (w w' : World) (h : _FunctionCall) (timeout : option Q) :
  submit proc f a kw w = (Done (Some h), w') →
  ∃ cl id cm cp,
    calls w' = calls w ++ [cm; cp]
    ∧ reply cm = Returns (FunctionMapResponse id)
    ∧ FunctionCall_get h timeout w'
      = poll_function {| client := cl; function_call_id := id |} timeout w'
    ∧ ∃ polls,
        calls (FunctionCall_get h timeout w').2 = calls w' ++ polls
        ∧ Forall (λ c, ∃ bt, request c = FunctionGetOutputsRequest id bt true) polls.
Proof.
  unfold submit. destruct (_is_generator f).
  { unfold bind. by destruct (call_generator_nowait proc f a kw w) as [[?|?|] ?]. }
  unfold bind at 1.
  destruct (call_function_nowait proc f a kw w) as [[inv|e|] w1] eqn:Hcall; [|done..].
  intros [= <- <-].
  unfold call_function_nowait, bind, pure_call in Hcall.
  destruct (_get_context proc f) as [[cl oid]|e|]; [|done..].
  apply Invocation_create_calls in Hcall as (new & Hcalls & _ & Hdone).
  destruct (Hdone inv eq_refl) as (_ & fid & item & rm & rp & _ & _ & -> & ->).
  exists (client inv), (function_call_id inv). eexists _, _.
  split; [exact Hcalls|]. split; [done|].
  assert (Hget : FunctionCall_get
      {| _client := Some (client inv); _object_id := Some (function_call_id inv) |}
      timeout w1
    = poll_function {| client := client inv; function_call_id := function_call_id inv |}
        timeout w1) by done.
  split; [done|]. rewrite Hget. unfold poll_function, bind.
  destruct (get_items _ timeout w1) as [o w2] eqn:Hitems.
  apply get_items_calls in Hitems as (polls & Hpolls & Hall).
  exists polls. split; [|done].
  destruct o as [items|e|]; [|done..].
  destruct (length items =? 0); [done|]. by destruct items.
Qed.

(** X5: a function that has no id of its own and no running app cannot be
    called from a local process: every entry point raises [InvalidError]
    and sends nothing. *)
Theorem call_outside_app (proc : Process) (f : _Function) (a kw : PyObj) (w : World) :
  is_local proc = true → _local_app f = None →
  _client (base f) = None ∨ id_truthy (_object_id (base f)) = false →
  call_function proc f a kw w = (Raise (InvalidError app_is_not_running), w)
  ∧ submit proc f a kw w = (Raise (InvalidError app_is_not_running), w)
  ∧ enqueue proc f a kw w = (Raise (InvalidError app_is_not_running), w)
  ∧ call_generator proc f a kw w = (([], Raise (InvalidError app_is_not_running)), w)
  ∧ ∀ inputs events,
      starmap proc f inputs kw w events = Raise (InvalidError app_is_not_running).
Proof.
  intros Hlocal Happ Hown.
  assert (Hctx : _get_context proc f = Raise (InvalidError app_is_not_running)).
  { unfold _get_context. rewrite Hlocal, Happ.
    destruct Hown as [->| ->]; [done|]. by destruct (_client (base f)). }
  unfold call_function, submit, enqueue, call_generator, starmap, _map,
    call_function_nowait, call_generator_nowait, bind, pure_call.
  rewrite Hctx. simpl. by destruct (_is_generator f).
Qed.

(** X6: [enqueue] is [submit] without the handle: it sends what [submit]
    sends and ends as [submit] ends. *)
Theorem enqueue_as_submit (proc : Process) (f : _Function) (a kw : PyObj) (w : World) :
  enqueue proc f a kw w
  = (match (submit proc f a kw w).1 with
     | Done _ => Done tt
     | Raise e => Raise e
     | Pending => Pending
     end, (submit proc f a kw w).2).
Proof.
  unfold enqueue, submit, call_generator_nowait, call_function_nowait, bind.
  destruct (_is_generator f);
    destruct (pure_call (_get_context proc f) w) as [[[cl oid]|e|] w1]; try done;
    by destruct (Invocation_create oid a kw cl w1) as [[inv|e|] w2].
Qed.

(** X7: the two channels of a payload agree.  When the blob store gives back
    what was uploaded, a successful result that carries the payload of an
    encoded input, inline or as a blob, decodes to what the codec makes of
    the serialized arguments. *)
Theorem payload_channels_agree (a kw : PyObj) (i : option nat)
    (item : FunctionPutInputsItem) (r : GenericResult) :
  _create_input a kw i = Done item →
  (∀ id, blob_upload (serialize a kw) = Returns id →
         blob_download id = Returns (serialize a kw)) →
  status r = GENERIC_STATUS_SUCCESS →
  result_data r = carried (input item) →
  _process_result r = lift (deserialize (serialize a kw)).
Proof.
  intros Hitem Hstore Hok Hdata. unfold _create_input in Hitem.
  unfold _process_result, fetch_data. rewrite Hdata, Hok.
  destruct (_ <? _).
  - destruct (blob_upload _) as [id|e] eqn:Hup; simpl in Hitem; [|done].
    injection Hitem as <-. simpl. by rewrite (Hstore id eq_refl).
  - by injection Hitem as <-.
Qed.

(** X8: a call [f(args)] of a function of a running local app, from the
    first request to the result.  The id behind the tag of the function
    goes to [FunctionMap]; the one input goes to the call it opened; the
    polls that follow, one for each empty response and one more, ask that
    call for 60 s; and the first item that comes back, whose generator
    status is unset as line 151 asserts, is decoded. *)
Theorem call_function_trace (proc : Process) (f : _Function) (app : App) (a kw : PyObj)
    (w : World) (fid id : string) (input : FunctionPutInputsItem) (k : nat)
    (item : FunctionGetOutputsItem) items mrest prest grest :
  _object_id (base f) = None →
  is_local proc = true → _local_app f = Some app →
  app_objects app !! _tag f = Some (Some fid) → fid ≠ "" →
  _create_input a kw None = Done input →
  map_script w = Returns id :: mrest →
  put_script w = Returns () :: prest →
  get_script w = repeat empty_reply k ++ Returns (item :: items) :: grest →
  gen_status (result item) = GENERATOR_STATUS_UNSPECIFIED →
  ∃ w' polls,
    call_function proc f a kw w = (_process_result (result item), w')
    ∧ calls w' = calls w
        ++ [ {| request := FunctionMapRequest fid; policy := default_policy;
                reply := Returns (FunctionMapResponse id) |};
             {| request := FunctionPutInputsRequest fid [input] id; policy := put_policy;
                reply := Returns FunctionPutInputsResponse |} ]
        ++ polls
    ∧ length polls = S k
    ∧ Forall (λ c, request c = FunctionGetOutputsRequest id 60 true
                   ∧ policy c = default_policy) polls.
Proof.
  intros Hown Hlocal Happ Htag Hfid Hinput Hmap Hput Hget Hgen.
  assert (Hctx : _get_context proc f = Done (app_client app, Some fid)).
  { unfold _get_context. rewrite Hown, Hlocal, Happ. simpl. unfold app_lookup.
    rewrite Htag. by destruct (_client (base f)). }
  unfold call_function, bind at 1, pure_call. rewrite Hctx.
  unfold Invocation_create.
  assert (id_truthy (Some fid) = true) as -> by (simpl; by case_bool_decide).
  destruct (FunctionMap_next fid default_policy w _ _ Hmap)
    as (w1 & Hcall1 & _ & Hput1 & Hget1 & Hlog1).
  rewrite Hput in Hput1.
  destruct (FunctionPutInputs_next fid [input] id put_policy w1 _ _ Hput1)
    as (w2 & Hcall2 & _ & _ & Hget2 & Hlog2).
  unfold bind at 1. unfold bind at 1. rewrite Hcall1. simpl.
  unfold bind at 1, pure_call. rewrite Hinput.
  unfold bind at 1. rewrite Hcall2. simpl. unfold ret.
  set (inv := {| client := app_client app; function_call_id := id |}).
  rewrite Hget1, Hget in Hget2.
  destruct (get_items_first_output inv None w2 k (item :: items) grest Hget2)
    as (w3 & Hitems & Hlen & _); [done|done|].
  destruct (get_items_unbounded_polls inv w2 _ _ Hitems) as (polls & Hlog3 & Hpolls).
  exists w3, polls. unfold run_function, bind. rewrite Hitems. simpl.
  rewrite bool_decide_true by done. split; [done|].
  split; [by rewrite Hlog3, Hlog2, Hlog1, <- !app_assoc|].
  split; [|done]. rewrite Hlog3, length_app in Hlen. lia.
Qed.

End CallApi.

(** ** Generators that fail *)

Section GeneratorFailure.
Context `{Runtime}.
Variable self : Invocation.

Lemma consume_items_failure pre c post ys e :
  Forall (λ r, gen_status r ≠ GENERATOR_STATUS_COMPLETE) pre →
  gen_status c ≠ GENERATOR_STATUS_COMPLETE →
  _process_result c = Raise e →
  Forall2 (λ r y, _process_result r = Done y) pre ys →
  consume_items (pre ++ c :: post) = (ys, Raise e).
Proof.
  intros Hpre Hc He Hys. induction Hys as [|r y pre ys Hr Hys IH]; simpl.
  - rewrite bool_decide_eq_false_2 by done. by rewrite He.
  - apply Forall_cons in Hpre as [Hn Hpre].
    rewrite bool_decide_eq_false_2 by done. rewrite Hr, (IH Hpre). done.
Qed.

Lemma run_generator_loop_failure (fuel : nat) :
  ∀ (w : World) responses later pre c post ys e,
    get_script w = map Returns responses ++ later →
    stream_of responses = pre ++ c :: post →
    Forall (λ r, gen_status r ≠ GENERATOR_STATUS_COMPLETE) pre →
    gen_status c ≠ GENERATOR_STATUS_COMPLETE →
    _process_result c = Raise e →
    Forall2 (λ r y, _process_result r = Done y) pre ys →
    length responses ≤ fuel →
    ∃ w', run_generator_loop fuel self w = ((ys, Raise e), w').
Proof.
  induction fuel as [|fuel IH];
    intros w responses later pre c post ys e Hs Hstr Hpre Hc He Hys Hlen.
  { destruct responses; [|simpl in Hlen; lia]. by destruct pre. }
  destruct (leading_empties responses) as [Hall|(k & outputs & rest & -> & Hne)].
  { rewrite Hall, stream_of_empties in Hstr. by destruct pre. }
  rewrite map_app, map_repeat, <- app_assoc in Hs. cbn [map app] in Hs.
  destruct (get_items_first_output self None w k outputs (map Returns rest ++ later) Hs Hne)
    as (w1 & Hget & _ & Hs1); [done|].
  simpl. rewrite Hget.
  unfold stream_of in Hstr. rewrite map_app, concat_app in Hstr.
  fold (stream_of (repeat [] k)) in Hstr. rewrite stream_of_empties in Hstr.
  cbn [map concat app] in Hstr. fold (stream_of rest) in Hstr.
  apply app_eq_inv in Hstr as [(mid & Hout & Hrest)|(mid & Hprefix & Hrest)].
  - destruct mid as [|x mid].
    + rewrite app_nil_r in Hout. simpl in Hrest. subst pre.
      rewrite (consume_items_all _ ys Hpre Hys).
      rewrite length_app, repeat_length in Hlen. simpl in Hlen.
      destruct (IH w1 rest later [] c post [] e Hs1 (eq_sym Hrest)) as (w' & Hrun);
        try done.
      { lia. }
      rewrite Hrun. exists w'. by rewrite app_nil_r.
    + injection Hrest as <- Hpost. rewrite Hout.
      rewrite (consume_items_failure pre c mid ys e Hpre Hc He Hys). by exists w1.
  - subst pre. apply Forall_app in Hpre as [Hpre1 Hpre2].
    apply Forall2_app_inv_l in Hys as (ys1 & ys2 & Hys1 & Hys2 & ->).
    rewrite (consume_items_all _ ys1 Hpre1 Hys1).
    rewrite length_app, repeat_length in Hlen. simpl in Hlen.
    destruct (IH w1 rest later mid c post ys2 e Hs1 Hrest Hpre2 Hc He Hys2) as (w' & Hrun);
      [lia|].
    rewrite Hrun. by exists w'.
Qed.

(** X9: a generator that fails.  When the first item that is no completion
    marker and does not decode comes after items that do, [run_generator]
    yields the values of those, in arrival order, and then raises the error
    of that item; what arrives later is not looked at. *)
Theorem run_generator_failure (w : World) responses later pre c post ys e :
  get_script w = map Returns responses ++ later →
  stream_of responses = pre ++ c :: post →
  Forall (λ r, gen_status r ≠ GENERATOR_STATUS_COMPLETE) pre →
  gen_status c ≠ GENERATOR_STATUS_COMPLETE →
  _process_result c = Raise e →
  Forall2 (λ r y, _process_result r = Done y) pre ys →
  ∃ w', run_generator self w = ((ys, Raise e), w').
Proof.
  intros Hs Hstr Hpre Hc He Hys. unfold run_generator.
  eapply run_generator_loop_failure; eauto.
  rewrite Hs, length_app, length_map. lia.
Qed.

End GeneratorFailure.

Section DecoderSuccess.
Context `{Runtime}.

(** X10: a successful result.  Its payload, fetched from the blob store when
    the result names a blob and empty when the result has none, goes to
    the codec; what [_process_result] returns or raises is what the blob
    store or the codec returns or raises, never an error of this module. *)
Theorem process_result_success (r : GenericResult) :
  status r = GENERIC_STATUS_SUCCESS →
  _process_result r
  = match result_data r with
    | data_unset => lift (deserialize [])
    | data b => lift (deserialize b)
    | data_blob_id id =>
        match blob_download id with
        | Returns b => lift (deserialize b)
        | Throws str => Raise (Foreign str)
        end
    end
  ∧ ∀ e, _process_result r = Raise e → ∃ str, e = Foreign str.
Proof.
  intros Hok.
  assert (Heq : _process_result r
    = match result_data r with
      | data_unset => lift (deserialize [])
      | data b => lift (deserialize b)
      | data_blob_id id =>
          match blob_download id with
          | Returns b => lift (deserialize b)
          | Throws str => Raise (Foreign str)
          end
      end).
  { unfold _process_result, fetch_data. rewrite Hok.
    destruct (result_data r) as [|b|id]; [done..|]. by destruct (blob_download id). }
  split; [done|]. intros e. rewrite Heq.
  destruct (result_data r) as [|b|id]; [apply lift_raise..|].
  destruct (blob_download id); [apply lift_raise|]. intros [= <-]. eauto.
Qed.

End DecoderSuccess.

(** ** The map engine: protocol, streaming and failures *)

Section MapProtocol.
Context `{Runtime}.
Variable a : MapArgs.
Variable source : list PyObj.
Variable w0 : World.

Ltac unfold_step :=
  unfold step, start, run_drain, run_pump, run_poll, deliver_drain, deliver_pump,
    deliver_poll, FunctionMap, FunctionPutInputs, FunctionGetOutputs,
    queue_batch_iterator.

Ltac open_guards :=
  repeat match goal with
  | H : context [outer_loop_none ?s] |- _ =>
      let E := fresh "Hexit" in let R := fresh "Hnone" in
      destruct (outer_loop_none_cases s) as [[E R]|[E R]]; rewrite R in *; clear R
  | |- context [outer_loop_none ?s] =>
      let E := fresh "Hexit" in let R := fresh "Hnone" in
      destruct (outer_loop_none_cases s) as [[E R]|[E R]]; rewrite R in *; clear R
  | |- context [close_stream ?s] =>
      let R := fresh "Hclose" in
      destruct (close_stream_cases s) as [R|(? & ? & ? & R)]; rewrite R in *; clear R
  end.

Ltac step_split := unfold_step; repeat case_match; simplify_eq; open_guards.

Lemma inv_protocol_init : inv_protocol a source w0 (map_invocation source w0).
Proof. exists []. rewrite app_nil_r. split; [done|]. by left. Qed.

Lemma inv_protocol_step (s : MapState) (e : event) :
  inv_protocol a source w0 s → inv_protocol a source w0 (step a s e).
Proof.
  intros Hinv.
  step_split; try done;
    destruct Hinv as (made & Hcalls & Hcase);
    unfold inv_protocol; simpl.
  all: try (match goal with He : engine _ = Running |- _ =>
      destruct Hcase as [[Hst _]|[(str & Hst & _)|(_ & rest & -> & Hrest)]];
        [congruence|congruence|] end).
  all: try (match goal with He : engine _ = Starting |- _ =>
      destruct Hcase as [(_ & -> & Hy & Hs & Hn)|[(str & Hst & _)|(Hst & _)]];
        [|congruence|congruence] end).
  all: (eexists; split;
      [first [exact Hcalls | rewrite Hcalls, <- app_assoc; reflexivity
             | rewrite Hcalls; reflexivity]|]).
  (* the call is opened, or fails to be *)
  1: { destruct f; simplify_eq/=. right. right. split; [done|]. by exists []. }
  1: { destruct f; simplify_eq/=. right. left. by exists str. }
  (* the tasks *)
  all: right; right; (split; [congruence|]); eexists;
    (split; [first [reflexivity | simpl; reflexivity]|]); try done.
  all: apply Forall_app; (split; [done|]); apply Forall_singleton; by unfold call_of.
Qed.

(** X11: the protocol of a map, on every schedule.  Nothing is sent before
    [FunctionMap]; it is called once, for the function id as it is given;
    when it fails the map fails with its error, and no task has started:
    nothing was read from the source and nothing yielded; when it returns,
    every later call is a batch for that function and the call id returned,
    or a poll of that call id with a timeout of 60 s that may come back
    empty, both retried without limit. *)
Theorem map_call_protocol (events : list event) :
  let s := run a (map_invocation source w0) events in
  (engine s = Starting ∧ engine_calls w0 s = [])
  ∨ (∃ str, engine s = Failed (Foreign str)
       ∧ engine_calls w0 s = [map_call a (Throws str)]
       ∧ yielded s = [] ∧ input_stream s = source ∧ num_inputs s = 0)
  ∨ (∃ rest, engine_calls w0 s = map_call a (Returns (call_id s)) :: rest
       ∧ Forall (call_of a (call_id s)) rest).
Proof.
  intros s.
  assert (Hinv : inv_protocol a source w0 s).
  { apply run_ind; [apply inv_protocol_init|apply inv_protocol_step]. }
  destruct Hinv as (made & Hcalls & Hcase).
  unfold engine_calls. rewrite Hcalls, drop_app_length.
  destruct Hcase as [(? & ? & _)|[?|[_ ?]]]; auto.
Qed.

Lemma values_of_app (l k : list FunctionGetOutputsItem) :
  values_of (l ++ k) = values_of l ++ values_of k.
Proof. apply filter_app. Qed.

Lemma values_of_marker (item : FunctionGetOutputsItem) :
  is_marker item = true → values_of [item] = [].
Proof. intros Hm. unfold values_of. rewrite filter_cons_False; [done|congruence]. Qed.

Lemma values_of_value (item : FunctionGetOutputsItem) :
  is_marker item = false → values_of [item] = [item].
Proof. intros Hm. unfold values_of. by rewrite filter_cons_True. Qed.

Lemma inv_stream_init : inv_stream w0 (map_invocation source w0).
Proof.
  split; [done|]. split; [done|]. exists [], [], [], []. simpl.
  rewrite app_nil_r. repeat split; try done; constructor.
Qed.

Lemma inv_stream_step (s : MapState) (e : event) :
  map_is_generator a = true → inv_stream w0 s → inv_stream w0 (step a s e).
Proof.
  intros Hgen Hinv.
  step_split; try done;
    destruct Hinv as (Hempty & Hpop & made & seen & held & rest & Hcalls & Hrec & Hrest
                      & Hheld & Hval & Hseen & Hnum);
    unfold inv_stream, popped, unprocessed in *; simpl;
    try (match goal with Hp : poll _ = _ |- _ =>
           rewrite Hp in Hpop, Hrest, Hheld; try rewrite Hp end);
    try (match goal with Hk : pending_outputs _ !! _ = Some _ |- _ =>
           by rewrite Hempty, lookup_empty in Hk end);
    try (destruct (exit_check_cases s) as [Hx|[(Hx & _)|Hx]]; rewrite Hx);
    simpl in *; try lia;
    (split; [done|]); (split; [try done; lia|]).
  (* the other tasks, and the steps of the poll task between two items *)
  all: try (by (eexists _, seen, held, rest;
      (split; [first [exact Hcalls | rewrite Hcalls, <- app_assoc; reflexivity]|]);
      rewrite ?received_by_snoc, ?outputs_of_map, ?outputs_of_put, ?app_nil_r;
      repeat split; try done; intros []%Hrest; done)).
  - (* a response arrives *)
    apply Forall2_nil_inv_r in Hheld as ->. rewrite (Hrest I) in Hrec.
    destruct f as [outputs|str]; [|done].
    match goal with Hl : lift _ = _ |- _ => simpl in Hl; injection Hl as <- end.
    eexists _, seen, [], outputs.
    split; [rewrite Hcalls, <- app_assoc; reflexivity|].
    rewrite received_by_snoc, Hrec, app_nil_r. by repeat split.
  - (* the poll fails *)
    destruct f as [outputs|str]; [done|].
    eexists _, seen, held, rest.
    split; [rewrite Hcalls, <- app_assoc; reflexivity|].
    rewrite received_by_snoc, Hrec. simpl. rewrite app_nil_r. by repeat split.
  - (* line 261: a completion marker is counted *)
    apply Forall2_nil_inv_r in Hheld as ->. rewrite (Hrest I) in Hrec.
    assert (Hm : is_marker f = true) by done.
    exists made, (seen ++ [f]), [], l. split; [done|].
    split; [by rewrite Hrec, <- app_assoc|].
    rewrite values_of_app, markers_app, (values_of_marker f Hm), app_nil_r.
    simpl. rewrite Hm. repeat split; try done. lia.
  - (* lines 263-265: a value is decoded and handed over *)
    apply Forall2_nil_inv_r in Hheld as ->. rewrite (Hrest I) in Hrec.
    exists made, seen, [f], l. repeat split; try done.
    + by repeat constructor.
    + by repeat constructor.
  - (* the value reaches the caller *)
    apply Forall2_cons_inv_r in Hheld as (item & held' & Hdec & ->%Forall2_nil_inv_r & ->).
    apply Forall_inv in Hval.
    exists made, (seen ++ [item]), [], items. split; [done|].
    split; [by rewrite Hrec, (Hrest I), <- app_assoc|].
    rewrite values_of_app, markers_app, (values_of_value item Hval). simpl.
    rewrite Hval. repeat split; try done; [|lia].
    apply Forall2_app; [done|]. by repeat constructor.
Qed.

(** X12: a map over a generator yields as it receives.  On every schedule the
    values yielded so far are the decoded items, completion markers left
    out, of a first part of what was received, in the order of arrival;
    [num_outputs] counts the markers of that part; and when the map has
    returned they are as many as the inputs. *)
Theorem map_generator_stream (events : list event) :
  let s := run a (map_invocation source w0) events in
  map_is_generator a = true →
  ∃ seen, seen `prefix_of` engine_received w0 s
    ∧ Forall2 decodes (values_of seen) (yielded s)
    ∧ num_outputs s = markers seen
    ∧ (engine s = Exited → markers seen = length source).
Proof.
  intros s Hgen.
  assert (Hinv : inv_stream w0 s).
  { apply run_ind; [apply inv_stream_init|]. intros. by apply inv_stream_step. }
  destruct Hinv as (_ & _ & made & seen & held & rest & Hcalls & Hrec & _ & _ & _
                    & Hseen & Hnum).
  exists seen. rewrite (engine_received_made w0 s made Hcalls), Hrec.
  split; [by eexists|]. split; [done|]. split; [done|].
  intros Hexit. rewrite <- Hnum.
  destruct (run_invariants a source w0 events) as (_ & Hin & Hex & _).
  fold s in Hin, Hex. destruct Hex as (_ & Hex). destruct (Hex Hexit) as [Hall ->].
  destruct Hin as (Hlen & _ & _ & Hstream). rewrite (Hstream Hall) in Hlen.
  simpl in Hlen. lia.
Qed.


Lemma create_input_raise (arg kw : PyObj) (i : option nat) (e : exn PyObj) :
  _create_input arg kw i = Raise e →
  ∃ str, MAX_OBJECT_SIZE_BYTES < length (serialize arg kw)
         ∧ blob_upload (serialize arg kw) = Throws str ∧ e = Foreign str.
Proof.
  unfold _create_input. destruct (_ <? _) eqn:Hlen; [|done].
  apply Nat.ltb_lt in Hlen.
  destruct (blob_upload _) as [id|str]; simpl; [done|]. intros [= <-]. eauto.
Qed.

Lemma failure_of_mono (made new : list RpcCall) (e : exn PyObj) :
  failure_of a source made e → failure_of a source (made ++ new) e.
Proof.
  intros [(c & str & Hc & ?)|[?|[?|(item & Hin & Hdec)]]].
  - left. exists c, str. split; [|done]. apply elem_of_app. by left.
  - by right; left.
  - by right; right; left.
  - right. right. right. exists item. split; [|done].
    unfold received_by. rewrite map_app, concat_app. apply elem_of_app. by left.
Qed.

Lemma failure_of_reply {A} (f : fallible A) (g : A → Response) (made : list RpcCall)
    (req : Request) (pol : RetryPolicy) (e : exn PyObj) :
  lift f = Raise e →
  failure_of a source
    (made ++ [{| request := req; policy := pol; reply := fmap_fallible g f |}]) e.
Proof.
  destruct f as [x|str]; cbn [lift fmap_fallible]; [discriminate|]. intros [= <-]. left.
  eexists _, str. split; [apply elem_of_app; right; constructor|done].
Qed.

Lemma inv_failure_init : inv_failure a source w0 (map_invocation source w0).
Proof.
  exists []. rewrite app_nil_r. split; [done|]. simpl.
  split; [by intros item ?%elem_of_nil|]. done.
Qed.

Lemma inv_failure_step (s : MapState) (e : event) :
  inv_failure a source w0 s → inv_failure a source w0 (step a s e).
Proof.
  intros Hinv.
  step_split; try done;
    destruct Hinv as (made & Hcalls & Hitems & Hsrc & Hdrain & Hpump & Hpoll & Hfail);
    unfold inv_failure, unprocessed in *; simpl;
    try (match goal with Hp : poll _ = _ |- _ => rewrite Hp in Hitems; try rewrite Hp end);
    try (destruct (exit_check_cases s) as [Hx|[(Hx & _)|Hx]]; rewrite Hx);
    (eexists; split;
      [first [exact Hcalls | rewrite Hcalls, <- app_assoc; reflexivity]|]);
    rewrite ?received_by_snoc.
  all: (split; [|split; [|split; [|split; [|split]]]]).
  all: try done.
  all: try (by (intros; apply failure_of_mono; eauto)).
  all: try (by (intros; apply elem_of_app; left; eauto)).
  all: try (by (intros ? [= <-]; right; right; left)).
  all: try (by (intros; apply Hitems, elem_of_cons; right)).
  all: try (by (intros ? [= <-]; right; right; right; eexists; split; [|done];
                apply Hitems, elem_of_cons; left)).
  all: try (by (intros ? [= <-]; eauto)).
  all: try (by intros item ?%elem_of_nil).
  all: try (by (intros arg Harg; apply Hsrc;
                match goal with Hs : input_stream _ = _ |- _ => rewrite Hs end;
                apply elem_of_cons; right)).
  all: try (by (intros ? [= <-]; by apply failure_of_reply)).
  - intros ? [= <-]. right. left.
    match goal with Hc : _create_input ?arg _ _ = Raise _ |- _ =>
      apply create_input_raise in Hc as (str & Hlen & Hup & ->); exists arg, str end.
    split; [|done]. apply Hsrc.
    match goal with Hs : input_stream _ = _ |- _ => rewrite Hs end. constructor.
  - intros item Hitem. apply elem_of_app. right. by destruct f; simplify_eq/=.
Qed.

(** X13: what a map fails with, on every schedule, and where that comes
    from.  The error is the one that a call in the log ended with (FunctionMap,
    PutInputs or FunctionGetOutputs), the one the blob store raised for an
    argument of the source too large to go inline, the AssertionError of
    the poll loop, or the one that decoding a received result raises. *)
Theorem map_failure_causes (events : list event) (e : exn PyObj) :
  let s := run a (map_invocation source w0) events in
  engine s = Failed e →
  failure_of a source (engine_calls w0 s) e.
Proof.
  intros s Hfailed.
  assert (Hinv : inv_failure a source w0 s).
  { apply run_ind; [apply inv_failure_init|apply inv_failure_step]. }
  destruct Hinv as (made & Hcalls & _ & _ & _ & _ & _ & Hfail).
  assert (engine_calls w0 s = made) as ->; [|by apply Hfail].
  unfold engine_calls. by rewrite Hcalls, drop_app_length.
Qed.


Lemma seq_prefix (n : nat) (l k : list nat) :
  seq 0 n = l ++ k → l = seq 0 (length l).
Proof.
  intros Hseq.
  assert (Hlen : length l ≤ n).
  { apply (f_equal length) in Hseq. rewrite length_seq, length_app in Hseq. lia. }
  replace n with (length l + (n - length l)) in Hseq by lia.
  rewrite seq_app in Hseq. apply app_inj_1 in Hseq as [<- _].
  - by rewrite length_seq.
  - by rewrite length_seq.
Qed.

(** X14: the inputs of a map are submitted once each and in the order of
    the source, in either mode and on every schedule: the inputs of the
    batches sent so far, taken together, are the first arguments of the
    source, argument number [i] encoded with index [i]; and they are all of
    them once [have_all_inputs] is set. *)
Theorem map_inputs_in_order (events : list event) :
  let s := run a (map_invocation source w0) events in
  let sent := concat (map sent_inputs (engine_calls w0 s)) in
  length sent ≤ num_inputs s ≤ length source
  ∧ Forall2 (encodes a source) (seq 0 (length sent)) sent
  ∧ (have_all_inputs s = true → length sent = length source).
Proof.
  intros s sent.
  destruct (indices_invariant a source w0 events) as [Hidx _]. fold s in Hidx.
  destruct (run_invariants a source w0 events) as (_ & Hin & _). fold s in Hin.
  destruct Hin as (Hnum & _).
  destruct Hidx as (_ & made & Hcalls & Henc).
  assert (Hsent : sent = concat (map sent_inputs made)).
  { unfold sent, engine_calls. by rewrite Hcalls, drop_app_length. }
  unfold encoded in Henc. rewrite <- Hsent in Henc.
  apply Forall2_app_inv_r in Henc as (l1 & l2 & H1 & _ & Hseq).
  pose proof (Forall2_length _ _ _ H1) as Hlen.
  pose proof (seq_prefix _ _ _ Hseq) as Hl1. rewrite Hlen in Hl1. subst l1.
  split; [|split; [done|]].
  - apply (f_equal length) in Hseq. rewrite length_seq, length_app, length_seq in Hseq.
    lia.
  - intros Hall. pose proof (inputs_submitted a source w0 events Hall) as Hfull.
    fold s sent in Hfull. apply Forall2_length in Hfull. by rewrite length_seq in Hfull.
Qed.

(** X15: a map over an empty source submits nothing: no PutInputs call is
    made, on any schedule. *)
Theorem map_empty_source (events : list event) :
  source = [] →
  Forall (λ c, is_put c = false)
    (engine_calls w0 (run a (map_invocation source w0) events)).
Proof.
  intros Hempty. set (s := run a (map_invocation source w0) events).
  destruct (indices_invariant a source w0 events) as [Hidx _]. fold s in Hidx.
  destruct (run_invariants a source w0 events) as ((_ & _ & made' & Hcalls' & _ & Hbatch)
                                                    & Hin & _).
  fold s in Hcalls', Hin. destruct Hin as (Hnum & _).
  destruct Hidx as (_ & made & Hcalls & Henc).
  assert (made' = made) as -> by (rewrite Hcalls in Hcalls'; by apply app_inv_head in Hcalls').
  rewrite Hempty in Hnum. simpl in Hnum.
  assert (num_inputs s = 0) as Hzero by lia. rewrite Hzero in Henc.
  apply Forall2_nil_inv_l in Henc. unfold encoded in Henc.
  apply app_eq_nil in Henc as [Hsent _].
  unfold engine_calls. rewrite Hcalls, drop_app_length.
  clear Hcalls Hcalls'. induction made as [|c made IH]; [done|].
  simpl in Hsent. apply app_eq_nil in Hsent as [Hc Hsent].
  apply Forall_cons in Hbatch as [Hok Hbatch].
  constructor; [|by apply IH].
  unfold batch_ok in Hok. unfold sent_inputs in Hc. unfold is_put.
  destruct (request c); try done. subst. simpl in Hok. lia.
Qed.

End MapProtocol.

(** ** A map that runs to its end *)

Section MapCompletes.
Context `{Runtime}.
Variable a : MapArgs.
Variable source : list PyObj.
Variable id : string.
Hypothesis Hfun : map_is_generator a = false.

Lemma run_app (s : MapState) (l k : list event) :
  run a s (l ++ k) = run a (run a s l) k.
Proof. unfold run. apply fold_left_app. Qed.

Lemma run_repeat_S (s : MapState) (e : event) (n : nat) :
  run a s (repeat e (S n)) = step a (run a s (repeat e n)) e.
Proof.
  replace (repeat e (S n)) with (repeat e n ++ [e]).
  - by rewrite run_app.
  - symmetry. apply (repeat_cons n e).
Qed.

(** The call is opened. *)
Lemma start_runs (w0 : World) (e : event) mrest :
  map_script w0 = Returns id :: mrest →
  ∃ w, step a (map_invocation source w0) e
       = running id w false 0 0 [] source DrainLoop [] PumpNext ∅ PollCall []
     ∧ put_script w = put_script w0 ∧ get_script w = get_script w0.
Proof.
  intros Hmap. unfold step, start, FunctionMap. simpl. rewrite Hmap. simpl.
  eexists. split; [reflexivity|]. done.
Qed.

(** The drain task encodes the source, argument by argument. *)
Lemma drain_runs (w : World) (k : nat) (items : list FunctionPutInputsItem) :
  Forall2 (encodes a source) (seq 0 k) items →
  run a (running id w false 0 0 [] source DrainLoop [] PumpNext ∅ PollCall [])
    (repeat (Run Drain) k)
  = running id w false 0 k (map Some items) (drop k source) DrainLoop [] PumpNext ∅
      PollCall [].
Proof.
  revert items. induction k as [|k IH]; intros items Hitems.
  - apply Forall2_nil_inv_l in Hitems as ->. done.
  - rewrite seq_S in Hitems. simpl in Hitems.
    apply Forall2_app_inv_l in Hitems as (items' & last & Hitems' & Hlast & ->).
    apply Forall2_cons_inv_l in Hlast as (item & ? & (_ & arg & Harg & Hitem) & ->%Forall2_nil_inv_l & ->).
    rewrite run_repeat_S, (IH items' Hitems').
    unfold step, running, run_drain. simpl.
    rewrite (drop_S _ _ _ Harg), Hitem. simpl.
    unfold running. rewrite map_app, Nat.add_1_r. done.
Qed.

Lemma drain_ends (w : World) (items : list FunctionPutInputsItem) :
  step a (running id w false 0 (length source) (map Some items)
            (drop (length source) source) DrainLoop [] PumpNext ∅ PollCall [])
    (Run Drain)
  = running id w false 0 (length source) (map Some items ++ [None]) [] DrainYield []
      PumpNext ∅ PollCall [].
Proof.
  unfold step, running, run_drain. simpl. rewrite drop_all. done.
Qed.

(** The steps of the pump task. *)
Lemma pump_takes_item (w : World) n_in item queue b :
  step a (running id w false 0 n_in (Some item :: queue) [] DrainYield b PumpNext ∅
            PollCall []) (Run Pump)
  = if MAP_INVOCATION_CHUNK_SIZE <=? length (b ++ [item])
    then running id w false 0 n_in queue [] DrainYield [] (PumpSend (b ++ [item]) false) ∅
           PollCall []
    else running id w false 0 n_in queue [] DrainYield (b ++ [item]) PumpNext ∅
           PollCall [].
Proof.
  unfold step, running, run_pump, queue_batch_iterator.
  cbn [engine pump input_queue batch set_input_queue].
  by destruct (MAP_INVOCATION_CHUNK_SIZE <=? length (b ++ [item])).
Qed.

Lemma pump_takes_sentinel (w : World) n_in queue b :
  step a (running id w false 0 n_in (None :: queue) [] DrainYield b PumpNext ∅
            PollCall []) (Run Pump)
  = if 0 <? length b
    then running id w false 0 n_in queue [] DrainYield [] (PumpSend b true) ∅ PollCall []
    else running id w false 0 n_in queue [] DrainYield b PumpAllIn ∅ PollCall [].
Proof.
  unfold step, running, run_pump, queue_batch_iterator.
  cbn [engine pump input_queue batch set_input_queue].
  by destruct (0 <? length b).
Qed.

Lemma pump_sends (w : World) all_in n_in queue b items last rest :
  put_script w = Returns () :: rest →
  ∃ w', step a (running id w all_in 0 n_in queue [] DrainYield b (PumpSend items last) ∅
                  PollCall []) (Run Pump)
        = running id w' all_in 0 n_in queue [] DrainYield b
            (if last then PumpAllIn else PumpNext) ∅ PollCall []
      ∧ put_script w' = rest ∧ get_script w' = get_script w.
Proof.
  intros Hput. unfold step, running, run_pump, FunctionPutInputs.
  cbn [engine pump world call_id]. rewrite Hput. cbn [lift].
  eexists. split; [reflexivity|]. done.
Qed.

(** The pump task takes the queue to its end. *)
Lemma pump_runs (n_in : nat) (fuel : nat) :
  ∀ (w : World) all_in queue b p m,
    pump_shape queue b p all_in →
    pump_steps queue p ≤ fuel →
    put_script w = repeat (Returns ()) m →
    length queue + match p with PumpSend _ _ => 1 | _ => 0 end ≤ m →
    ∃ w', run a (running id w all_in 0 n_in queue [] DrainYield b p ∅ PollCall [])
            (repeat (Run Pump) fuel)
          = running id w' true 0 n_in [] [] DrainYield [] PumpYield ∅ PollCall []
        ∧ get_script w' = get_script w.
Proof.
  induction fuel as [|fuel IH]; intros w all_in queue b p m Hshape Hsteps Hput Hm.
  - unfold pump_steps in Hsteps.
    destruct p as [|items last| | | |e]; simpl in Hshape, Hsteps; try lia; try done.
    destruct Hshape as (-> & -> & ->). by exists w.
  - change (run a ?s (repeat ?e (S fuel))) with (run a (step a s e) (repeat e fuel)).
    unfold pump_steps in Hsteps.
    destruct p as [|items last| | | |e]; simpl in Hshape; try done.
    + (* the next item of the queue *)
      destruct Hshape as (-> & items & ->). rewrite length_app in Hm, Hsteps.
      simpl in Hm, Hsteps.
      destruct items as [|item items]; simpl.
      * rewrite pump_takes_sentinel. destruct (0 <? length b) eqn:Hb.
        -- apply (IH _ _ _ _ _ m); [done|unfold pump_steps; simpl; lia|done|simpl; lia].
        -- destruct b; [|done].
           apply (IH _ _ _ _ _ m); [done|unfold pump_steps; simpl; lia|done|simpl; lia].
      * rewrite pump_takes_item. simpl in Hm, Hsteps.
        destruct (MAP_INVOCATION_CHUNK_SIZE <=? length (b ++ [item])).
        -- apply (IH _ _ _ _ _ m); [by split; [|eexists]| |done|].
           ++ unfold pump_steps. rewrite length_app. simpl. lia.
           ++ rewrite length_app. simpl. lia.
        -- apply (IH _ _ _ _ _ m); [by split; [|eexists]| |done|].
           ++ unfold pump_steps. rewrite length_app. simpl. lia.
           ++ rewrite length_app. simpl. lia.
    + (* a batch is sent *)
      destruct m as [|m]; [lia|].
      destruct (pump_sends w all_in n_in queue b items last _ Hput)
        as (w1 & -> & Hput1 & Hget1).
      destruct (IH w1 all_in queue b (if last then PumpAllIn else PumpNext) m)
        as (w' & Hrun & Hget).
      * by destruct last.
      * unfold pump_steps. destruct last; lia.
      * done.
      * destruct last; lia.
      * exists w'. split; [done|congruence].
    + (* line 238 *)
      destruct Hshape as (-> & -> & ->).
      apply (IH _ _ _ _ _ m); [done|unfold pump_steps; simpl; lia|done|simpl; lia].
    + (* suspended at the last [yield] *)
      destruct Hshape as (-> & -> & ->).
      apply (IH _ _ _ _ _ m); [done|unfold pump_steps; simpl; lia|done|simpl; lia].
Qed.

(** The steps of the poll task. *)
Lemma poll_calls (w : World) all_in k n_in queue stream d b p pending ys outputs rest :
  get_script w = Returns outputs :: rest →
  ∃ w', step a (running id w all_in k n_in queue stream d b p pending PollCall ys)
          (Run Poll)
        = running id w' all_in k n_in queue stream d b p pending (PollFor outputs) ys
      ∧ get_script w' = rest.
Proof.
  intros Hget. unfold step, running, run_poll, FunctionGetOutputs.
  cbn [engine poll world call_id]. rewrite Hget. cbn [lift].
  eexists. split; [reflexivity|]. done.
Qed.

Lemma poll_stores (w : World) all_in k n_in queue stream d b p pending ys item items v :
  _process_result (result item) = Done v →
  step a (running id w all_in k n_in queue stream d b p pending (PollFor (item :: items)) ys)
    (Run Poll)
  = running id w all_in k n_in queue stream d b p (<[item_idx item := v]> pending)
      (PollFor items) ys.
Proof.
  intros Hdec. unfold step, running, run_poll. cbn [engine poll].
  by rewrite Hfun, Hdec.
Qed.

Lemma poll_for_ends (w : World) all_in k n_in queue stream d b p pending ys :
  step a (running id w all_in k n_in queue stream d b p pending (PollFor []) ys) (Run Poll)
  = running id w all_in k n_in queue stream d b p pending PollWhile ys.
Proof. reflexivity. Qed.

Lemma poll_pops (w : World) all_in k n_in queue stream d b p pending ys v :
  pending !! k = Some v →
  step a (running id w all_in k n_in queue stream d b p pending PollWhile ys) (Run Poll)
  = running id w all_in k n_in queue stream d b p (delete k pending) (PollWhileYield v) ys.
Proof.
  intros Hk. unfold step, running, run_poll. cbn [engine poll pending_outputs num_outputs].
  by rewrite Hk.
Qed.

Lemma poll_delivers (w : World) all_in k n_in queue stream d b p pending ys v :
  step a (running id w all_in k n_in queue stream d b p pending (PollWhileYield v) ys)
    (Deliver Poll)
  = running id w all_in k n_in queue stream d b p pending PollIncr (ys ++ [v]).
Proof. reflexivity. Qed.

Lemma poll_counts (w : World) all_in k n_in queue stream d b p pending ys :
  step a (running id w all_in k n_in queue stream d b p pending PollIncr ys) (Run Poll)
  = running id w all_in (k + 1) n_in queue stream d b p pending PollWhile ys.
Proof. reflexivity. Qed.

Lemma poll_tests (w : World) k n_in queue stream b p ys :
  k ≤ n_in →
  step a (running id w true k n_in queue stream DrainYield b p ∅ PollWhile ys) (Run Poll)
  = running id w true k n_in queue stream DrainYield b p ∅
      (if k =? n_in then PollDone else PollCall) ys.
Proof.
  intros Hk. unfold step, running, run_poll.
  cbn [engine poll pending_outputs num_outputs]. rewrite lookup_empty.
  unfold exit_check. cbn [have_all_inputs num_outputs num_inputs pending_outputs].
  assert ((k <=? n_in) = true) as -> by (by apply Nat.leb_le). cbn [negb].
  rewrite map_size_empty. cbn [Nat.eqb].
  unfold close_stream. cbn [drain set_poll]. by destruct (k =? n_in).
Qed.

(** One round of the poll task: a response with the result of input [k]
    comes in, and its value goes out. *)
Lemma poll_round_runs (w : World) (n_in k : nat) (r : GenericResult) (v : PyObj)
    (values : list PyObj) rest :
  get_script w = Returns [{| item_idx := k; result := r |}] :: rest →
  _process_result r = Done v →
  values !! k = Some v →
  k < n_in →
  ∃ w', run a (running id w true k n_in [] [] DrainYield [] PumpYield ∅ PollCall
                 (take k values)) poll_round
        = running id w' true (S k) n_in [] [] DrainYield [] PumpYield ∅
            (if S k =? n_in then PollDone else PollCall) (take (S k) values)
      ∧ get_script w' = rest.
Proof.
  intros Hget Hdec Hval Hk. unfold poll_round, run. cbn [fold_left].
  destruct (poll_calls w true k n_in [] [] DrainYield [] PumpYield ∅ (take k values) _ _ Hget)
    as (w' & -> & Hrest).
  exists w'. split; [|done].
  rewrite (poll_stores _ _ _ _ _ _ _ _ _ _ _ _ _ v) by done.
  rewrite poll_for_ends. cbn [item_idx].
  rewrite (poll_pops _ _ _ _ _ _ _ _ _ _ _ v) by apply lookup_insert_eq.
  rewrite delete_insert_eq, delete_empty, poll_delivers, poll_counts, Nat.add_1_r.
  rewrite poll_tests by lia. by rewrite (take_S_r _ _ _ Hval).
Qed.

Lemma answers_drop (results : list GenericResult) (k : nat) (r : GenericResult) :
  results !! k = Some r →
  drop k (answers results)
  = Returns [{| item_idx := k; result := r |}] :: drop (S k) (answers results).
Proof.
  intros Hr. apply drop_S. unfold answers. by rewrite list_lookup_imap, Hr.
Qed.

(** The poll task, served the results in the order of the inputs, yields
    their values one by one. *)
Lemma poll_rounds_run (n_in : nat) (results : list GenericResult) (values : list PyObj)
    (grest : list (fallible (list FunctionGetOutputsItem))) (j : nat) :
  Forall2 (λ r v, _process_result r = Done v) results values →
  length results = n_in →
  j ≤ n_in →
  ∀ w, get_script w = answers results ++ grest →
  ∃ w', run a (running id w true 0 n_in [] [] DrainYield [] PumpYield ∅ PollCall [])
          (concat (repeat poll_round j))
        = running id w' true j n_in [] [] DrainYield [] PumpYield ∅
            (if (0 <? j) && (j =? n_in) then PollDone else PollCall) (take j values)
      ∧ get_script w' = drop j (answers results) ++ grest.
Proof.
  intros Hdec Hlen. induction j as [|j IH]; intros Hj w Hget.
  - exists w. by rewrite take_0.
  - destruct (IH ltac:(lia) w Hget) as (w1 & Hrun & Hget1).
    replace (repeat poll_round (S j)) with (repeat poll_round j ++ [poll_round])
      by (symmetry; apply (repeat_cons j poll_round)).
    rewrite concat_app, run_app, Hrun. cbn [concat]. rewrite app_nil_r.
    assert ((j =? n_in) = false) as -> by (apply Nat.eqb_neq; lia).
    rewrite andb_false_r.
    destruct (lookup_lt_is_Some_2 results j ltac:(lia)) as [r Hr].
    destruct (Forall2_lookup_l _ _ _ _ _ Hdec Hr) as (v & Hv & Hrv).
    rewrite (answers_drop _ _ _ Hr) in Hget1.
    by apply (poll_round_runs w1 n_in j r v values _ Hget1).
Qed.

Lemma pump_delivers_last (w : World) (n : nat) (q : poll_state) (ys : list PyObj) :
  step a (running id w true n n [] [] DrainYield [] PumpYield ∅ q ys) (Deliver Pump)
  = set_engine Exited (running id w true n n [] [] DrainYield [] PumpYield ∅ q ys).
Proof.
  unfold step, running, deliver_pump, outer_loop_none.
  cbn [engine pump have_all_inputs num_outputs num_inputs andb].
  by rewrite Nat.eqb_refl.
Qed.

(** X16: a map runs to its end.  For a function that is not a generator, when
    [FunctionMap] returns a call id, every argument of the source can be
    encoded, [PutInputs] succeeds and the server answers one result per poll
    in the order of the inputs, each of which decodes to a value, then on the
    schedule that lets the drain task, the pump task and the poll task run
    one after the other [map_invocation] returns, having yielded exactly
    these values, in the order of the inputs. *)
Theorem map_completes (w0 : World) (items : list FunctionPutInputsItem)
    (results : list GenericResult) (values : list PyObj)
    (mrest : list (fallible string))
    (grest : list (fallible (list FunctionGetOutputsItem))) (m : nat) :
  map_script w0 = Returns id :: mrest →
  put_script w0 = repeat (Returns ()) m →
  length source < m →
  get_script w0 = answers results ++ grest →
  Forall2 (encodes a source) (seq 0 (length source)) items →
  Forall2 (λ r v, _process_result r = Done v) results values →
  length results = length source →
  let s := run a (map_invocation source w0) (in_sequence (length source)) in
  engine s = Exited ∧ yielded s = values.
Proof.
  intros Hmap Hput Hm Hget Hitems Hdec Hlen. cbv zeta. unfold in_sequence.
  rewrite !run_app.
  destruct (start_runs w0 (Run Drain) mrest Hmap) as (w1 & Hstart & Hput1 & Hget1).
  change (run a (map_invocation source w0) [Run Drain])
    with (step a (map_invocation source w0) (Run Drain)).
  rewrite Hstart, run_repeat_S, (drain_runs w1 _ items Hitems), drain_ends.
  destruct (pump_runs (length source) (2 * length source + 4) w1 false
              (map Some items ++ [None]) [] PumpNext m) as (w2 & -> & Hget2).
  { split; [done|by eexists]. }
  { unfold pump_steps. rewrite length_app, length_map.
    apply Forall2_length in Hitems. rewrite length_seq in Hitems. simpl. lia. }
  { congruence. }
  { rewrite length_app, length_map.
    apply Forall2_length in Hitems. rewrite length_seq in Hitems. simpl. lia. }
  destruct (poll_rounds_run (length source) results values grest (length source)
              Hdec Hlen ltac:(lia) w2 ltac:(congruence)) as (w3 & -> & _).
  change (run a ?s [Deliver Pump]) with (step a s (Deliver Pump)).
  rewrite pump_delivers_last. split; [done|].
  cbn [yielded set_engine running]. apply take_ge.
  apply Forall2_length in Hdec. lia.
Qed.

End MapCompletes.

(** ** Making a function *)

Section Construction.
Context `{Runtime}.

Lemma check_schedule_done (args : FunctionArgs) (info : FunctionInfo) :
  check_schedule args info = Done tt
  ↔ schedule args = None ∨ is_nullary info = Returns true.
Proof.
  unfold check_schedule. destruct (schedule args) as [sch|]; [|by split; [left|]].
  destruct (is_nullary info) as [[]|str]; simpl; split; try done; try (by right).
  - by intros [|].
  - by intros [|].
Qed.

Lemma Function_init_done (args : FunctionArgs) (f : _Function) (attrs : FunctionAttrs) :
  Function_init args = Done (f, attrs) →
  valid_function_args args (_info attrs) (_tag f)
  ∧ base f = {| _client := None; _object_id := None |}
  ∧ _local_app f = None
  ∧ _is_generator f = is_generator args
  ∧ _secrets attrs = match secret args with
                     | Some s => [s]
                     | None => secrets args
                     end
  ∧ _retries attrs = retries args
  ∧ _web_url attrs = None.
Proof.
  unfold Function_init, valid_function_args.
  destruct (callable (raw_f args)); [|done]. cbn [negb].
  destruct (function_info _ _) as [info|str]; [|done]. cbn [lift bind_outcome].
  destruct (check_schedule args info) as [[]| |] eqn:Hsch; [|done..].
  apply check_schedule_done in Hsch. cbn [bind_outcome].
  destruct (bool_decide (is_Some (secret args)) && _) eqn:Hsec; [done|].
  destruct (match retries args with Some r => bad_retries r | None => false end) eqn:Hret;
    [done|].
  destruct (get_tag info) as [tag|str] eqn:Htag; [|done]. cbn [lift bind_outcome].
  intros [= <- <-]. simpl. repeat split; try done.
  - apply andb_false_iff in Hsec as [Hs|Hn].
    + left. apply bool_decide_eq_false in Hs. by destruct (secret args); [destruct Hs|].
    + right. apply negb_false_iff in Hn. by apply bool_decide_eq_true in Hn.
  - destruct (retries args) as [[n|o]|]; [|done|by left].
    right. exists n. split; [done|]. simpl in Hret.
    apply orb_false_iff in Hret as [?%Z.ltb_ge ?%Z.ltb_ge]. lia.
Qed.

Lemma Function_init_valid (args : FunctionArgs) (info : FunctionInfo) (tag : string) :
  valid_function_args args info tag →
  ∃ f attrs, Function_init args = Done (f, attrs) ∧ _tag f = tag ∧ _info attrs = info.
Proof.
  intros (Hcall & Hinfo & Hsch & Hsec & Hret & Htag).
  unfold Function_init. rewrite Hcall, Hinfo. cbn [negb lift bind_outcome].
  apply check_schedule_done in Hsch as ->. cbn [bind_outcome].
  assert (bool_decide (is_Some (secret args))
          && negb (bool_decide (secrets args = [])) = false) as ->.
  { destruct Hsec as [-> | ->]; [done|]. by rewrite andb_false_r. }
  assert (match retries args with Some r => bad_retries r | None => false end = false) as ->.
  { destruct Hret as [-> |(n & -> & Hn)]; [done|]. simpl.
    apply orb_false_iff. split; apply Z.ltb_ge; lia. }
  rewrite Htag. cbn [lift bind_outcome]. eauto.
Qed.

Lemma check_schedule_raise (args : FunctionArgs) (info : FunctionInfo) :
  check_schedule args info = Done tt
  ∨ check_schedule args info = Raise (InvalidError (needs_no_arguments (raw_f args)))
  ∨ ∃ str, check_schedule args info = Raise (Foreign str)
           ∧ is_Some (schedule args) ∧ is_nullary info = Throws str.
Proof.
  unfold check_schedule. destruct (schedule args) as [sch|]; [|by left].
  destruct (is_nullary info) as [[]|str]; simpl; [by left|by right; left|].
  right. right. by exists str.
Qed.

Lemma Function_init_raise (args : FunctionArgs) :
  (∃ f attrs, Function_init args = Done (f, attrs))
  ∨ Function_init args = Raise AssertionError
  ∨ (∃ msg, Function_init args = Raise (InvalidError msg))
  ∨ ∃ str, Function_init args = Raise (Foreign str) ∧ function_info_fails args str.
Proof.
  unfold Function_init, function_info_fails.
  destruct (callable (raw_f args)); [|by right; left]. cbn [negb].
  destruct (function_info _ _) as [info|str]; cbn [lift bind_outcome];
    [|right; right; right; eauto].
  destruct (check_schedule_raise args info) as [->|[->|(str & -> & Hsch & Hnul)]];
    cbn [bind_outcome]; [|right; right; left; eauto|right; right; right; eauto 8].
  destruct (bool_decide (is_Some (secret args)) && _); [right; right; left; eauto|].
  destruct (match retries args with Some r => bad_retries r | None => false end);
    [right; right; left; eauto|].
  destruct (get_tag info) as [tag|str] eqn:Htag; cbn [lift bind_outcome];
    [left; eauto|right; right; right; eauto 8].
Qed.

(** X17: [_Function(...)] makes a function exactly when [raw_f] is callable,
    [FunctionInfo] and the methods asked of it return, a function with a
    schedule takes no arguments, [secret] and a non-empty [secrets] are not
    both given, and [retries], if given, is an integer from 0 to 10.
    Otherwise it raises [AssertionError] (no callable), [InvalidError], or
    what [FunctionInfo] raised.  The function made has no client, no object
    id and no app; its tag is the one [get_tag()] returned; and its secrets
    are the one [secret], if given, and else [secrets]. *)
Theorem Function_init_checks (args : FunctionArgs) :
  ((∃ info tag, valid_function_args args info tag)
   ↔ ∃ f attrs, Function_init args = Done (f, attrs))
  ∧ (∀ f attrs, Function_init args = Done (f, attrs) →
       base f = {| _client := None; _object_id := None |}
       ∧ _local_app f = None
       ∧ _is_generator f = is_generator args
       ∧ (∃ info, function_info (raw_f args) (serialized args) = Returns info
                  ∧ get_tag info = Returns (_tag f))
       ∧ _secrets attrs = match secret args with
                          | Some s => [s]
                          | None => secrets args
                          end
       ∧ _retries attrs = retries args
       ∧ _web_url attrs = None)
  ∧ (¬ (∃ info tag, valid_function_args args info tag) →
       Function_init args = Raise AssertionError
       ∨ (∃ msg, Function_init args = Raise (InvalidError msg))
       ∨ ∃ str, Function_init args = Raise (Foreign str) ∧ function_info_fails args str).
Proof.
  split; [split|split].
  - intros (info & tag & Hvalid).
    destruct (Function_init_valid args info tag Hvalid) as (f & attrs & Hdone & _). eauto.
  - intros (f & attrs & Hdone). apply Function_init_done in Hdone as [? _]. eauto.
  - intros f attrs Hdone.
    apply Function_init_done in Hdone as (Hvalid & ? & ? & ? & ? & ? & ?).
    destruct Hvalid as (_ & Hinfo & _ & _ & _ & Htag). repeat split; eauto.
  - intros Hnot.
    destruct (Function_init_raise args) as [(f & attrs & Hdone)|?]; [|done].
    apply Function_init_done in Hdone as [Hvalid _]. destruct Hnot. eauto.
Qed.

(** X18: a function as [_Function(...)] makes it cannot be called from a local
    process, for want of an app; once [set_local_app] has given it one,
    its calls go to the client of that app and to the object id the app
    holds under the tag [FunctionInfo] gave. *)
Theorem fresh_function_context (args : FunctionArgs) (f : _Function)
    (attrs : FunctionAttrs) (proc : Process) :
  Function_init args = Done (f, attrs) →
  is_local proc = true →
  _get_context proc f = Raise (InvalidError app_is_not_running)
  ∧ ∃ info tag,
      function_info (raw_f args) (serialized args) = Returns info
      ∧ get_tag info = Returns tag
      ∧ ∀ app, _get_context proc (set_local_app app f) = app_lookup (Some app) tag.
Proof.
  intros Hdone Hlocal.
  apply Function_init_done in Hdone as (Hvalid & Hbase & Happ & _).
  destruct Hvalid as (_ & Hinfo & _ & _ & _ & Htag).
  split.
  - unfold _get_context. by rewrite Hbase, Hlocal, Happ.
  - exists (_info attrs), (_tag f). split; [done|]. split; [done|].
    intros app. unfold _get_context, set_local_app. simpl. by rewrite Hbase, Hlocal.
Qed.

End Construction.

(** ** Objects and their ids *)

Lemma split_length (sep : Ascii.ascii) (s : string) :
  length (split sep s) = S (occurrences sep s).
Proof.
  induction s as [|c s IH]; [done|]. simpl.
  destruct (Ascii.eqb c sep); simpl; [by rewrite IH|].
  destruct (split sep s); simpl in *; lia.
Qed.

Lemma split_one_part (sep : Ascii.ascii) (s : string) :
  occurrences sep s = 0 → split sep s = [s].
Proof.
  induction s as [|c s IH]; [done|]. simpl.
  destruct (Ascii.eqb c sep); [done|]. intros Hs. by rewrite IH.
Qed.

Lemma split_first_part (sep : Ascii.ascii) (p q : string) :
  occurrences sep p = 0 → split sep (p +:+ String sep q) = p :: split sep q.
Proof.
  induction p as [|c p IH]; simpl.
  - intros _. change (split sep (String sep q) = "" :: split sep q). simpl.
    by rewrite Ascii.eqb_refl.
  - destruct (Ascii.eqb c sep) eqn:Hc; [done|]. intros Hp.
    by rewrite IH.
Qed.

Lemma occurrences_one (sep : Ascii.ascii) (s : string) :
  occurrences sep s = 1 →
  ∃ p q, s = p +:+ String sep q ∧ occurrences sep p = 0 ∧ occurrences sep q = 0.
Proof.
  induction s as [|c s IH]; [done|]. simpl.
  destruct (Ascii.eqb_spec c sep) as [->|Hc]; simpl.
  - intros [= Hs]. by exists "", s.
  - intros Hs. destruct (IH Hs) as (p & q & -> & Hp & Hq).
    exists (String c p), q. split; [done|]. split; [|done]. simpl.
    by rewrite (proj2 (Ascii.eqb_neq c sep) Hc).
Qed.

Section ObjectIds.
Context `{Runtime}.

(** X19: [from_id] takes an id apart at its dash.  An id that has not exactly
    one dash is refused (with the message that it has no dash, also when it
    has two); an id [prefix-suffix] gives an object of the class registered
    for [prefix], and is refused when no class is; and the object made has
    the client it was given and the id itself as [object_id]. *)
Theorem from_id_spec (prefix_to_type : gmap string string) (object_id : string)
    (client : option Client) :
  (occurrences dash object_id ≠ 1 →
     from_id prefix_to_type object_id client
     = Raise (InvalidError (has_no_dash object_id)))
  ∧ (∀ prefix suffix,
       object_id = prefix +:+ String dash suffix →
       occurrences dash prefix = 0 → occurrences dash suffix = 0 →
       from_id prefix_to_type object_id client
       = match prefix_to_type !! prefix with
         | Some object_cls =>
             Done (object_cls, {| _client := client; _object_id := Some object_id |})
         | None => Raise (InvalidError (no_such_type prefix))
         end)
  ∧ (∀ object_cls obj,
       from_id prefix_to_type object_id client = Done (object_cls, obj) →
       _object_id obj = Some object_id ∧ _client obj = client
       ∧ ∃ prefix suffix,
           object_id = prefix +:+ String dash suffix
           ∧ prefix_to_type !! prefix = Some object_cls).
Proof.
  assert (Hparts : ∀ prefix suffix,
    object_id = prefix +:+ String dash suffix →
    occurrences dash prefix = 0 → occurrences dash suffix = 0 →
    from_id prefix_to_type object_id client
    = match prefix_to_type !! prefix with
      | Some object_cls =>
          Done (object_cls, {| _client := client; _object_id := Some object_id |})
      | None => Raise (InvalidError (no_such_type prefix))
      end).
  { intros prefix suffix Hid Hp Hs.
    assert (Hsplit : split dash object_id = [prefix; suffix]).
    { by rewrite Hid, (split_first_part _ _ _ Hp), (split_one_part _ _ Hs). }
    unfold from_id. by rewrite Hsplit. }
  split; [|split; [done|]].
  - intros Hdash. unfold from_id. rewrite split_length.
    destruct (Nat.eqb_spec (S (occurrences dash object_id)) 2); [lia|done].
  - intros object_cls obj Hdone.
    destruct (decide (occurrences dash object_id = 1)) as [Hone|Hnot].
    + destruct (occurrences_one _ _ Hone) as (prefix & suffix & Hid & Hp & Hs).
      rewrite (Hparts prefix suffix Hid Hp Hs) in Hdone.
      destruct (prefix_to_type !! prefix) as [cls|] eqn:Hcls; [|done].
      injection Hdone as <- <-. eauto 6.
    + unfold from_id in Hdone. rewrite split_length in Hdone.
      destruct (Nat.eqb_spec (S (occurrences dash object_id)) 2); [lia|done].
Qed.

End ObjectIds.

(** ** Line-buffered output *)

Lemma LINE_REGEX_split_cons (s : string) :
  ∃ text chunks, LINE_REGEX_split s = text :: chunks.
Proof.
  destruct s as [|c s]; [by eexists _, _|]. simpl.
  destruct (Ascii.eqb c CR).
  - destruct s as [|c' s]; [by eexists _, _|]. destruct (Ascii.eqb c' LF); by eexists _, _.
  - destruct (Ascii.eqb c LF); [by eexists _, _|].
    destruct (LINE_REGEX_split s); by eexists _, _.
Qed.

Lemma lines_of_nil : lines_of "" = ([], "").
Proof. reflexivity. Qed.

Lemma lines_of_crlf (s : string) :
  lines_of (String CR (String LF s))
  = ((String CR (String LF "")) :: (lines_of s).1, (lines_of s).2).
Proof. unfold lines_of. simpl. by destruct (pairs (LINE_REGEX_split s)). Qed.

Lemma lines_of_cr (s : string) :
  (∀ s', s ≠ String LF s') →
  lines_of (String CR s) = ((String CR "") :: (lines_of s).1, (lines_of s).2).
Proof.
  intros Hs. unfold lines_of. destruct s as [|c s].
  - reflexivity.
  - cbn [LINE_REGEX_split]. rewrite Ascii.eqb_refl.
    destruct (Ascii.eqb_spec c LF) as [->|_]; [by destruct (Hs s)|].
    cbn [pairs]. by destruct (pairs _).
Qed.

Lemma lines_of_lf (s : string) :
  lines_of (String LF s) = ((String LF "") :: (lines_of s).1, (lines_of s).2).
Proof. unfold lines_of. simpl. by destruct (pairs (LINE_REGEX_split s)). Qed.

Lemma lines_of_char (c : Ascii.ascii) (s : string) :
  is_line_end c = false →
  lines_of (String c s)
  = match (lines_of s).1 with
    | line :: lines => (String c line :: lines, (lines_of s).2)
    | [] => ([], String c (lines_of s).2)
    end.
Proof.
  unfold is_line_end. intros [Hcr Hlf]%orb_false_elim. unfold lines_of.
  cbn [LINE_REGEX_split]. rewrite Hcr, Hlf.
  destruct (LINE_REGEX_split_cons s) as (text & chunks & ->).
  destruct chunks as [|sep rest]; [done|]. cbn [pairs]. by destruct (pairs rest).
Qed.

(** Induction along the way the pattern matches. *)
Lemma lines_ind (P : string → Prop) :
  P "" →
  (∀ s, P s → P (String CR (String LF s))) →
  (∀ s, (∀ s', s ≠ String LF s') → P s → P (String CR s)) →
  (∀ s, P s → P (String LF s)) →
  (∀ c s, is_line_end c = false → P s → P (String c s)) →
  ∀ s, P s.
Proof.
  intros Hnil Hcrlf Hcr Hlf Hchar s.
  assert (Hboth : P s ∧ ∀ c, P (String c s)); [|by destruct Hboth].
  induction s as [|c' s [IH1 IH2]].
  - split; [done|]. intros c.
    destruct (Ascii.eqb_spec c CR) as [->|Hc1]; [by apply Hcr|].
    destruct (Ascii.eqb_spec c LF) as [->|Hc2]; [by apply Hlf|].
    apply Hchar; [|done]. unfold is_line_end.
    by rewrite (proj2 (Ascii.eqb_neq _ _) Hc1), (proj2 (Ascii.eqb_neq _ _) Hc2).
  - split; [apply IH2|]. intros c.
    destruct (Ascii.eqb_spec c CR) as [->|Hc1].
    + destruct (Ascii.eqb_spec c' LF) as [->|Hc']; [by apply Hcrlf|].
      apply Hcr; [|apply IH2]. intros s' [= ? _]. done.
    + destruct (Ascii.eqb_spec c LF) as [->|Hc2]; [apply Hlf, IH2|].
      apply Hchar; [|apply IH2]. unfold is_line_end.
      by rewrite (proj2 (Ascii.eqb_neq _ _) Hc1), (proj2 (Ascii.eqb_neq _ _) Hc2).
Qed.

Lemma LINE_REGEX_split_odd (s : string) :
  ∃ n, length (LINE_REGEX_split s) = 2 * n + 1.
Proof.
  induction s as [|s IH|s Hs IH|s IH|c s Hc IH] using lines_ind; simpl.
  - by exists 0.
  - destruct IH as [n Hn]. exists (S n). simpl in *. rewrite Hn. lia.
  - destruct IH as [n Hn]. exists (S n). destruct s as [|c s].
    + simpl in *. lia.
    + destruct (Ascii.eqb_spec c LF) as [->|_]; [by destruct (Hs s)|].
      simpl in Hn. simpl. rewrite Hn. lia.
  - destruct IH as [n Hn]. exists (S n). simpl in *. rewrite Hn. lia.
  - destruct IH as [n Hn]. exists n. unfold is_line_end in Hc.
    apply orb_false_elim in Hc as [-> ->].
    destruct (LINE_REGEX_split s); simpl in *; lia.
Qed.

(** The loop of [write] takes the chunks two by two. *)
Lemma pairs_by_index (n : nat) :
  ∀ chunks, length chunks = 2 * n + 1 →
    map (λ i, nth (2 * i) chunks "" +:+ nth (2 * i + 1) chunks "")
        (seq 0 (length chunks / 2)) = (pairs chunks).1
    ∧ List.last chunks "" = (pairs chunks).2.
Proof.
  induction n as [|n IH]; intros chunks Hlen.
  - destruct chunks as [|text [|? ?]]; simpl in Hlen; try lia. done.
  - destruct chunks as [|text [|sep rest]]; simpl in Hlen; try lia.
    destruct (IH rest) as [Hlines Hlast]; [lia|].
    assert (Hdiv : length (text :: sep :: rest) / 2 = S (length rest / 2)).
    { change (length (text :: sep :: rest)) with (S (S (length rest))).
      replace (S (S (length rest))) with (1 * 2 + length rest) by lia.
      rewrite Nat.div_add_l by lia. lia. }
    rewrite Hdiv. cbn [pairs]. destruct (pairs rest) as [lines rest'] eqn:Hp.
    simpl in Hlines, Hlast. split.
    + cbn [seq map]. rewrite <- seq_shift, map_map. simpl. f_equal.
      rewrite <- Hlines. apply map_ext. intros i.
      replace (i + S (i + 0)) with (S (2 * i)) by lia.
      replace (i + S (i + 0) + 1) with (S (2 * i + 1)) by lia. done.
    + simpl. rewrite <- Hlast. destruct rest; [simpl in Hlen; lia|done].
Qed.

Lemma write_lines_of (self : LineBufferedOutput) (data : string) :
  write self data
  = ((lines_of (_buf self +:+ data)).1, {| _buf := (lines_of (_buf self +:+ data)).2 |}).
Proof.
  unfold write, lines_of.
  destruct (LINE_REGEX_split_odd (_buf self +:+ data)) as [n Hn].
  destruct (pairs_by_index n _ Hn) as [-> ->]. done.
Qed.

Lemma text_of_app (l k : list string) : text_of (l ++ k) = text_of l +:+ text_of k.
Proof.
  induction l as [|x l IH]; [done|]. simpl. rewrite IH.
  symmetry. apply append_assoc.
Qed.

Lemma lines_of_text (s : string) : text_of (lines_of s).1 +:+ (lines_of s).2 = s.
Proof.
  induction s as [|s IH|s Hs IH|s IH|c s Hc IH] using lines_ind.
  - done.
  - rewrite lines_of_crlf. simpl.
    change (String CR (String LF (text_of (lines_of s).1 +:+ (lines_of s).2))
            = String CR (String LF s)). by rewrite IH.
  - rewrite lines_of_cr by done. simpl.
    change (String CR (text_of (lines_of s).1 +:+ (lines_of s).2) = String CR s).
    by rewrite IH.
  - rewrite lines_of_lf. simpl.
    change (String LF (text_of (lines_of s).1 +:+ (lines_of s).2) = String LF s).
    by rewrite IH.
  - rewrite lines_of_char by done. destruct (lines_of s) as [[|line lines] rest].
    + simpl in *. change (String c ("" +:+ rest) = String c s). by rewrite IH.
    + simpl in *.
      change (String c ((line +:+ text_of lines) +:+ rest) = String c s). by rewrite IH.
Qed.

Lemma complete_line_char (c : Ascii.ascii) (line : string) :
  is_line_end c = false → complete_line line → complete_line (String c line).
Proof.
  intros Hc (text & sep & -> & Htext & Hsep). exists (String c text), sep.
  split; [done|]. split; [|done]. simpl. by rewrite Hc.
Qed.

Lemma complete_line_end (sep : string) : sep ∈ line_ends → complete_line sep.
Proof. intros Hsep. by exists "", sep. Qed.

Lemma lines_of_complete (s : string) :
  Forall complete_line (lines_of s).1 ∧ one_line (lines_of s).2 = true.
Proof.
  induction s as [|s IH|s Hs IH|s IH|c s Hc IH] using lines_ind.
  - split; [constructor|done].
  - rewrite lines_of_crlf. destruct IH as [IH1 IH2]. split; [|done].
    constructor; [|done]. apply complete_line_end. set_solver.
  - rewrite lines_of_cr by done. destruct IH as [IH1 IH2]. split; [|done].
    constructor; [|done]. apply complete_line_end. set_solver.
  - rewrite lines_of_lf. destruct IH as [IH1 IH2]. split; [|done].
    constructor; [|done]. apply complete_line_end. set_solver.
  - rewrite lines_of_char by done. destruct IH as [IH1 IH2].
    destruct (lines_of s) as [[|line lines] rest]; simpl in *.
    + split; [constructor|]. by rewrite Hc.
    + apply Forall_cons in IH1 as [Hline Hlines]. split; [|done].
      constructor; [by apply complete_line_char|done].
Qed.

Lemma straddles_cons (c : Ascii.ascii) (s1 s2 : string) :
  straddles s1 s2 → straddles (String c s1) s2.
Proof. intros (x & y & -> & ->). by exists (String c x), y. Qed.

(** Writing in two pieces, when no line end is cut in two. *)
Lemma lines_of_app (s1 s2 : string) :
  ¬ straddles s1 s2 →
  lines_of (s1 +:+ s2)
  = ((lines_of s1).1 ++ (lines_of ((lines_of s1).2 +:+ s2)).1,
     (lines_of ((lines_of s1).2 +:+ s2)).2).
Proof.
  induction s1 as [|s IH|s Hs IH|s IH|c s Hc IH] using lines_ind; intros Hcut.
  - change (lines_of s2 = ((lines_of s2).1, (lines_of s2).2)). by destruct (lines_of s2).
  - change (String CR (String LF s) +:+ s2) with (String CR (String LF (s +:+ s2))).
    rewrite !lines_of_crlf, IH; [done|]. intros Hst. by apply Hcut, straddles_cons, straddles_cons.
  - change (String CR s +:+ s2) with (String CR (s +:+ s2)).
    rewrite !lines_of_cr, ?IH; try done.
    + intros Hst. by apply Hcut, straddles_cons.
    + intros s' Heq. destruct s as [|c s].
      * apply Hcut. exists "", s'. done.
      * injection Heq as -> _. by destruct (Hs s).
  - change (String LF s +:+ s2) with (String LF (s +:+ s2)).
    rewrite !lines_of_lf, IH; [done|]. intros Hst. by apply Hcut, straddles_cons.
  - change (String c s +:+ s2) with (String c (s +:+ s2)).
    rewrite !lines_of_char by done.
    rewrite IH by (intros Hst; by apply Hcut, straddles_cons).
    destruct (lines_of s) as [[|line lines] rest]; simpl; [|done].
    change (String c rest +:+ s2) with (String c (rest +:+ s2)).
    rewrite lines_of_char by done. by destruct (lines_of (rest +:+ s2)) as [[|? ?] ?].
Qed.

(** Writing in two pieces that cut a [\r\n] in two. *)
Lemma lines_of_cut (x y : string) :
  ∃ pre text,
    (lines_of (x +:+ String CR "")).1 = pre ++ [text +:+ String CR ""]
    ∧ (lines_of (x +:+ String CR "")).2 = ""
    ∧ lines_of (x +:+ String CR (String LF y))
      = (pre ++ [text +:+ String CR (String LF "")] ++ (lines_of y).1, (lines_of y).2).
Proof.
  induction x as [|s IH|s Hs IH|s IH|c s Hc IH] using lines_ind.
  - exists [], "". split; [done|]. split; [done|].
    change ("" +:+ String CR (String LF y)) with (String CR (String LF y)).
    by rewrite lines_of_crlf.
  - destruct IH as (pre & text & H1 & H2 & H3).
    exists (String CR (String LF "") :: pre), text.
    change (String CR (String LF s) +:+ ?t) with (String CR (String LF (s +:+ t))).
    rewrite !lines_of_crlf, H1, H2, H3. done.
  - destruct IH as (pre & text & H1 & H2 & H3).
    exists (String CR "" :: pre), text.
    change (String CR s +:+ ?t) with (String CR (s +:+ t)).
    rewrite !lines_of_cr, H1, H2, H3; [done|..]; intros s' Heq;
      (destruct s as [|c s]; [done|]; injection Heq as -> _; by destruct (Hs s)).
  - destruct IH as (pre & text & H1 & H2 & H3).
    exists (String LF "" :: pre), text.
    change (String LF s +:+ ?t) with (String LF (s +:+ t)).
    rewrite !lines_of_lf, H1, H2, H3. done.
  - destruct IH as (pre & text & H1 & H2 & H3).
    change (String c s +:+ ?t) with (String c (s +:+ t)).
    rewrite !lines_of_char, H1, H2, H3 by done.
    destruct pre as [|line pre]; simpl.
    + by exists [], (String c text).
    + by exists (String c line :: pre), text.
Qed.

Lemma write_text (self : LineBufferedOutput) (data : string) :
  text_of (write self data).1 +:+ _buf (write self data).2 = _buf self +:+ data.
Proof. rewrite write_lines_of. apply lines_of_text. Qed.

(** X21: [write] hands the callback complete lines only, each a text with
    one line end ([\r\n], [\r] or [\n]) after it, and loses nothing: the
    lines, in order, and the new buffer make up the old buffer and the
    data; and the new buffer holds no line end. *)
Theorem write_complete_lines (self : LineBufferedOutput) (data : string) :
  text_of (write self data).1 +:+ _buf (write self data).2 = _buf self +:+ data
  ∧ Forall complete_line (write self data).1
  ∧ one_line (_buf (write self data).2) = true.
Proof.
  split; [apply write_text|]. rewrite write_lines_of. apply lines_of_complete.
Qed.

Lemma write_all_snoc (self : LineBufferedOutput) (pieces : list string) (data : string) :
  write_all self (pieces ++ [data])
  = ((write_all self pieces).1 ++ (write (write_all self pieces).2 data).1,
     (write (write_all self pieces).2 data).2).
Proof.
  unfold write_all. rewrite fold_left_app. cbn [fold_left].
  match goal with |- context [write ?st data] => by destruct (write st data) end.
Qed.

(** X22: a stream written piece by piece and then finalized hands the
    callback all that was written, in order and once: the lines are the
    text of the pieces after what the buffer held; and the buffer is empty
    afterwards, so a second [finalize] hands over nothing. *)
Theorem finalize_flushes (self : LineBufferedOutput) (pieces : list string) :
  let '(lines, written) := write_all self pieces in
  let '(tail, closed) := finalize written in
  text_of (lines ++ tail) = _buf self +:+ text_of pieces
  ∧ _buf closed = ""
  ∧ finalize closed = ([], closed).
Proof.
  assert (Hall : text_of (write_all self pieces).1 +:+ _buf (write_all self pieces).2
                 = _buf self +:+ text_of pieces).
  { induction pieces as [|data pieces IH] using rev_ind.
    - simpl. by rewrite append_empty_r.
    - rewrite write_all_snoc. cbn [fst snd]. rewrite !text_of_app.
      change (text_of [data]) with (data +:+ ""). rewrite append_empty_r.
      rewrite append_assoc.
      rewrite (write_text (write_all self pieces).2 data).
      by rewrite <- append_assoc, IH, append_assoc. }
  destruct (write_all self pieces) as [lines written]. simpl in Hall.
  unfold finalize. destruct (String.eqb_spec (_buf written) "") as [Hb|Hb]; simpl.
  - rewrite Hb, append_empty_r in Hall. rewrite app_nil_r. split; [done|].
    split; [done|]. by rewrite Hb.
  - rewrite text_of_app. simpl. rewrite append_empty_r. done.
Qed.

Lemma write_all_two (self : LineBufferedOutput) (d1 d2 : string) :
  write_all self [d1; d2]
  = ((write self d1).1 ++ (write (write self d1).2 d2).1, (write (write self d1).2 d2).2).
Proof.
  unfold write_all. cbn [fold_left fst snd].
  destruct (write self d1) as [lines1 self1]. cbn [fst snd].
  by destruct (write self1 d2).
Qed.

(** X23: what writing in two pieces changes.  Two writes hand over the same
    lines as one write of the two pieces together, and leave the same
    buffer, unless the first ends in [\r] and the second begins with [\n];
    then the two writes hand over that line end as two lines, the second
    of them a bare [\n], where one write hands over one line. *)
Theorem write_in_pieces (self : LineBufferedOutput) (d1 d2 : string) :
  (¬ straddles (_buf self +:+ d1) d2 →
     write_all self [d1; d2] = write self (d1 +:+ d2))
  ∧ (straddles (_buf self +:+ d1) d2 →
     ∃ pre text post,
       (write_all self [d1; d2]).1
       = pre ++ [text +:+ String CR ""; String LF ""] ++ post
       ∧ (write self (d1 +:+ d2)).1
         = pre ++ [text +:+ String CR (String LF "")] ++ post
       ∧ (write_all self [d1; d2]).2 = (write self (d1 +:+ d2)).2).
Proof.
  rewrite write_all_two, !write_lines_of. cbn [fst snd _buf].
  rewrite <- append_assoc. split.
  - intros Hcut. by rewrite (lines_of_app _ _ Hcut).
  - intros (x & y & -> & ->).
    destruct (lines_of_cut x y) as (pre & text & -> & -> & Hone).
    rewrite append_assoc. change (String CR "" +:+ String LF y) with (String CR (String LF y)).
    rewrite Hone. change ("" +:+ String LF y) with (String LF y). rewrite lines_of_lf.
    exists pre, text, (lines_of y).1. cbn [fst snd]. rewrite <- !app_assoc. done.
Qed.

(** ** Mounting a module *)

Lemma split_app (sep : Ascii.ascii) (p q : string) :
  split sep (p +:+ String sep q) = split sep p ++ split sep q.
Proof.
  induction p as [|c p IH].
  - change (split sep (String sep q) = "" :: split sep q). simpl.
    by rewrite Ascii.eqb_refl.
  - change (String c p +:+ String sep q) with (String c (p +:+ String sep q)).
    simpl. rewrite IH. destruct (Ascii.eqb c sep); [done|].
    pose proof (split_length sep p) as Hlen.
    by destruct (split sep p).
Qed.

Lemma split_parts (sep : Ascii.ascii) (s : string) :
  Forall (λ part, occurrences sep part = 0) (split sep s).
Proof.
  induction s as [|c s IH]; simpl; [by repeat constructor|].
  destruct (Ascii.eqb c sep) eqn:Hc; [by constructor|].
  destruct (split sep s) as [|part parts]; [repeat constructor; simpl; by rewrite Hc|].
  apply Forall_cons in IH as [Hpart Hparts]. constructor; [|done].
  simpl. by rewrite Hc.
Qed.

Lemma split_last (sep : Ascii.ascii) (s : string) :
  0 < occurrences sep s →
  ∃ stem, s = stem +:+ String sep (List.last (split sep s) "").
Proof.
  induction s as [|c s IH]; simpl; [lia|].
  destruct (Ascii.eqb_spec c sep) as [->|Hc]; simpl.
  - intros _. destruct (decide (occurrences sep s = 0)) as [Hnone|Hsome].
    + rewrite (split_one_part _ _ Hnone). by exists "".
    + destruct IH as [stem Hstem]; [lia|]. exists (String sep stem).
      pose proof (split_length sep s) as Hlen.
      destruct (split sep s) as [|part parts]; [done|].
      change (String sep s = String sep (stem +:+ String sep (List.last (part :: parts) ""))).
      by rewrite <- Hstem.
  - intros Hs. destruct (IH Hs) as [stem Hstem]. exists (String c stem).
    pose proof (split_length sep s) as Hlen.
    destruct (split sep s) as [|part [|part' parts]]; simpl in Hlen; [lia..|].
    change (String c s = String c (stem +:+ String sep (List.last (part :: part' :: parts) ""))).
    by rewrite <- Hstem.
Qed.

Lemma last_app_cons {A} (l k : list A) (x d : A) :
  List.last (l ++ x :: k) d = List.last (x :: k) d.
Proof.
  induction l as [|y l IH]; [done|].
  rewrite <- IH. simpl. by destruct l.
Qed.

Lemma last_elem_of {A} (l : list A) (d : A) : l ≠ [] → List.last l d ∈ l.
Proof.
  induction l as [|x l IH]; [done|]. intros _. destruct l as [|y l].
  - apply elem_of_cons. by left.
  - apply elem_of_cons. right. by apply IH.
Qed.

(** The ending [get_file_formats] takes of a path. *)
Lemma ending_has_extension (ext path : string) :
  occurrences dot ext = 0 →
  (has_extension ext path
   ↔ 0 < occurrences dot path ∧ List.last (split dot path) "" = ext).
Proof.
  intros Hext. split.
  - intros [stem ->]. rewrite split_app, (split_one_part _ _ Hext). split.
    + pose proof (split_length dot (stem +:+ String dot ext)) as Hlen.
      rewrite split_app, length_app, !split_length in Hlen. lia.
    + pose proof (split_length dot stem) as Hlen.
      destruct (split dot stem) as [|part parts]; [done|]. apply last_app_cons.
  - intros [Hdot <-]. destruct (split_last _ _ Hdot) as [stem Hstem]. by exists stem.
Qed.

(** X24: a module with a binary file is not mounted.  When a file of the
    distribution has a name [stem.ext] with [ext] one of [so], [S], [s] and
    [asm], [get_module_mount_info] raises without importing the module;
    when no file has, or the distribution is not found, the module is
    imported and every tuple returned names it: one for each entry of its
    [__path__], or else one for the directory of its file. *)
Theorem binary_module_refused (module : string) (files : package_files)
    (import_module : fallible PyModule) :
  let refused paths :=
    ∃ path ext, path ∈ paths ∧ ext ∈ BINARY_FORMATS ∧ has_extension ext path in
  (∀ paths, files = package_files_are paths → refused paths →
     get_module_mount_info module files import_module
     = Throws (contains_binary module))
  ∧ (∀ m, import_module = Returns m →
       files = package_not_found ∨ (∃ paths, files = package_files_are paths ∧ ¬ refused paths) →
       match __path__ m, __file__ m with
       | Some (path :: paths), _ =>
           get_module_mount_info module files import_module
           = Returns (map (λ path, (module, path, module_mount_condition)) (path :: paths))
       | _, Some filename =>
           ∃ condition,
             get_module_mount_info module files import_module
             = Returns [(module, dirname filename, condition)]
             ∧ ∀ f, condition f = true ↔ basename f = basename filename
       | _, None =>
           ∃ e, get_module_mount_info module files import_module = Throws e
       end).
Proof.
  intros refused.
  assert (Hcheck : ∀ paths,
    list_to_set BINARY_FORMATS
    ∩ list_to_set (map (λ p, List.last (split dot p) "")
                       (filter (λ p, 0 < occurrences dot p) paths))
    = (∅ : gset string) ↔ ¬ refused paths).
  { intros paths. split.
    - intros Hempty (path & ext & Hpath & Hext & Hhas).
      assert (Hnodot : occurrences dot ext = 0).
      { unfold BINARY_FORMATS in Hext.
        repeat (apply elem_of_cons in Hext as [->|Hext]; [done|]).
        by apply elem_of_nil in Hext. }
      apply (ending_has_extension _ _ Hnodot) in Hhas as [Hdot Hlast].
      assert (Hin : ext ∈ (∅ : gset string)); [|by apply elem_of_empty in Hin].
      rewrite <- Hempty. apply elem_of_intersection.
      split; [by apply elem_of_list_to_set|].
      apply elem_of_list_to_set, list_elem_of_fmap. exists path. split; [done|].
      by apply list_elem_of_filter.
    - intros Hnot. apply set_eq. intros ext. split; [|by intros ?%elem_of_empty].
      intros [Hext Hform]%elem_of_intersection. destruct Hnot.
      apply elem_of_list_to_set in Hext.
      apply elem_of_list_to_set, list_elem_of_fmap in Hform as (path & -> & Hpath).
      apply list_elem_of_filter in Hpath as [Hdot Hpath].
      exists path, (List.last (split dot path) ""). split; [done|]. split; [done|].
      apply ending_has_extension; [|done].
      pose proof (split_parts dot path) as Hparts.
      pose proof (split_length dot path) as Hlen.
      destruct (split dot path) as [|part parts] eqn:Hsplit; [done|].
      rewrite Forall_forall in Hparts. apply Hparts. by apply last_elem_of. }
  split.
  - intros paths -> Href. unfold get_module_mount_info. simpl.
    rewrite bool_decide_false; [done|]. intros Hempty. by apply Hcheck in Hempty.
  - intros m -> Hfiles.
    assert (Hpass : ∃ formats, get_file_formats files = Returns formats
              ∧ list_to_set BINARY_FORMATS ∩ formats = (∅ : gset string)).
    { destruct Hfiles as [->|(paths & -> & Hnot)]; simpl.
      - eexists. split; [done|]. apply set_eq. intros x. set_solver.
      - eexists. split; [done|]. by apply Hcheck. }
    destruct Hpass as (formats & Hformats & Hempty).
    unfold get_module_mount_info. rewrite Hformats, bool_decide_true by done. simpl.
    destruct (__path__ m) as [[|path paths]|]; [| done |];
      (destruct (__file__ m) as [filename|]; [|by eexists]);
      (eexists; split; [done|]); intros f; apply String.eqb_eq.
Qed.

(** ** The theorems at work *)

Section Examples.
Import Fixture.

Lemma process_result_failure_witness :
  status (failure (data [Byte.x2a])) = GENERIC_STATUS_FAILURE
  ∧ fetch_data (failure (data [Byte.x2a])) = Done [Byte.x2a]
  ∧ ∃ msg, _process_result (failure (data [Byte.x2a])) = Raise (ExecutionError msg)
           ∧ includes "Got remote exception of incorrect type" msg.
Proof.
  split; [reflexivity|]. split; [reflexivity|].
  destruct (process_result_failure (failure (data [Byte.x2a])) [Byte.x2a] eq_refl eq_refl)
    as [Hpayload _].
  destruct (Hpayload ltac:(discriminate)) as (_ & Hwrong & _).
  destruct (Hwrong 42 eq_refl eq_refl) as (msg & Hraise & Hmsg & _).
  exists msg. split; assumption.
Defined.

Lemma run_generator_stream_witness :
  get_script generator_world = map Returns three_values ++ [Returns [output 0 Byte.x05]]
  ∧ stream_of three_values
    = [success [Byte.x01]; success [Byte.x02]; success [Byte.x03]]
      ++ complete :: [success [Byte.x04]]
  ∧ ∃ w', run_generator invocation generator_world = (([1; 2; 3], Done tt), w').
Proof.
  split; [reflexivity|]. split; [reflexivity|].
  apply (run_generator_stream invocation generator_world three_values
           [Returns [output 0 Byte.x05]]
           [success [Byte.x01]; success [Byte.x02]; success [Byte.x03]]
           complete [success [Byte.x04]] [1; 2; 3]).
  - reflexivity.
  - reflexivity.
  - repeat constructor; discriminate.
  - reflexivity.
  - repeat constructor.
Defined.

Lemma map_outputs_in_input_order_witness :
  map_is_generator square_args = false
  ∧ engine (run square_args (map_invocation four_inputs out_of_order) (fair 30)) = Exited
  ∧ yielded (run square_args (map_invocation four_inputs out_of_order) (fair 30))
    = [0; 1; 4; 9]
  ∧ length (yielded (run square_args (map_invocation four_inputs out_of_order) (fair 30)))
    = length four_inputs.
Proof.
  split; [reflexivity|]. split; [vm_compute; reflexivity|].
  split; [vm_compute; reflexivity|].
  apply (map_outputs_in_input_order square_args four_inputs out_of_order (fair 30)).
  - reflexivity.
  - vm_compute. reflexivity.
  - apply Forall_forall. vm_compute. repeat constructor.
Defined.

(** With [timeout == 0] and a clock that reads the same after the first,
    empty poll, [backend_timeout] is [0], not below it, and a second poll is
    made. *)
Lemma get_items_timeout_zero_polls_twice :
  ¬ ∃ o w', get_items invocation (Some 0%Q) stalled = (o, w')
            ∧ length (calls w') = length (calls stalled) + 1.
Proof.
  intros (o & w' & Hrun & Hlen). vm_compute in Hrun.
  injection Hrun as <- <-. vm_compute in Hlen. discriminate.
Qed.

Example stalled_clock_second_poll :
  ∃ w', get_items invocation (Some 0%Q) stalled = (Done [success [Byte.x07]], w')
        ∧ map request (calls w')
          = [FunctionGetOutputsRequest "fc-1" 0 true;
             FunctionGetOutputsRequest "fc-1" 0 true].
Proof. eexists. vm_compute. split; reflexivity. Qed.

(** The outer loop returns on the bare [yield] of the pump when the poll
    loop, still waiting for a response, has yielded everything before. *)
Example pump_finishes_last :
  let s := run square_args (map_invocation four_inputs out_of_order) pump_last in
  engine s = Exited ∧ poll s = PollCall ∧ yielded s = [0; 1; 4; 9].
Proof. vm_compute. repeat split. Qed.

(** Three empty long polls, then the result. *)
Example empty_long_poll :
  ∃ w', get_items invocation None
          (server [Returns []; Returns []; Returns []; Returns [output 0 Byte.x07]])
        = (Done [success [Byte.x07]], w')
        ∧ length (calls w') = 4.
Proof. eexists. vm_compute. split; reflexivity. Qed.

(** [poll_function(timeout=0)] with the server holding the output back. *)
Example poll_function_no_result :
  ∃ w', poll_function invocation (Some 0%Q)
          (server [Returns []; Returns [output 0 Byte.x07]])
        = (Raise TimeoutError, w')
        ∧ map request (calls w') = [FunctionGetOutputsRequest "fc-1" 0 true].
Proof. eexists. vm_compute. split; reflexivity. Qed.

(** One byte above the limit goes through the blob store. *)
Example large_payload :
  _create_input 5 0 (Some 0)
  = Done {| input := {| args := None; args_blob_id := Some "bl-1" |}; idx := Some 0 |}.
Proof. reflexivity. Qed.

(** A failed result whose payload is an exception raises that exception. *)
Example remote_exception :
  _process_result (failure (data [Byte.xc8])) = Raise (Propagated 200).
Proof. reflexivity. Qed.

(** 205 inputs leave in batches of 100, 100 and 5. *)
Example batches_of_205 :
  batch_sizes
    (calls (world (run square_args
                     (map_invocation (repeat 1 205) (accepting 3))
                     (drain_then_pump 205))))
  = [100; 100; 5].
Proof. vm_compute. reflexivity. Qed.

(** The poll loop ends last: the two other tasks have ended, the last output
    has been handed over, and the next step of the poll task ends the map. *)
Lemma map_termination_witness :
  let s := run square_args (map_invocation four_inputs out_of_order) (take 140 (fair 30)) in
  engine s = Running ∧ drain s = DrainDone ∧ pump s = PumpDone ∧ poll s = PollWhile
  ∧ engine (step square_args s (Run Poll)) = Exited.
Proof.
  intros s.
  assert (Hrun : engine s = Running) by (vm_compute; reflexivity).
  assert (Hpoll : poll s = PollWhile) by (vm_compute; reflexivity).
  assert (Hnone : pending_outputs s !! num_outputs s = None) by (vm_compute; reflexivity).
  split; [exact Hrun|]. split; [vm_compute; reflexivity|].
  split; [vm_compute; reflexivity|]. split; [exact Hpoll|].
  destruct (map_termination square_args four_inputs out_of_order (take 140 (fair 30)))
    as (_ & _ & Hcheck & _).
  destruct (Hcheck Hrun Hpoll Hnone) as (_ & _ & _ & Hexit).
  apply Hexit. vm_compute. repeat split; reflexivity.
Defined.

(** A map over one input whose index the server answers twice.  The second
    answer comes in before the pump has sent the input: the map returns at
    the [yield] of the pump with that answer still pending.  And when the
    server answers for an index beyond the inputs, the exit test is met with
    [num_outputs > num_inputs], and the map fails on the assertion after
    having yielded two values for one input. *)
Lemma map_exit_with_pending_output :
  (let s := run square_args (map_invocation [3] answered_twice) pump_last in
   engine s = Exited ∧ yielded s = [3] ∧ pending_outputs s !! 0 = Some 9)
  ∧ (let s := run square_args (map_invocation [3] one_too_many) pump_first in
     engine s = Running ∧ poll s = PollWhile ∧ have_all_inputs s = true
     ∧ num_inputs s = 1 ∧ num_outputs s = 2
     ∧ engine (run square_args s [Run Poll; Deliver Poll]) = Failed AssertionError).
Proof. vm_compute. repeat split; reflexivity. Qed.

(** [submit] on a function gives the handle of the call, on a generator
    nothing. *)
Lemma submit_handle_witness :
  (∃ w', submit local_process square 2 0 (server [])
         = (Done (Some {| _client := Some (); _object_id := Some "fc-1" |}), w')
       ∧ length (calls w') = 2)
  ∧ (∃ w', submit local_process count 2 0 (server []) = (Done None, w')
         ∧ length (calls w') = 2).
Proof.
  split.
  - destruct (proj1 (submit_handle local_process square 2 0 (server []))
                () "fu-1" "fc-1" _ [] [Returns ()] eq_refl ltac:(done) eq_refl eq_refl eq_refl)
      as (w' & _ & Hsub & Hcalls).
    exists w'. split; [exact Hsub|]. rewrite Hcalls. reflexivity.
  - destruct (proj1 (submit_handle local_process count 2 0 (server []))
                () "fu-2" "fc-1" _ [] [Returns ()] eq_refl ltac:(done) eq_refl eq_refl eq_refl)
      as (w' & _ & Hsub & Hcalls).
    exists w'. split; [exact Hsub|]. rewrite Hcalls. reflexivity.
Defined.

Example submit_function :
  ∃ w', submit local_process square 2 0 (server [])
        = (Done (Some {| _client := Some (); _object_id := Some "fc-1" |}), w').
Proof. eexists. vm_compute. reflexivity. Qed.

Example submit_generator :
  ∃ w', submit local_process count 2 0 (server []) = (Done None, w')
        ∧ map request (calls w')
          = [FunctionMapRequest "fu-2";
             FunctionPutInputsRequest "fu-2"
               [{| input := {| args := Some [Byte.x00; Byte.x00]; args_blob_id := None |};
                   idx := None |}] "fc-1"].
Proof. eexists. vm_compute. split; reflexivity. Qed.


(** A result marked as a generator's is refused by [run_function], and
    decoded when the status is unset. *)
Lemma run_function_first_item_witness :
  let marked := {| status := GENERIC_STATUS_SUCCESS;
                   gen_status := GENERATOR_STATUS_INCOMPLETE;
                   result_data := data [Byte.x07]; exception := ""; traceback := "" |} in
  (∃ w', run_function invocation (server [Returns []; Returns [item 0 marked]])
         = (Raise AssertionError, w'))
  ∧ (∃ w', run_function invocation (server [Returns []; Returns [output 0 Byte.x07]])
           = (Done 7, w')).
Proof.
  intros marked. split.
  - destruct (proj2 (run_function_first_item invocation
                       (server [Returns []; Returns [item 0 marked]])) 1)
      as (_ & _ & Hitem).
    destruct (Hitem (item 0 marked) [] [] eq_refl) as (w' & Hrun & _).
    exists w'. exact Hrun.
  - destruct (proj2 (run_function_first_item invocation
                       (server [Returns []; Returns [output 0 Byte.x07]])) 1)
      as (_ & _ & Hitem).
    destruct (Hitem (output 0 Byte.x07) [] [] eq_refl) as (w' & Hrun & _).
    exists w'. exact Hrun.
Defined.

(** A handle that holds a client and no object id polls the call with the
    empty id. *)
Lemma FunctionCall_get_waits_witness :
  let h := {| _client := Some (); _object_id := None |} in
  ∃ w', FunctionCall_get h None (server [Returns []; Returns [output 0 Byte.x07]])
        = (Done 7, w')
      ∧ map request (calls w')
        = [FunctionGetOutputsRequest "" 60 true; FunctionGetOutputsRequest "" 60 true].
Proof.
  intros h.
  destruct (proj2 (FunctionCall_get_waits h
                     (server [Returns []; Returns [output 0 Byte.x07]]))
              (ex_intro _ () eq_refl)) as (Hpolls & Hcases).
  destruct (proj2 (proj2 (Hcases 1)) (output 0 Byte.x07) [] [] eq_refl)
    as (w' & Hget & Hlen & _).
  exists w'. split; [exact Hget|].
  destruct (Hpolls _ _ Hget) as (polls & Hcalls & Hall).
  rewrite Hcalls in *. simpl in *.
  destruct polls as [|c1 [|c2 [|c3 polls]]]; try discriminate Hlen.
  apply Forall_cons in Hall as [H1 Hall]. apply Forall_cons in Hall as [H2 _].
  cbn [map app]. rewrite H1, H2. reflexivity.
Defined.

Lemma submit_then_get_witness :
  let w := server [Returns [output 0 Byte.x04]] in
  let w' := (submit local_process square 2 0 w).2 in
  ∃ h, submit local_process square 2 0 w = (Done (Some h), w')
    ∧ ∃ cl id cm cp,
        calls w' = calls w ++ [cm; cp]
        ∧ reply cm = Returns (FunctionMapResponse id)
        ∧ FunctionCall_get h None w'
          = poll_function {| client := cl; function_call_id := id |} None w'
        ∧ ∃ polls,
            calls (FunctionCall_get h None w').2 = calls w' ++ polls
            ∧ Forall (λ c, ∃ bt, request c = FunctionGetOutputsRequest id bt true) polls.
Proof.
  intros w w'. eexists. split; [vm_compute; reflexivity|].
  apply (submit_then_get local_process square 2 0 w w' _ None).
  vm_compute. reflexivity.
Defined.

Lemma call_outside_app_witness :
  is_local local_process = true ∧ _local_app orphan = None
  ∧ call_function local_process orphan 2 0 (server [])
    = (Raise (InvalidError app_is_not_running), server [])
  ∧ submit local_process orphan 2 0 (server [])
    = (Raise (InvalidError app_is_not_running), server []).
Proof.
  split; [reflexivity|]. split; [reflexivity|].
  destruct (call_outside_app local_process orphan 2 0 (server []) eq_refl eq_refl
              (or_introl eq_refl)) as (Hcall & Hsubmit & _).
  split; [exact Hcall|exact Hsubmit].
Defined.

Lemma payload_channels_agree_witness :
  let r := {| status := GENERIC_STATUS_SUCCESS; gen_status := GENERATOR_STATUS_INCOMPLETE;
              result_data := data_blob_id "bbbbbbb"; exception := ""; traceback := "" |} in
  @_create_input blob_store 7 0 (Some 0)
  = Done {| input := {| args := None; args_blob_id := Some "bbbbbbb" |}; idx := Some 0 |}
  ∧ @_process_result blob_store r = Done 7.
Proof.
  intros r. split; [reflexivity|].
  apply (@payload_channels_agree blob_store 7 0 (Some 0)
           {| input := {| args := None; args_blob_id := Some "bbbbbbb" |}; idx := Some 0 |} r).
  - reflexivity.
  - intros id [= <-]. reflexivity.
  - reflexivity.
  - reflexivity.
Defined.

Lemma call_function_trace_witness :
  let w := server [Returns []; Returns [output 0 Byte.x09]] in
  ∃ w' polls,
    call_function local_process square 3 0 w = (Done 9, w')
    ∧ map request (calls w')
      = [FunctionMapRequest "fu-1";
         FunctionPutInputsRequest "fu-1"
           [{| input := {| args := Some [Byte.x00; Byte.x00; Byte.x00];
                           args_blob_id := None |}; idx := None |}] "fc-1"]
        ++ map request polls
    ∧ length polls = 2.
Proof.
  intros w.
  destruct (call_function_trace local_process square running_app 3 0 w "fu-1" "fc-1"
              {| input := {| args := Some [Byte.x00; Byte.x00; Byte.x00];
                             args_blob_id := None |}; idx := None |}
              1 (output 0 Byte.x09) [] [] [Returns ()] [])
    as (w' & polls & Hcall & Hcalls & Hlen & _); try reflexivity.
  - discriminate.
  - exists w', polls. split; [exact Hcall|]. split; [|exact Hlen].
    rewrite Hcalls. reflexivity.
Defined.

Lemma run_generator_failure_witness :
  let w := server [Returns [output 0 Byte.x01]; Returns [];
                   Returns [output 0 Byte.x02; item 0 (failure (data [Byte.xc8]));
                            output 0 Byte.x03]] in
  ∃ w', run_generator invocation w = (([1; 2], Raise (Propagated 200)), w').
Proof.
  intros w.
  apply (run_generator_failure invocation w
           [[output 0 Byte.x01]; [];
            [output 0 Byte.x02; item 0 (failure (data [Byte.xc8])); output 0 Byte.x03]]
           []
           [success [Byte.x01]; success [Byte.x02]]
           (failure (data [Byte.xc8])) [success [Byte.x03]] [1; 2]).
  - reflexivity.
  - reflexivity.
  - repeat constructor; discriminate.
  - discriminate.
  - reflexivity.
  - repeat constructor.
Defined.

Lemma process_result_success_witness :
  status (success [Byte.x07]) = GENERIC_STATUS_SUCCESS
  ∧ _process_result (success [Byte.x07]) = Done 7.
Proof.
  split; [reflexivity|].
  destruct (process_result_success (success [Byte.x07]) eq_refl) as [Heq _].
  rewrite Heq. reflexivity.
Defined.

Lemma map_generator_stream_witness :
  let s := run count_args (map_invocation [5; 6] interleaved) (fair 16) in
  map_is_generator count_args = true
  ∧ engine s = Exited ∧ yielded s = [10; 1; 2]
  ∧ ∃ seen, seen `prefix_of` engine_received interleaved s
      ∧ Forall2 decodes (values_of seen) (yielded s)
      ∧ num_outputs s = markers seen
      ∧ (engine s = Exited → markers seen = length [5; 6]).
Proof.
  intros s. split; [reflexivity|]. split; [vm_compute; reflexivity|].
  split; [vm_compute; reflexivity|].
  apply (map_generator_stream count_args [5; 6] interleaved (fair 16)). reflexivity.
Defined.

Lemma map_failure_causes_witness :
  let s := run square_args (map_invocation [0; 1] failing) (fair 4) in
  engine s = Failed (ExecutionError "Got remote exception of incorrect type <class 'int'>")
  ∧ failure_of square_args [0; 1] (engine_calls failing s)
      (ExecutionError "Got remote exception of incorrect type <class 'int'>").
Proof.
  intros s. split; [vm_compute; reflexivity|].
  apply (map_failure_causes square_args [0; 1] failing (fair 4)).
  vm_compute. reflexivity.
Defined.

Lemma map_empty_source_witness :
  let s := run square_args (map_invocation [] (server [Returns []])) (fair 4) in
  engine s = Exited ∧ yielded s = []
  ∧ Forall (λ c, is_put c = false) (engine_calls (server [Returns []]) s).
Proof.
  intros s. split; [vm_compute; reflexivity|]. split; [vm_compute; reflexivity|].
  apply (map_empty_source square_args [] (server [Returns []]) (fair 4)). reflexivity.
Defined.

Lemma map_completes_witness :
  let results := [success [Byte.x00]; success [Byte.x01]; success [Byte.x04]] in
  let s := run square_args (map_invocation [0; 1; 2] (answering results)) (in_sequence 3) in
  map_is_generator square_args = false
  ∧ get_script (answering results) = answers results
  ∧ engine s = Exited ∧ yielded s = [0; 1; 4].
Proof.
  intros results s. split; [reflexivity|]. split; [reflexivity|].
  eapply (map_completes square_args [0; 1; 2] "fc-1" eq_refl (answering results) _
           results [0; 1; 4] [] [] 4).
  - reflexivity.
  - reflexivity.
  - simpl. lia.
  - reflexivity.
  - simpl.
    repeat (constructor;
            [split; [|eexists; split; [reflexivity|vm_compute; reflexivity]]; reflexivity|]).
    constructor.
  - repeat (constructor; [vm_compute; reflexivity|]). constructor.
  - reflexivity.
Defined.

Lemma fresh_function_context_witness :
  ∃ f attrs,
    Function_init square_init = Done (f, attrs)
    ∧ is_local local_process = true
    ∧ _get_context local_process f = Raise (InvalidError app_is_not_running)
    ∧ _get_context local_process (set_local_app running_app f) = Done ((), Some "fu-1").
Proof.
  eexists _, _. split; [reflexivity|]. split; [reflexivity|].
  destruct (fresh_function_context square_init _ _ local_process eq_refl eq_refl)
    as [Hfresh (info & tag & Hinfo & Htag & Happ)].
  split; [exact Hfresh|]. rewrite Happ.
  injection Hinfo as <-. injection Htag as <-. reflexivity.
Defined.

(** An id with two dashes is told that it has no dash. *)
Example from_id_two_dashes :
  from_id {[ "fu" := "_Function"; "fc" := "_FunctionCall" ]} "fc-12-3" (Some ())
  = Raise (InvalidError "Object id fc-12-3 has no dash in it").
Proof. vm_compute. reflexivity. Qed.

Example from_id_function_call :
  from_id {[ "fu" := "_Function"; "fc" := "_FunctionCall" ]} "fc-123" (Some ())
  = Done ("_FunctionCall", {| _client := Some (); _object_id := Some "fc-123" |}).
Proof. vm_compute. reflexivity. Qed.

(** A [\r\n] written in one piece is one line end, written in two pieces it
    is two. *)
Example write_crlf_in_one_piece :
  write_all {| _buf := "" |}
    [String (Ascii.ascii_of_nat 97) (String CR (String LF (String (Ascii.ascii_of_nat 98) EmptyString)))]
  = ([String (Ascii.ascii_of_nat 97) (String CR (String LF EmptyString))], {| _buf := "b" |}).
Proof. vm_compute. reflexivity. Qed.

Example write_crlf_in_two_pieces :
  write_all {| _buf := "" |}
    [String (Ascii.ascii_of_nat 97) (String CR EmptyString); String LF (String (Ascii.ascii_of_nat 98) EmptyString)]
  = ([String (Ascii.ascii_of_nat 97) (String CR EmptyString); String LF EmptyString], {| _buf := "b" |}).
Proof. vm_compute. reflexivity. Qed.

(** Eleven retries are too many, and [True] counts as one. *)
Example eleven_retries :
  ∃ msg, Function_init
           {| raw_f := square_f; image := None; secret := None; secrets := [];
              schedule := None; is_generator := false; gpu := false; rate_limit := None;
              serialized := false; mounts := []; shared_volumes := 0;
              webhook_config := None; memory := None; proxy := None;
              retries := Some (retries_int 11); concurrency_limit := None |}
         = Raise (InvalidError msg).
Proof. eexists. vm_compute. reflexivity. Qed.

(** A package with a shared library is refused, whatever importing it would
    give. *)
Example shared_library_refused :
  get_module_mount_info "numpy"
    (package_files_are ["numpy/__init__.py"; "numpy/core/_multiarray_umath.so"])
    (Throws "ImportError")
  = Throws "numpy can't be mounted because it contains a binary file.".
Proof. vm_compute. reflexivity. Qed.

End Examples.
